(** * Zapatos core: the SQL fragment compiler of [src/core.ts]

    A shallow embedding of [SQLFragment.compile], [SQLFragment.compileExpression]
    and [SQLFragment.run], and the properties of the compiled query
    [{ text, values }] that the specification states about them.

    Conventions of the embedding
    - A JavaScript value is a finite tree ([JSVal]).  The compiler only reads
      the values it is given and writes to the accumulator [result], so
      sharing inside a value is not observable by it.
    - A string is a sequence of code units, one [ascii] each; [Array.sort]
      without a comparator orders strings by code unit, here [String.leb].
    - A number is a safe integer, or any other number given by its string
      conversion ([JSNumber]); the compiler never computes with a number,
      it only stores it in [values] or prints it in an error message.
    - A [throw] is a [Throw] completion that carries the accumulator as the
      statement left it, since [result] is mutated in place.

    The second part embeds the compiler once more, over a store of mutable
    objects, for the claim that compiling changes nothing but the
    accumulator, and shows that the two embeddings agree.

    The last parts prove further properties of the compiler, of the shortcut
    functions and of [run], and embed from the generator [finaliseConfig]
    and the table rules of [tsForConfig]. *)


From Stdlib Require Import ZArith Ascii String DecimalString DecimalNat.
From stdpp Require Import base tactics option list sorting strings.

(** * The model

    The values, the compiler over trees, [run], the compiler over a store,
    and the notions the properties are stated with. *)

(** ** JavaScript values *)

(** The symbols of the module: [Default], [self] and [all]; any other symbol
    is identified by its description. *)
Inductive JSSymbol : Type :=
| SymDefault
| SymSelf
| SymAll
| SymOther (description : string).

(** The prototype of an object that is neither an array nor an instance of
    one of the classes of the module.  Object literals have
    [ObjectPrototype]; a [Date], a [Map] or an instance of a foreign class
    has another one. *)
Inductive Prototype : Type :=
| ObjectPrototype
| OtherPrototype (className : string).

(** A number.  [Integer z] stands for the integer [z] when it is a safe
    integer, one of magnitude below 2^53, which is the range in which every
    integer is a number of its own and the string conversion prints it in
    plain decimal.  Every other number, a fraction, an integer of a larger
    magnitude, [NaN], an infinity, is given by its string conversion, as in
    [OtherNumber "1e+21"], [OtherNumber "0.5"] and [OtherNumber "NaN"]. *)
Inductive JSNumber : Type :=
| Integer (z : Z)
| OtherNumber (conversion : string).

Coercion Integer : Z >-> JSNumber.

(** [Number.isSafeInteger(z)] for an integer [z]. *)
Definition isSafeInteger (z : Z) : bool := (Z.abs z <? 2 ^ 53)%Z.

Unset Elimination Schemes.

(** The values an interpolated expression can be.  The wrapper classes of
    the module carry what their TypeScript declarations say: a string for
    [DangerousRawString] and [ParentColumn], an array of names or an object
    for [ColumnNames], an object for [ColumnValues].  An object with own
    enumerable string-keyed properties is the list of the assignments that
    built it, in insertion order: a later assignment to a key overwrites an
    earlier one. *)
Inductive JSVal : Type :=
| JUndefined
| JNull
| JBoolean (b : bool)
| JNumber (n : JSNumber)
| JString (s : string)
| JSymbol (y : JSSymbol)
| JFunction (source : string)
| JArray (elements : list JSVal)
| JSQLFragment (literals : list string) (expressions : list JSVal)
               (parentTable : option string)
| JParameter (value : JSVal)
| JDangerousRawString (value : string)
| JParentColumn (value : string)
| JColumnNames (value : list string + list (string * JSVal))
| JColumnValues (value : list (string * JSVal))
| JObject (proto : Prototype) (props : list (string * JSVal)).

Set Elimination Schemes.

Arguments JNumber n%_Z.

(** [class SQLFragment]: [literals], [expressions] and the optional
    [parentTable].  [runResultTransform] is read by [run] only and is kept
    with the fragment there. *)
Record SQLFragment : Type := mkSQLFragment {
  literals : list string;
  expressions : list JSVal;
  parentTable : option string
}.

Definition fragmentValue (f : SQLFragment) : JSVal :=
  JSQLFragment (literals f) (expressions f) (parentTable f).

(** [interface SQLResultType { text: string; values: any[] }] *)
Record SQLResultType : Type := mkResult {
  text : string;
  values : list JSVal
}.

(** The default argument [{ text: '', values: [] }]. *)
Definition emptyResult : SQLResultType := {| text := ""; values := [] |}.

Inductive JSError : Type :=
| Error (message : string)
| TypeError (message : string).

Inductive Completion : Type :=
| Return (result : SQLResultType)
| Throw (e : JSError) (result : SQLResultType).

Definition andThen (c : Completion) (k : SQLResultType → Completion) : Completion :=
  match c with
  | Return result => k result
  | Throw e result => Throw e result
  end.

Notation "c >>> k" := (andThen c k) (at level 61, left associativity).

(** ** Primitive operations *)

Definition dquote : string := String "034"%char EmptyString.

(** A name between double quotes, the template of the source for a quoted
    identifier. *)
Definition quoted (name : string) : string := dquote +:+ name +:+ dquote.

(** [String(n)] for an array length. *)
Definition stringOfLength (n : nat) : string :=
  NilEmpty.string_of_uint (Nat.to_uint n).

(** [String(n)] for a number: the decimal numeral of a safe integer, and
    for any other number the conversion it is given by. *)
Definition stringOfNumber (n : JSNumber) : string :=
  match n with
  | Integer z => NilZero.string_of_int (Z.to_int z)
  | OtherNumber conversion => conversion
  end.

(** [result.text += s] *)
Definition appendText (result : SQLResultType) (s : string) : SQLResultType :=
  {| text := text result +:+ s; values := values result |}.

(** Truthiness of an optional string: [undefined] and [''] are falsy. *)
Definition truthy (o : option string) : bool :=
  match o with
  | Some s => negb (String.eqb s "")
  | None => false
  end.

(** [if (this.parentTable) parentTable = this.parentTable;] *)
Definition pinParentTable (pinned inherited : option string) : option string :=
  if truthy pinned then pinned else inherited.

(** Whether [expression.charAt(0)] is the double quote. *)
Definition startsWithQuote (s : string) : bool :=
  match s with
  | String c _ => Ascii.eqb c "034"%char
  | EmptyString => false
  end.

(** [Object.keys(o)]: the distinct keys.  Their order is immaterial here,
    every use sorts them. *)
Definition objectKeys {A} (props : list (string * A)) : list string :=
  remove_dups (props.*1).

(** [o[k]] for the assignments [props]: the last assignment to [k] wins. *)
Fixpoint getProp {A} (props : list (string * A)) (k : string) : option A :=
  match props with
  | [] => None
  | (k', v) :: rest =>
      match getProp rest k with
      | Some v' => Some v'
      | None => if String.eqb k' k then Some v else None
      end
  end.

(** [keys.sort()]: ascending by code unit. *)
Definition sortStrings (keys : list string) : list string :=
  merge_sort String.le keys.

(** [Object.keys(o).sort()] *)
Definition sortedKeys {A} (props : list (string * A)) : list string :=
  sortStrings (objectKeys props).

(** [xs.join(sep)] *)
Fixpoint join (sep : string) (xs : list string) : string :=
  match xs with
  | [] => ""
  | [x] => x
  | x :: rest => x +:+ sep +:+ join sep rest
  end.

(** [for (let i = 0, len = xs.length; i < len; i++) body(i, xs[i])] *)
Fixpoint forEach {A} (body : nat → A → SQLResultType → Completion)
    (i : nat) (xs : list A) (result : SQLResultType) : Completion :=
  match xs with
  | [] => Return result
  | x :: rest => body i x result >>> forEach body (S i) rest
  end.

(** ** The compiler *)

(** The branch [expression instanceof Parameter]:
    [result.values.push(expression.value);
     result.text += '$' + String(result.values.length);] *)
Definition compileParameter (value : JSVal) (result : SQLResultType) : Completion :=
  let values' := values result ++ [value] in
  Return {| text := text result +:+ "$" +:+ stringOfLength (length values');
            values := values' |}.

(** The errors the compiler throws: the two the specification calls
    ContextError, and the one it calls UnsupportedExpressionError, whose
    message ends with the string conversion of the offending value. *)
Definition selfError : JSError := Error "The 'self' column alias has no meaning here".

Definition parentError : JSError := Error "The 'parent' table alias has no meaning here".

Definition alienError (description : string) : JSError :=
  Error ("Alien object while interpolating SQL: " +:+ description).

(** The branch [expression === self]. *)
Definition compileSelf (result : SQLResultType) (currentColumn : option string)
    : Completion :=
  match currentColumn with
  | Some c =>
      if truthy currentColumn then Return (appendText result (quoted c))
      else Throw selfError result
  | None => Throw selfError result
  end.

(** The branch [expression instanceof ParentColumn]. *)
Definition compileParentColumn (value : string) (result : SQLResultType)
    (parentTable : option string) : Completion :=
  match parentTable with
  | Some t =>
      if truthy parentTable
      then Return (appendText result (quoted t +:+ "." +:+ quoted value))
      else Throw parentError result
  | None => Throw parentError result
  end.

(** The last branch:
    [throw new Error(`Alien object while interpolating SQL: ${expression}`)],
    given the string conversion of the expression. *)
Definition throwAlien (description : string) (result : SQLResultType) : Completion :=
  Throw (alienError description) result.

(** The branch [expression instanceof ColumnNames]. *)
Definition columnNamesOf {A} (value : list string + list (string * A)) : list string :=
  match value with
  | inl names => names
  | inr props => sortedKeys props
  end.

Definition compileColumnNames {A} (value : list string + list (string * A))
    (result : SQLResultType) : Completion :=
  Return (appendText result (join ", " (quoted <$> columnNamesOf value))).

(** [o[k]] where every property value has been turned into the action that
    compiles it; [missing] is the action for [undefined], the value of a key
    that is not there. *)
Definition actionFor {A} (missing : A) (actions : list (string * A)) (k : string) : A :=
  default missing (getProp actions k).

(** The loop of [compile]: for every literal after the first, compile the
    expression before it, then append the literal.  An expression that is
    not there is [undefined], which [compileExpr] rejects. *)
Fixpoint compileLiterals (compileExpr : JSVal → SQLResultType → Completion)
    (expressions : list JSVal) (literals : list string) (result : SQLResultType)
    {struct expressions} : Completion :=
  match literals, expressions with
  | [], _ => Return result
  | literal :: literals', [] => throwAlien "undefined" result
  | literal :: literals', e :: expressions' =>
      compileExpr e result
      >>> λ result, compileLiterals compileExpr expressions' literals'
                      (appendText result literal)
  end.

(** [compileExpression(expression, result, parentTable, currentColumn)] as a
    method of a fragment whose own [parentTable] is [this]; the case of a
    nested fragment is the body of [compile] on that fragment.

    The loop of [compile] is [compileLiterals]; [compile] below has it as
    in the source.  The loops over [Object.keys(o).sort()] read [o[k]] for each key; here
    every property value is first turned into the action that compiles it,
    and the loop looks the action up. [compileExpression_ColumnValues] and
    [compileExpression_Whereable] below give the loops as the source has
    them. *)
Fixpoint compileExpression (this : option string) (expression : JSVal)
    (result : SQLResultType) (parentTable currentColumn : option string)
    {struct expression} : Completion :=
  let parentTable := pinParentTable this parentTable in
  match expression with
  | JSQLFragment literals expressions pinned =>
      let parentTable := pinParentTable pinned parentTable in
      let result := appendText result (nth 0 literals "undefined") in
      compileLiterals
        (λ e result, compileExpression pinned e result parentTable currentColumn)
        expressions (tail literals) result
  | JString s =>
      Return (appendText result (if startsWithQuote s then s else quoted s))
  | JDangerousRawString value =>
      Return (appendText result value)
  | JArray elements =>
      forEach (λ _ e result,
                 compileExpression this e result parentTable currentColumn)
              0 elements result
  | JParameter value => compileParameter value result
  | JSymbol SymDefault => Return (appendText result "DEFAULT")
  | JSymbol SymSelf => compileSelf result currentColumn
  | JParentColumn value => compileParentColumn value result parentTable
  | JColumnNames value => compileColumnNames value result
  | JColumnValues value =>
      let columnNames := sortedKeys value in
      let columnValues :=
        map (λ kv : string * JSVal,
               let (k, columnValue) := kv in
               (k, λ (columnName : option string) (result : SQLResultType),
                     match columnValue with
                     | JSQLFragment _ _ _ | JSymbol SymDefault =>
                         compileExpression this columnValue result parentTable columnName
                     | _ => compileParameter columnValue result
                     end)) value in
      forEach (λ i columnName result,
                 let result := if 0 <? i then appendText result ", " else result in
                 actionFor (λ _ result, compileParameter JUndefined result)
                   columnValues columnName (Some columnName) result)
              0 columnNames result
  | JNull =>
      Throw (TypeError "Cannot convert undefined or null to object") result
  | JObject _ props =>
      let columnNames := sortedKeys props in
      let columnValues :=
        map (λ kv : string * JSVal,
               let (k, columnValue) := kv in
               (k, λ (columnName : option string) (result : SQLResultType),
                     match columnValue with
                     | JSQLFragment _ _ _ =>
                         compileExpression this columnValue (appendText result "(")
                           parentTable columnName
                         >>> λ result, Return (appendText result ")")
                     | JParentColumn value =>
                         compileParentColumn value
                           (appendText result (quoted k +:+ " = ")) parentTable
                     | _ =>
                         compileParameter columnValue
                           (appendText result (quoted k +:+ " = "))
                     end)) props in
      match columnNames with
      | _ :: _ =>
          forEach (λ i columnName result,
                     let result := if 0 <? i then appendText result " AND " else result in
                     actionFor
                       (λ _ result,
                          compileParameter JUndefined
                            (appendText result (quoted columnName +:+ " = ")))
                       columnValues columnName (Some columnName) result)
                  0 columnNames (appendText result "(")
          >>> λ result, Return (appendText result ")")
      | [] => Return (appendText result "TRUE")
      end
  | JUndefined => throwAlien "undefined" result
  | JBoolean b => throwAlien (if b then "true" else "false") result
  | JNumber n => throwAlien (stringOfNumber n) result
  | JFunction source => throwAlien source result
  | JSymbol _ =>
      Throw (TypeError "Cannot convert a Symbol value to a string") result
  end.

(** [compile(result, parentTable, currentColumn)] on the fragment [this]. *)
Definition compile (this : SQLFragment) (result : SQLResultType)
    (parentTable0 currentColumn : option string) : Completion :=
  let pinned := parentTable this in
  let parentTable := pinParentTable pinned parentTable0 in
  let result := appendText result (nth 0 (literals this) "undefined") in
  forEach (λ j literal result,
             compileExpression pinned (nth j (expressions this) JUndefined)
               result parentTable currentColumn
             >>> λ result, Return (appendText result literal))
          0 (tail (literals this)) result.

(** The tagged template function [sql]: the literals and the interpolated
    expressions, no pinned parent table. *)
Definition sql (literals : list string) (expressions : list JSVal) : SQLFragment :=
  {| literals := literals; expressions := expressions; parentTable := None |}.

(** [compile()] with every argument defaulted. *)
Definition compile0 (this : SQLFragment) : Completion :=
  compile this emptyResult None None.

(** [o[k]] as a value. *)
Definition getValue (props : list (string * JSVal)) (k : string) : JSVal :=
  default JUndefined (getProp props k).

(** The body of the loop over a [ColumnValues] object. *)
Definition compileColumnValue (this : option string) (columnValue : JSVal)
    (result : SQLResultType) (parentTable : option string) (columnName : string)
    : Completion :=
  match columnValue with
  | JSQLFragment _ _ _ | JSymbol SymDefault =>
      compileExpression this columnValue result parentTable (Some columnName)
  | _ =>
      compileExpression this (JParameter columnValue) result parentTable (Some columnName)
  end.

(** The body of the loop over a [Whereable] object. *)
Definition compileWhereValue (this : option string) (columnValue : JSVal)
    (result : SQLResultType) (parentTable : option string) (columnName : string)
    : Completion :=
  match columnValue with
  | JSQLFragment _ _ _ =>
      compileExpression this columnValue (appendText result "(") parentTable
        (Some columnName)
      >>> λ result, Return (appendText result ")")
  | JParentColumn _ =>
      compileExpression this columnValue
        (appendText result (quoted columnName +:+ " = ")) parentTable (Some columnName)
  | _ =>
      compileExpression this (JParameter columnValue)
        (appendText result (quoted columnName +:+ " = ")) parentTable (Some columnName)
  end.

(** ** Running a fragment *)

(** What [run] does to the outside: it prints the query when the
    configuration is verbose, and it calls [queryable.query]. *)
Inductive Effect : Type :=
| ConsoleLog (query : SQLResultType)
| QueryCall (query : SQLResultType).

(** The promise an [async] function returns, once settled. *)
Inductive Settled (A : Type) : Type :=
| Fulfilled (v : A)
| Rejected (e : JSError).
Arguments Fulfilled {A} v.
Arguments Rejected {A} e.

(** [run(queryable)] on the fragment [this] with its [runResultTransform]:
    the effects in order, and how the returned promise settles.  A [throw]
    inside an [async] function rejects its promise.  [queryable] is
    [queryable.query(query)], awaited; [runResultTransform qr] is how
    [return this.runResultTransform(qr)] settles the promise, fulfilled with
    the value the transform returns or rejected with what it throws;
    [verbose] is [getConfig().verbose], from a configuration module that is
    not part of the sources at hand. *)
Definition run {QueryResult RunResult : Type}
    (queryable : SQLResultType → Settled QueryResult) (verbose : bool)
    (this : SQLFragment) (runResultTransform : QueryResult → Settled RunResult)
    : list Effect * Settled RunResult :=
  match compile0 this with
  | Throw e _ => ([], Rejected e)
  | Return query =>
      let logged := if verbose then [ConsoleLog query] else [] in
      match queryable query with
      | Rejected e => (logged ++ [QueryCall query], Rejected e)
      | Fulfilled qr => (logged ++ [QueryCall query], runResultTransform qr)
      end
  end.

(** ** The compiler over a store of mutable objects

    For the claim that compiling leaves the fragment as it was, values are
    no longer trees: an object lives in a cell of a store and is reached
    through a reference, the accumulator is the plain object
    [{ text, values }] with its [values] array in a cell of its own, and
    [result.text += ...] and [result.values.push(...)] write to the store.
    Nothing here keeps the compiler from writing to a fragment, or the
    accumulator from being one of the compiled objects; that the first does
    not happen is the theorem.

    A fragment holds its [literals] and [expressions] arrays in its own
    cell.  Recursion through references need not end (an array can contain
    itself), so the compiler takes fuel. *)
Module Heap.

Abbreviation loc := nat.

Inductive HVal : Type :=
| HUndefined
| HNull
| HBoolean (b : bool)
| HNumber (n : JSNumber)
| HString (s : string)
| HSymbol (y : JSSymbol)
| HFunction (source : string)
| HRef (l : loc).

Arguments HNumber n%_Z.

Inductive HObj : Type :=
| HArray (elements : list HVal)
| HSQLFragment (literals : list string) (expressions : list HVal)
               (parentTable : option string) (runResultTransform : HVal)
| HParameter (value : HVal)
| HDangerousRawString (value : string)
| HParentColumn (value : string)
| HColumnNames (value : loc)
| HColumnValues (value : loc)
| HObject (proto : Prototype) (props : list (string * HVal)).

Abbreviation Store := (list HObj).

(** How a statement can fail to complete: a [throw]; a store that is not
    typed as the TypeScript declarations say (a dangling reference, a
    [text] that is not a string); no fuel left. *)
Inductive Signal : Type :=
| SThrow (e : JSError)
| SStuck
| SOutOfFuel.

(** A statement: from a store to the store it leaves and how it completed. *)
Definition M := Store → Store * option Signal.

Definition ret : M := λ σ, (σ, None).

Definition raise (s : Signal) : M := λ σ, (σ, Some s).

Definition seqM (m1 m2 : M) : M :=
  λ σ, match m1 σ with
       | (σ1, None) => m2 σ1
       | (σ1, Some s) => (σ1, Some s)
       end.

Declare Scope heap_scope.

Notation "m1 ;; m2" := (seqM m1 m2)
  (at level 100, m2 at level 200, right associativity) : heap_scope.

Local Open Scope heap_scope.

(** Read the object of a cell and continue with it. *)
Definition readCell (l : loc) (k : HObj → M) : M :=
  λ σ, match σ !! l with
       | Some o => k o σ
       | None => (σ, Some SStuck)
       end.

Fixpoint forEachM {A} (body : nat → A → M) (i : nat) (xs : list A) : M :=
  match xs with
  | [] => ret
  | x :: rest => body i x ;; forEachM body (S i) rest
  end.

(** [o[k] = v]: the value of an existing key is replaced, a new key comes
    last. *)
Definition setProp (props : list (string * HVal)) (k : string) (v : HVal)
    : list (string * HVal) :=
  match getProp props k with
  | Some _ => map (λ kv : string * HVal, if String.eqb kv.1 k then (kv.1, v) else kv) props
  | None => props ++ [(k, v)]
  end.

(** [result.text += s] *)
Definition appendText (result : loc) (s : string) : M :=
  readCell result (λ o σ,
    match o with
    | HObject proto props =>
        match getProp props "text" with
        | Some (HString t) =>
            (<[result := HObject proto (setProp props "text" (HString (t +:+ s)))]> σ, None)
        | _ => (σ, Some SStuck)
        end
    | _ => (σ, Some SStuck)
    end).

(** [result.values.push(value); result.text += '$' + String(result.values.length);] *)
Definition compileParameter (result : loc) (value : HVal) : M :=
  readCell result (λ o,
    match o with
    | HObject _ props =>
        match getProp props "values" with
        | Some (HRef lv) =>
            readCell lv (λ a σ,
              match a with
              | HArray vs =>
                  appendText result ("$" +:+ stringOfLength (length (vs ++ [value])))
                    (<[lv := HArray (vs ++ [value])]> σ)
              | _ => (σ, Some SStuck)
              end)
        | _ => raise SStuck
        end
    | _ => raise SStuck
    end).

Definition compileSelf (result : loc) (currentColumn : option string) : M :=
  match currentColumn with
  | Some c =>
      if truthy currentColumn then appendText result (quoted c)
      else raise (SThrow selfError)
  | None => raise (SThrow selfError)
  end.

Definition compileParentColumn (value : string) (result : loc)
    (parentTable : option string) : M :=
  match parentTable with
  | Some t =>
      if truthy parentTable
      then appendText result (quoted t +:+ "." +:+ quoted value)
      else raise (SThrow parentError)
  | None => raise (SThrow parentError)
  end.

(** The names of an array of names. *)
Fixpoint namesOf (elements : list HVal) : option (list string) :=
  match elements with
  | [] => Some []
  | HString s :: rest => (λ names, s :: names) <$> namesOf rest
  | _ => None
  end.

Definition compileColumnNames (value : loc) (result : loc) : M :=
  readCell value (λ o,
    match o with
    | HArray elements =>
        match namesOf elements with
        | Some names => appendText result (join ", " (quoted <$> names))
        | None => raise SStuck
        end
    | HObject _ props => appendText result (join ", " (quoted <$> sortedKeys props))
    | _ => raise SStuck
    end).

Definition getValue (props : list (string * HVal)) (k : string) : HVal :=
  default HUndefined (getProp props k).

Definition compileLiterals (compileExpr : HVal → M) (result : loc)
    : list HVal → list string → M :=
  fix loop (expressions : list HVal) (literals : list string) : M :=
    match literals, expressions with
    | [], _ => ret
    | literal :: literals', [] => compileExpr HUndefined
    | literal :: literals', e :: expressions' =>
        compileExpr e ;; appendText result literal ;; loop expressions' literals'
    end.

(** [x instanceof C], for the classes the loops test. *)
Definition isFragment (o : option HObj) : bool :=
  match o with Some (HSQLFragment _ _ _ _) => true | _ => false end.

Definition isParentColumn (o : option HObj) : bool :=
  match o with Some (HParentColumn _) => true | _ => false end.

(** [x === Default] *)
Definition isDefault (v : HVal) : bool :=
  match v with HSymbol SymDefault => true | _ => false end.

Definition cellOf (σ : Store) (v : HVal) : option HObj :=
  match v with
  | HRef l => σ !! l
  | _ => None
  end.

(** Continue with the object a value refers to, for the [instanceof] tests. *)
Definition withCell (v : HVal) (k : option HObj → M) : M :=
  λ σ, k (cellOf σ v) σ.

(** [compileExpression(expression, result, parentTable, currentColumn)] on a
    fragment whose own [parentTable] is [this].  The object that
    [new Parameter(columnValue)] creates for one call is not given a cell. *)
Fixpoint compileExpression (fuel : nat) (this : option string) (expression : HVal)
    (result : loc) (parentTable currentColumn : option string) : M :=
  match fuel with
  | 0 => raise SOutOfFuel
  | S fuel =>
    let parentTable := pinParentTable this parentTable in
    match expression with
    | HString s => appendText result (if startsWithQuote s then s else quoted s)
    | HSymbol SymDefault => appendText result "DEFAULT"
    | HSymbol SymSelf => compileSelf result currentColumn
    | HSymbol _ => raise (SThrow (TypeError "Cannot convert a Symbol value to a string"))
    | HNull => raise (SThrow (TypeError "Cannot convert undefined or null to object"))
    | HUndefined => raise (SThrow (alienError "undefined"))
    | HBoolean b => raise (SThrow (alienError (if b then "true" else "false")))
    | HNumber n => raise (SThrow (alienError (stringOfNumber n)))
    | HFunction source => raise (SThrow (alienError source))
    | HRef l =>
      readCell l (λ o,
        match o with
        | HSQLFragment literals expressions pinned _ =>
            let parentTable := pinParentTable pinned parentTable in
            appendText result (nth 0 literals "undefined") ;;
            compileLiterals
              (λ e, compileExpression fuel pinned e result parentTable currentColumn)
              result expressions (tail literals)
        | HDangerousRawString value => appendText result value
        | HArray elements =>
            forEachM (λ _ e, compileExpression fuel this e result parentTable currentColumn)
              0 elements
        | HParameter value => compileParameter result value
        | HParentColumn value => compileParentColumn value result parentTable
        | HColumnNames value => compileColumnNames value result
        | HColumnValues value =>
            readCell value (λ v,
              match v with
              | HObject _ props =>
                  forEachM (λ i columnName,
                    (if 0 <? i then appendText result ", " else ret) ;;
                    let columnValue := getValue props columnName in
                    withCell columnValue (λ c,
                      if isFragment c || isDefault columnValue
                      then compileExpression fuel this columnValue result parentTable
                             (Some columnName)
                      else compileParameter result columnValue))
                    0 (sortedKeys props)
              | _ => raise SStuck
              end)
        | HObject _ props =>
            let columnNames := sortedKeys props in
            match columnNames with
            | _ :: _ =>
                appendText result "(" ;;
                forEachM (λ i columnName,
                  (if 0 <? i then appendText result " AND " else ret) ;;
                  readCell l (λ o',
                    let columnValue :=
                      match o' with
                      | HObject _ props' => getValue props' columnName
                      | _ => HUndefined
                      end in
                    withCell columnValue (λ c,
                      if isFragment c
                      then (appendText result "(" ;;
                            compileExpression fuel this columnValue result parentTable
                              (Some columnName) ;;
                            appendText result ")")
                      else (appendText result (quoted columnName +:+ " = ") ;;
                            if isParentColumn c
                            then compileExpression fuel this columnValue result
                                   parentTable (Some columnName)
                            else compileParameter result columnValue))))
                  0 columnNames ;;
                appendText result ")"
            | [] => appendText result "TRUE"
            end
        end)
    end
  end.

(** [compile(result, parentTable, currentColumn)] on the fragment in cell
    [this]. *)
Definition compile (fuel : nat) (this : loc) (result : loc)
    (parentTable currentColumn : option string) : M :=
  readCell this (λ o,
    match o with
    | HSQLFragment literals expressions pinned _ =>
        let parentTable := pinParentTable pinned parentTable in
        appendText result (nth 0 literals "undefined") ;;
        compileLiterals
          (λ e, compileExpression fuel pinned e result parentTable currentColumn)
          result expressions (tail literals)
    | _ => raise SStuck
    end).

(** The default argument [{ text: '', values: [] }]: two new cells. *)
Definition newResult (σ : Store) : loc * Store :=
  (S (length σ),
   σ ++ [HArray [];
         HObject ObjectPrototype [("text", HString ""); ("values", HRef (length σ))]]).

(** The text and the values of the accumulator in cell [result]. *)
Definition readResult (σ : Store) (result : loc) : option (string * list HVal) :=
  match σ !! result with
  | Some (HObject _ props) =>
      match getProp props "text", getProp props "values" with
      | Some (HString t), Some (HRef lv) =>
          match σ !! lv with
          | Some (HArray vs) => Some (t, vs)
          | _ => None
          end
      | _, _ => None
      end
  | _ => None
  end.

Definition closedVal (n : nat) (v : HVal) : bool :=
  match v with
  | HRef l => l <? n
  | _ => true
  end.

Definition closedObj (n : nat) (o : HObj) : bool :=
  match o with
  | HArray elements => forallb (closedVal n) elements
  | HSQLFragment _ expressions _ transform =>
      forallb (closedVal n) expressions && closedVal n transform
  | HParameter value => closedVal n value
  | HColumnNames value | HColumnValues value => value <? n
  | HObject _ props => forallb (λ kv : string * HVal, closedVal n kv.2) props
  | HDangerousRawString _ | HParentColumn _ => true
  end.

(** Every reference held by an object of the store points into the store. *)
Definition closedStore (σ : Store) : bool := forallb (closedObj (length σ)) σ.

Definition accumulator (t : string) (lv : loc) : HObj :=
  HObject ObjectPrototype [("text", HString t); ("values", HRef lv)].

(** Two runs over the same objects.  [Sim σ0 ra rb σa σb]: both stores
    hold the objects of [σ0] in the same cells, and beyond them an
    accumulator each, in cells [ra] and [rb], with the same text and the
    same values. *)
Definition Sim (σ0 : Store) (ra rb : loc) (σa σb : Store) : Prop :=
  (∀ l o, σ0 !! l = Some o → σa !! l = Some o ∧ σb !! l = Some o)
  ∧ ∃ t vs lva lvb,
      length σ0 ≤ ra ∧ length σ0 ≤ lva ∧ ra ≠ lva
      ∧ length σ0 ≤ rb ∧ length σ0 ≤ lvb ∧ rb ≠ lvb
      ∧ σa !! ra = Some (accumulator t lva) ∧ σa !! lva = Some (HArray vs)
      ∧ σb !! rb = Some (accumulator t lvb) ∧ σb !! lvb = Some (HArray vs).

(** Two statements that complete alike and keep the stores related. *)
Definition SimM (σ0 : Store) (ra rb : loc) (ma mb : M) : Prop :=
  ∀ σa σb, Sim σ0 ra rb σa σb →
    (ma σa).2 = (mb σb).2 ∧ Sim σ0 ra rb (ma σa).1 (mb σb).1.

(** The store of the example: the object [{ id: 5 }] and the fragment
    [sql`SELECT * FROM ${"users"} WHERE ${{ id: 5 }}`]. *)
Definition exampleStore : Store :=
  [HObject ObjectPrototype [("id", HNumber 5)];
   HSQLFragment ["SELECT * FROM "; " WHERE "; ""] [HString "users"; HRef 0] None
     (HFunction "(qr) => qr.rows")].

End Heap.

(** ** Placeholders of a query text

    A placeholder of a text is a dollar sign followed by a maximal run of
    decimal digits; [placeholders] lists their numbers in order of
    appearance. *)

Definition digitValue (c : ascii) : option nat :=
  let n := nat_of_ascii c in
  if (48 <=? n) && (n <=? 57) then Some (n - 48) else None.

Inductive ScanState : Type :=
| Outside
| Dollar
| Digits (n : nat).

Definition flush (st : ScanState) : list nat :=
  match st with
  | Digits n => [n]
  | _ => []
  end.

Definition scanStep (st : ScanState) (c : ascii) : list nat * ScanState :=
  match digitValue c with
  | Some d =>
      match st with
      | Outside => ([], Outside)
      | Dollar => ([], Digits d)
      | Digits n => ([], Digits (10 * n + d))
      end
  | None => (flush st, if Ascii.eqb c "$" then Dollar else Outside)
  end.

Fixpoint scan (st : ScanState) (s : string) : list nat * ScanState :=
  match s with
  | EmptyString => ([], st)
  | String c s' =>
      let (out, st') := scanStep st c in
      let (out', st'') := scan st' s' in
      (out ++ out', st'')
  end.

Definition placeholders (s : string) : list nat :=
  let (out, st) := scan Outside s in out ++ flush st.

Fixpoint noDollar (s : string) : bool :=
  match s with
  | EmptyString => true
  | String c s' => negb (Ascii.eqb c "$") && noDollar s'
  end.

Definition noLeadingDigit (s : string) : bool :=
  match s with
  | EmptyString => true
  | String c _ => match digitValue c with Some _ => false | None => true end
  end.

(** A string that can follow any text without changing its placeholders. *)
Definition verbatim (s : string) : bool := noDollar s && noLeadingDigit s.

(** ** The parameters an expression contributes

    [parameterValues e] lists, in order of compilation, the values that the
    expansion of [e] binds: the value of every [Parameter], and every value
    of a [ColumnValues] or [Whereable] object that is wrapped in a
    [Parameter]; nested fragments and arrays contribute what their
    expressions contribute; nothing else contributes. *)

Fixpoint literalParameters (parametersOf : JSVal → list JSVal)
    (expressions : list JSVal) (literals : list string) {struct expressions}
    : list JSVal :=
  match literals, expressions with
  | _ :: literals', e :: expressions' =>
      parametersOf e ++ literalParameters parametersOf expressions' literals'
  | _, _ => []
  end.

Fixpoint parameterValues (expression : JSVal) : list JSVal :=
  match expression with
  | JParameter value => [value]
  | JSQLFragment literals expressions _ =>
      literalParameters parameterValues expressions (tail literals)
  | JArray elements => flat_map parameterValues elements
  | JColumnValues value =>
      let contributions :=
        map (λ kv : string * JSVal,
               let (k, columnValue) := kv in
               (k, match columnValue with
                   | JSQLFragment _ _ _ => parameterValues columnValue
                   | JSymbol SymDefault => []
                   | _ => [columnValue]
                   end)) value in
      flat_map (actionFor [JUndefined] contributions) (sortedKeys value)
  | JObject _ props =>
      let contributions :=
        map (λ kv : string * JSVal,
               let (k, columnValue) := kv in
               (k, match columnValue with
                   | JSQLFragment _ _ _ => parameterValues columnValue
                   | JParentColumn _ => []
                   | _ => [columnValue]
                   end)) props in
      flat_map (actionFor [JUndefined] contributions) (sortedKeys props)
  | _ => []
  end.

Definition columnValueParameters (columnValue : JSVal) : list JSVal :=
  match columnValue with
  | JSQLFragment _ _ _ => parameterValues columnValue
  | JSymbol SymDefault => []
  | _ => [columnValue]
  end.

Definition whereValueParameters (columnValue : JSVal) : list JSVal :=
  match columnValue with
  | JSQLFragment _ _ _ => parameterValues columnValue
  | JParentColumn _ => []
  | _ => [columnValue]
  end.

(** ** Text that carries no placeholder of its own

    The strings a value makes the compiler copy into the text: literals and
    raw strings as they are, names between double quotes. *)

Definition cleanName (name : option string) : bool :=
  match name with
  | Some s => noDollar s
  | None => true
  end.

Fixpoint clean (expression : JSVal) : bool :=
  match expression with
  | JSQLFragment literals expressions pinned =>
      forallb verbatim literals && forallb clean expressions && cleanName pinned
  | JString s => noDollar s
  | JDangerousRawString value => verbatim value
  | JArray elements => forallb clean elements
  | JParentColumn value => noDollar value
  | JColumnNames value => forallb noDollar (columnNamesOf value)
  | JColumnValues value =>
      forallb (λ kv : string * JSVal,
                 let (k, columnValue) := kv in
                 noDollar k &&
                 match columnValue with
                 | JSQLFragment _ _ _ => clean columnValue
                 | _ => true
                 end) value
  | JObject _ props =>
      forallb (λ kv : string * JSVal,
                 let (k, columnValue) := kv in
                 noDollar k &&
                 match columnValue with
                 | JSQLFragment _ _ _ => clean columnValue
                 | JParentColumn value => noDollar value
                 | _ => true
                 end) props
  | _ => true
  end.

(** [Adds vs r r']: from [r] to [r'] the values [vs] were pushed, and the
    text gained exactly their placeholders, numbered by their positions. *)
Definition Adds (vs : list JSVal) (r r' : SQLResultType) : Prop :=
  values r' = values r ++ vs ∧
  placeholders (text r') = placeholders (text r) ++ seq (S (length (values r))) (length vs).

(** ** The words of the specification *)

(** One conjunct, in the words of the specification: a nested fragment is
    compiled between parentheses; a parent column reference gives
    [key = parentTable.col], each of the three names between two
    double-quote characters; any other value is pushed to [values] and
    gives [key = $n], the key between two double-quote characters.  The
    double-quote character is written out: it is the character of code 34,
    ["034"] in decimal. *)
Definition conjunct (this : option string) (key : string) (columnValue : JSVal)
    (result : SQLResultType) (parentTable : option string) : Completion :=
  match columnValue with
  | JSQLFragment literals expressions pinned =>
      compile (mkSQLFragment literals expressions pinned) (appendText result "(")
        (pinParentTable this parentTable) (Some key)
      >>> λ result, Return (appendText result ")")
  | JParentColumn col =>
      match pinParentTable this parentTable with
      | Some table =>
          if truthy (Some table)
          then Return
                 (appendText result
                    (String "034" (key +:+ String "034" (" = " +:+
                     String "034" (table +:+ String "034" ("." +:+
                     String "034" (col +:+ String "034" EmptyString)))))))
          else Throw parentError
                 (appendText result (String "034" (key +:+ String "034" " = ")))
      | None =>
          Throw parentError
            (appendText result (String "034" (key +:+ String "034" " = ")))
      end
  | _ =>
      Return {| text := text result +:+
                        String "034" (key +:+ String "034" (" = $" +:+
                        stringOfLength (S (length (values result)))));
                values := values result ++ [columnValue] |}
  end.

(** One column value, in the words of the specification: a nested fragment
    or the default marker is compiled directly, any other value is pushed
    to [values] and gives its placeholder. *)
Definition columnValue (this : option string) (key : string) (value : JSVal)
    (result : SQLResultType) (parentTable : option string) : Completion :=
  match value with
  | JSQLFragment literals expressions pinned =>
      compile (mkSQLFragment literals expressions pinned) result
        (pinParentTable this parentTable) (Some key)
  | JSymbol SymDefault => Return (appendText result "DEFAULT")
  | _ =>
      Return {| text := text result +:+ "$"
                        +:+ stringOfLength (S (length (values result)));
                values := values result ++ [value] |}
  end.

(** The two errors the specification calls ContextError. *)
Definition isContextError (e : JSError) : Prop := e = selfError ∨ e = parentError.

(** ** Examples *)

(** The fragment of the scenario of the specification, and one with a
    mapping, a column list and a nested fragment. *)
Definition selectUsers : SQLFragment :=
  sql ["SELECT * FROM "; " WHERE "; ""]
      [JString "users"; JObject ObjectPrototype [("id", JNumber 5)]].

Definition insertBook : SQLFragment :=
  sql ["INSERT INTO "; " ("; ") VALUES ("; ") RETURNING "; ""]
      [JString "books";
       JColumnNames (inr [("title", JString "Emma"); ("authorId", JNumber 7)]);
       JColumnValues [("title", JString "Emma"); ("authorId", JNumber 7)];
       JArray [JParameter (JNumber 1); JDangerousRawString "::int AS one"]].

Definition mappingAB : JSVal :=
  JObject ObjectPrototype [("a", JNumber 1); ("b", JNumber 2)].

Definition mappingBA : JSVal :=
  JObject ObjectPrototype [("b", JNumber 2); ("a", JNumber 1)].

Definition updatableBA : list (string * JSVal) := [("b", JNumber 2); ("a", JNumber 1)].

(** ** Unfolding a store into trees *)

Unset Elimination Schemes.

(** [Repr σ v t]: in the store [σ], the value [v] unfolds into the tree
    [t]. *)
Inductive Repr (σ : list Heap.HObj) : Heap.HVal → JSVal → Prop :=
| Repr_undefined : Repr σ Heap.HUndefined JUndefined
| Repr_null : Repr σ Heap.HNull JNull
| Repr_boolean b : Repr σ (Heap.HBoolean b) (JBoolean b)
| Repr_number n : Repr σ (Heap.HNumber n) (JNumber n)
| Repr_string s : Repr σ (Heap.HString s) (JString s)
| Repr_symbol y : Repr σ (Heap.HSymbol y) (JSymbol y)
| Repr_function source : Repr σ (Heap.HFunction source) (JFunction source)
| Repr_array l es ts :
    σ !! l = Some (Heap.HArray es) → Forall2 (Repr σ) es ts →
    Repr σ (Heap.HRef l) (JArray ts)
| Repr_fragment l literals es pinned transform ts :
    σ !! l = Some (Heap.HSQLFragment literals es pinned transform) →
    Forall2 (Repr σ) es ts →
    Repr σ (Heap.HRef l) (JSQLFragment literals ts pinned)
| Repr_parameter l v t :
    σ !! l = Some (Heap.HParameter v) → Repr σ v t →
    Repr σ (Heap.HRef l) (JParameter t)
| Repr_raw l value :
    σ !! l = Some (Heap.HDangerousRawString value) →
    Repr σ (Heap.HRef l) (JDangerousRawString value)
| Repr_parent l value :
    σ !! l = Some (Heap.HParentColumn value) →
    Repr σ (Heap.HRef l) (JParentColumn value)
| Repr_names_array l l' es names :
    σ !! l = Some (Heap.HColumnNames l') → σ !! l' = Some (Heap.HArray es) →
    Heap.namesOf es = Some names →
    Repr σ (Heap.HRef l) (JColumnNames (inl names))
| Repr_names_object l l' proto props tprops :
    σ !! l = Some (Heap.HColumnNames l') → σ !! l' = Some (Heap.HObject proto props) →
    Forall2 (λ kv kt, kv.1 = kt.1 ∧ Repr σ kv.2 kt.2) props tprops →
    Repr σ (Heap.HRef l) (JColumnNames (inr tprops))
| Repr_values l l' proto props tprops :
    σ !! l = Some (Heap.HColumnValues l') → σ !! l' = Some (Heap.HObject proto props) →
    Forall2 (λ kv kt, kv.1 = kt.1 ∧ Repr σ kv.2 kt.2) props tprops →
    Repr σ (Heap.HRef l) (JColumnValues tprops)
| Repr_object l proto props tprops :
    σ !! l = Some (Heap.HObject proto props) →
    Forall2 (λ kv kt, kv.1 = kt.1 ∧ Repr σ kv.2 kt.2) props tprops →
    Repr σ (Heap.HRef l) (JObject proto tprops).

Set Elimination Schemes.

(** The fuel that compiling a tree takes. *)
Fixpoint depth (t : JSVal) : nat :=
  match t with
  | JArray elements => S (foldr (λ e d, depth e `max` d) 1 elements)
  | JSQLFragment _ expressions _ => S (foldr (λ e d, depth e `max` d) 1 expressions)
  | JColumnValues value =>
      S (foldr (λ (kv : string * JSVal) d, (let (_, v) := kv in depth v) `max` d) 1 value)
  | JObject _ props =>
      S (foldr (λ (kv : string * JSVal) d, (let (_, v) := kv in depth v) `max` d) 1 props)
  | _ => 1
  end.

(** [AccRel σ0 r σ res]: the store [σ] holds the objects of [σ0] and,
    beyond them, in cell [r], an accumulator with the text of [res] and
    values that unfold into the values of [res]. *)
Definition AccRel (σ0 : list Heap.HObj) (r : nat) (σ : list Heap.HObj)
    (res : SQLResultType) : Prop :=
  (∀ l o, σ0 !! l = Some o → σ !! l = Some o)
  ∧ ∃ lv vs,
      length σ0 ≤ r ∧ length σ0 ≤ lv ∧ r ≠ lv
      ∧ σ !! r = Some (Heap.accumulator (text res) lv)
      ∧ σ !! lv = Some (Heap.HArray vs)
      ∧ Forall2 (Repr σ0) vs (values res).

(** The statement over the store does what the function over trees does. *)
Definition Refines (σ0 : list Heap.HObj) (r : nat) (hm : Heap.M)
    (tm : SQLResultType → Completion) : Prop :=
  ∀ σ res, AccRel σ0 r σ res →
    match tm res with
    | Return res' => (hm σ).2 = None ∧ AccRel σ0 r (hm σ).1 res'
    | Throw e res' => (hm σ).2 = Some (Heap.SThrow e) ∧ AccRel σ0 r (hm σ).1 res'
    end.

(** ** The wrappers and further notions

    The shortcut functions of the module, and the notions the further
    properties are stated with. *)

(** [param(x)], [raw(x)], [cols(x)], [vals(x)] and [parent(x)]: each returns
    a new instance of its wrapper class around [x]. *)
Definition param (x : JSVal) : JSVal := JParameter x.

Definition raw (x : string) : JSVal := JDangerousRawString x.

Definition cols (x : list string + list (string * JSVal)) : JSVal := JColumnNames x.

Definition vals (x : list (string * JSVal)) : JSVal := JColumnValues x.

Definition parent (x : string) : JSVal := JParentColumn x.

(** The accumulator as a completion leaves it. *)
Definition resultOf (c : Completion) : SQLResultType :=
  match c with
  | Return result => result
  | Throw _ result => result
  end.

(** [Grows vs r c]: the compilation that started from [r] and completed as
    [c] only added text at the end of the text of [r]; it pushed [vs] when
    it returned, and the first few of [vs] when it threw. *)
Definition Grows (vs : list JSVal) (r : SQLResultType) (c : Completion) : Prop :=
  (∃ s, text (resultOf c) = text r +:+ s) ∧
  match c with
  | Return r' => values r' = values r ++ vs
  | Throw _ r' => ∃ vs', vs' `prefix_of` vs ∧ values r' = values r ++ vs'
  end.

(** The expressions the loop of [compile] reaches: one before every literal
    after the first, a missing one being [undefined]. *)
Fixpoint reachesLiterals (reachesExpr : JSVal → bool) (missing : bool)
    (expressions : list JSVal) (literals : list string) {struct expressions} : bool :=
  match literals, expressions with
  | [], _ => false
  | _ :: _, [] => missing
  | _ :: literals', e :: expressions' =>
      reachesExpr e || reachesLiterals reachesExpr missing expressions' literals'
  end.

(** [reaches p e]: [p] holds of [e] or of an expression that
    [compileExpression] is called on, directly or not, while it compiles
    [e]: an element of an array, an expression of a fragment, a fragment or
    [Default] among column values, a fragment or a parent column among the
    values of a mapping.  Any other value of an object is wrapped in a
    [Parameter] and is not looked into. *)
Fixpoint reaches (p : JSVal → bool) (expression : JSVal) : bool :=
  p expression ||
  match expression with
  | JSQLFragment literals expressions _ =>
      reachesLiterals (reaches p) (p JUndefined) expressions (tail literals)
  | JArray elements => existsb (reaches p) elements
  | JColumnValues value =>
      existsb (λ kv : string * JSVal,
                 let (k, columnValue) := kv in
                 match columnValue with
                 | JSQLFragment _ _ _ | JSymbol SymDefault => reaches p columnValue
                 | _ => false
                 end) value
  | JObject _ props =>
      existsb (λ kv : string * JSVal,
                 let (k, columnValue) := kv in
                 match columnValue with
                 | JSQLFragment _ _ _ | JParentColumn _ => reaches p columnValue
                 | _ => false
                 end) props
  | _ => false
  end.

Definition isSelf (expression : JSVal) : bool :=
  match expression with
  | JSymbol SymSelf => true
  | _ => false
  end.

Definition isParent (expression : JSVal) : bool :=
  match expression with
  | JParentColumn _ => true
  | _ => false
  end.

(** The values no branch of [compileExpression] takes. *)
Definition isAlien (expression : JSVal) : bool :=
  match expression with
  | JUndefined | JNull | JBoolean _ | JNumber _ | JFunction _ => true
  | JSymbol SymAll | JSymbol (SymOther _) => true
  | _ => false
  end.

(** The errors of the last branch: the alien object error, or the
    [TypeError] of the conversion to a string or to an object that comes
    before it. *)
Definition isRejection (e : JSError) : Prop :=
  (∃ description, e = alienError description) ∨ (∃ message, e = TypeError message).

(** A value of a [ColumnValues] object that is bound as a parameter. *)
Definition plainColumnValue (columnValue : JSVal) : bool :=
  match columnValue with
  | JSQLFragment _ _ _ | JSymbol SymDefault => false
  | _ => true
  end.

(** A value of a mapping that is bound as a parameter. *)
Definition plainWhereValue (columnValue : JSVal) : bool :=
  match columnValue with
  | JSQLFragment _ _ _ | JParentColumn _ => false
  | _ => true
  end.

(** One placeholder for each name, numbered from [n + 1], each behind what
    [item] gives for its name. *)
Fixpoint numbered (item : string → string) (n : nat) (names : list string)
    : list string :=
  match names with
  | [] => []
  | k :: rest => (item k +:+ "$" +:+ stringOfLength (S n)) :: numbered item (S n) rest
  end.

Definition isQueryCall (e : Effect) : bool :=
  match e with
  | QueryCall _ => true
  | ConsoleLog _ => false
  end.

(** [Blames e expression]: the error [e] has its cause among the
    expressions that compiling [expression] reaches: the [self] alias for
    the first context error, a parent column for the second, a value that no
    branch takes for an error of the last branch. *)
Definition Blames (e : JSError) (expression : JSVal) : Prop :=
  (e = selfError ∧ reaches isSelf expression = true) ∨
  (e = parentError ∧ reaches isParent expression = true) ∨
  (isRejection e ∧ reaches isAlien expression = true).

(** An array that uses [self] once under a key and once outside of any
    object. *)
Definition selfInAndOut : JSVal :=
  JArray [param (JNumber 1);
          vals [("a", fragmentValue (sql ["lower("; ")"] [JSymbol SymSelf]))];
          JSymbol SymSelf].

(** [blankValues e]: [e] with [null] for every value that compiling it
    binds: the value of every [Parameter] it reaches, and every value of a
    [ColumnValues] or [Whereable] object that is wrapped in a [Parameter]. *)
Fixpoint blankValues (expression : JSVal) : JSVal :=
  match expression with
  | JParameter _ => JParameter JNull
  | JSQLFragment literals expressions pinned =>
      JSQLFragment literals (map blankValues expressions) pinned
  | JArray elements => JArray (map blankValues elements)
  | JColumnValues value =>
      JColumnValues
        (map (λ kv : string * JSVal,
                let (k, columnValue) := kv in
                (k, match columnValue with
                    | JSQLFragment _ _ _ => blankValues columnValue
                    | JSymbol SymDefault => columnValue
                    | _ => JNull
                    end)) value)
  | JObject proto props =>
      JObject proto
        (map (λ kv : string * JSVal,
                let (k, columnValue) := kv in
                (k, match columnValue with
                    | JSQLFragment _ _ _ => blankValues columnValue
                    | JParentColumn _ => columnValue
                    | _ => JNull
                    end)) props)
  | _ => expression
  end.

(** Two accumulators with the same text and as many values. *)
Definition sameText (r r' : SQLResultType) : Prop :=
  text r = text r' ∧ length (values r) = length (values r').

(** Two completions of the same kind, with the same error if they threw,
    that left the same text and as many values. *)
Definition sameOutcome (c c' : Completion) : Prop :=
  match c, c' with
  | Return r, Return r' => sameText r r'
  | Throw e r, Throw e' r' => e = e' ∧ sameText r r'
  | _, _ => False
  end.

(** ** The generator: configuration and table rules

    [finaliseConfig] of [generate/config.ts], and from [tsForConfig] of
    [generate/tsOutput.ts] the tables it generates types for.  The rest of
    [tsForConfig] reads the database and the file system through modules
    that are not among the sources at hand. *)

Module Generate.

(** [const defaultConfig: OptionalConfig] *)
Definition defaultConfig : list (string * JSVal) :=
  [("outDir", JString ".");
   ("srcMode", JString "copy");
   ("schemas",
    JObject ObjectPrototype
      [("public", JObject ObjectPrototype
                    [("include", JString "*"); ("exclude", JArray [])])]);
   ("progressListener", JBoolean false);
   ("warningListener", JBoolean true);
   ("customTypesTransform", JString "PgMy_type")].

(** [!v]: [undefined], [null], [false], [0], [NaN] and [''] are falsy. *)
Definition falsy (v : JSVal) : bool :=
  match v with
  | JUndefined | JNull => true
  | JBoolean b => negb b
  | JNumber (Integer z) => Z.eqb z 0
  | JNumber (OtherNumber conversion) => String.eqb conversion "NaN"
  | JString s => String.eqb s ""
  | _ => false
  end.

(** [Object.keys(v).length], and [None] where [Object.keys] throws, which
    it does for [undefined] and [null].  A string has its indices for keys
    and so has an array; an instance of a wrapper class has its [value], a
    fragment its four fields; the other primitives and a function have no
    own enumerable property. *)
Definition keyCount (v : JSVal) : option nat :=
  match v with
  | JUndefined | JNull => None
  | JBoolean _ | JNumber _ | JSymbol _ | JFunction _ => Some 0
  | JString s => Some (String.length s)
  | JArray elements => Some (length elements)
  | JSQLFragment _ _ _ => Some 4
  | JParameter _ | JDangerousRawString _ | JParentColumn _
  | JColumnNames _ | JColumnValues _ => Some 1
  | JObject _ props => Some (length (objectKeys props))
  end.

Definition noConnectionDetails : JSError :=
  Error "Zapatos needs database connection details".

(** [finaliseConfig(config)]: the object spread
    [{ ...defaultConfig, ...config }] assigns the properties of
    [defaultConfig] and then those of [config]. *)
Definition finaliseConfig (config : list (string * JSVal))
    : JSError + list (string * JSVal) :=
  let finalConfig := defaultConfig ++ config in
  let db := getValue finalConfig "db" in
  if falsy db then inl noConnectionDetails
  else
    match keyCount db with
    | Some n => if n <? 1 then inl noConnectionDetails else inr finalConfig
    | None => inl (TypeError "Cannot convert undefined or null to object")
    end.

(** ['*' | string[]], the type of [include] and of [exclude] in
    [SchemaRules]. *)
Inductive TableRule : Type :=
| Star
| Names (tables : list string).

(** [xs.indexOf(x)] *)
Fixpoint indexOfFrom (i : Z) (xs : list string) (x : string) : Z :=
  match xs with
  | [] => (-1)%Z
  | y :: rest => if String.eqb y x then i else indexOfFrom (i + 1)%Z rest x
  end.

Definition indexOf (xs : list string) (x : string) : Z := indexOfFrom 0 xs x.

(** The tables of one schema in [tsForConfig],
    [rules.exclude === '*' ? [] :
       (rules.include === '*' ? await tablesInSchema(schema, pool) : rules.include)
         .filter(table => rules.exclude.indexOf(table) < 0)],
    given the tables that [tablesInSchema] finds in the database. *)
Definition tables (include exclude : TableRule) (tablesInSchema : list string)
    : list string :=
  match exclude with
  | Star => []
  | Names excluded =>
      List.filter (λ table, (indexOf excluded table <? 0)%Z)
        match include with
        | Star => tablesInSchema
        | Names included => included
        end
  end.

(** [allTables = ([] as string[]).concat(...schemaTables).sort()] *)
Definition allTables (schemaTables : list (list string)) : list string :=
  sortStrings (concat schemaTables).

(** [hasTables = allTables.length > 0] *)
Definition hasTables (schemaTables : list (list string)) : bool :=
  0 <? length (allTables schemaTables).

End Generate.

(** * Lemmas and theorems *)

(** ** Induction on values *)

Section JSVal_induction.
Variable P : JSVal → Prop.
Hypothesis Hundefined : P JUndefined.
Hypothesis Hnull : P JNull.
Hypothesis Hboolean : ∀ b, P (JBoolean b).
Hypothesis Hnumber : ∀ n, P (JNumber n).
Hypothesis Hstring : ∀ s, P (JString s).
Hypothesis Hsymbol : ∀ y, P (JSymbol y).
Hypothesis Hfunction : ∀ source, P (JFunction source).
Hypothesis Harray : ∀ elements, Forall P elements → P (JArray elements).
Hypothesis Hfragment : ∀ literals expressions pinned,
  Forall P expressions → P (JSQLFragment literals expressions pinned).
Hypothesis Hparameter : ∀ value, P value → P (JParameter value).
Hypothesis Hraw : ∀ value, P (JDangerousRawString value).
Hypothesis Hparent : ∀ value, P (JParentColumn value).
Hypothesis Hnames : ∀ value,
  match value with
  | inl _ => True
  | inr props => Forall (λ kv, P kv.2) props
  end → P (JColumnNames value).
Hypothesis Hvalues : ∀ value,
  Forall (λ kv, P kv.2) value → P (JColumnValues value).
Hypothesis Hobject : ∀ proto props,
  Forall (λ kv, P kv.2) props → P (JObject proto props).

Fixpoint JSVal_ind (v : JSVal) : P v :=
  let all :=
    fix all (vs : list JSVal) : Forall P vs :=
      match vs with
      | [] => @List.Forall_nil _ P
      | v :: vs' => @List.Forall_cons _ P v vs' (JSVal_ind v) (all vs')
      end in
  let allProps :=
    fix allProps (kvs : list (string * JSVal)) : Forall (λ kv, P kv.2) kvs :=
      match kvs with
      | [] => @List.Forall_nil _ (λ kv, P kv.2)
      | (k, v) :: kvs' =>
          @List.Forall_cons _ (λ kv, P kv.2) (k, v) kvs' (JSVal_ind v) (allProps kvs')
      end in
  match v with
  | JUndefined => Hundefined
  | JNull => Hnull
  | JBoolean b => Hboolean b
  | JNumber n => Hnumber n
  | JString s => Hstring s
  | JSymbol y => Hsymbol y
  | JFunction source => Hfunction source
  | JArray elements => Harray elements (all elements)
  | JSQLFragment literals expressions pinned =>
      Hfragment literals expressions pinned (all expressions)
  | JParameter value => Hparameter value (JSVal_ind value)
  | JDangerousRawString value => Hraw value
  | JParentColumn value => Hparent value
  | JColumnNames value =>
      Hnames value
        match value with
        | inl _ => I
        | inr props => allProps props
        end
  | JColumnValues value => Hvalues value (allProps value)
  | JObject proto props => Hobject proto props (allProps props)
  end.
End JSVal_induction.

(** ** Strings in code-unit order *)

Lemma sortStrings_sorted keys : StronglySorted String.le (sortStrings keys).
Proof. apply (StronglySorted_merge_sort String.le). Qed.

Lemma sortStrings_perm keys : sortStrings keys ≡ₚ keys.
Proof. apply merge_sort_Permutation. Qed.

Lemma sortStrings_unique keys1 keys2 :
  keys1 ≡ₚ keys2 → sortStrings keys1 = sortStrings keys2.
Proof.
  intros Hp. apply (StronglySorted_unique String.le); try apply sortStrings_sorted.
  by rewrite !sortStrings_perm.
Qed.

Lemma append_nil_l t : "" +:+ t = t.
Proof. done. Qed.

Lemma append_cons c s t : String c s +:+ t = String c (s +:+ t).
Proof. done. Qed.

Lemma append_nil_r s : s +:+ "" = s.
Proof. induction s as [|c s IH]; [done|]. by rewrite append_cons, IH. Qed.

Lemma append_assoc s t u : (s +:+ t) +:+ u = s +:+ t +:+ u.
Proof. induction s as [|c s IH]; [done|]. by rewrite !append_cons, IH. Qed.

(** ** Properties and sorted keys of an object *)

Lemma getProp_Some_elem {A} (props : list (string * A)) k v :
  getProp props k = Some v → (k, v) ∈ props.
Proof.
  induction props as [|[k' v'] rest IH]; simpl; [done|].
  destruct (getProp rest k) as [w|].
  - intros [= ->]. right. by apply IH.
  - destruct (String.eqb_spec k' k) as [->|]; [|done]. intros [= ->]. left.
Qed.

Lemma getProp_is_Some {A} (props : list (string * A)) k :
  is_Some (getProp props k) ↔ k ∈ props.*1.
Proof.
  induction props as [|[k' v'] rest IH]; simpl.
  - split; [by intros [? ?]|by intros ?%elem_of_nil].
  - rewrite elem_of_cons, <- IH. destruct (getProp rest k) as [w|].
    + split; [right|]; eauto.
    + destruct (String.eqb_spec k' k) as [->|Hne].
      * split; eauto.
      * split; [by intros [? ?]|]. intros [->|[? ?]]; done.
Qed.

Lemma getProp_map {A B} (f : string → A → B) (props : list (string * A)) k :
  getProp (map (λ kv : string * A, let (k', v) := kv in (k', f k' v)) props) k
  = f k <$> getProp props k.
Proof.
  induction props as [|[k' v'] rest IH]; simpl; [done|].
  rewrite IH. destruct (getProp rest k); simpl; [done|].
  by destruct (String.eqb_spec k' k) as [->|].
Qed.

Lemma elem_of_objectKeys {A} (props : list (string * A)) k :
  k ∈ objectKeys props ↔ is_Some (getProp props k).
Proof. unfold objectKeys. by rewrite elem_of_remove_dups, getProp_is_Some. Qed.

Lemma elem_of_sortedKeys {A} (props : list (string * A)) k :
  k ∈ sortedKeys props ↔ is_Some (getProp props k).
Proof.
  unfold sortedKeys. by rewrite sortStrings_perm, elem_of_objectKeys.
Qed.

Lemma sortedKeys_NoDup {A} (props : list (string * A)) : NoDup (sortedKeys props).
Proof.
  unfold sortedKeys, objectKeys. rewrite sortStrings_perm. apply NoDup_remove_dups.
Qed.

Lemma sortedKeys_sorted {A} (props : list (string * A)) :
  StronglySorted String.le (sortedKeys props).
Proof. apply sortStrings_sorted. Qed.

(** Two objects with the same key set have the same sorted keys, whatever
    the order in which their properties were assigned. *)
Lemma sortedKeys_same_keys {A B} (props1 : list (string * A)) (props2 : list (string * B)) :
  (∀ k, is_Some (getProp props1 k) ↔ is_Some (getProp props2 k)) →
  sortedKeys props1 = sortedKeys props2.
Proof.
  intros Hkeys. apply sortStrings_unique, NoDup_Permutation.
  - apply NoDup_remove_dups.
  - apply NoDup_remove_dups.
  - intros k. by rewrite !elem_of_objectKeys.
Qed.

Lemma sortedKeys_nil_inv {A} (props : list (string * A)) :
  sortedKeys props = [] → props = [].
Proof.
  intros Hs. destruct props as [|[k v] rest]; [done|].
  assert (k ∈ sortedKeys ((k, v) :: rest)) as Hin.
  { apply elem_of_sortedKeys, getProp_is_Some. simpl. left. }
  rewrite Hs in Hin. by apply elem_of_nil in Hin.
Qed.

(** ** The loops of the source *)

Lemma forEach_ext {A} (f g : nat → A → SQLResultType → Completion) i xs result :
  (∀ j x r, x ∈ xs → f j x r = g j x r) →
  forEach f i xs result = forEach g i xs result.
Proof.
  revert i result. induction xs as [|x xs IH]; intros i result Hfg; simpl; [done|].
  rewrite Hfg by left. destruct (g i x result); simpl; [|done].
  apply IH. intros. apply Hfg. by right.
Qed.

Lemma pinParentTable_idemp this parentTable :
  pinParentTable this (pinParentTable this parentTable) = pinParentTable this parentTable.
Proof. unfold pinParentTable. by destruct (truthy this). Qed.

Lemma compileExpression_pinned this expression result parentTable currentColumn :
  compileExpression this expression result (pinParentTable this parentTable) currentColumn
  = compileExpression this expression result parentTable currentColumn.
Proof. destruct expression; simpl; by rewrite ?pinParentTable_idemp. Qed.

Lemma compileExpression_ColumnValues this value result parentTable currentColumn :
  compileExpression this (JColumnValues value) result parentTable currentColumn
  = forEach (λ i columnName result,
               let result := if 0 <? i then appendText result ", " else result in
               compileColumnValue this (getValue value columnName) result
                 (pinParentTable this parentTable) columnName)
            0 (sortedKeys value) result.
Proof.
  simpl. apply forEach_ext. intros j k r _.
  unfold actionFor, getValue. rewrite (getProp_map (λ _ columnValue, _)).
  destruct (getProp value k) as [v|]; simpl; [|done].
  unfold compileColumnValue.
  destruct v as [| | | | |[]| | | | | | | | |]; simpl; by rewrite ?pinParentTable_idemp.
Qed.

Lemma compileExpression_Whereable this proto props result parentTable currentColumn :
  compileExpression this (JObject proto props) result parentTable currentColumn
  = match sortedKeys props with
    | _ :: _ =>
        forEach (λ i columnName result,
                   let result := if 0 <? i then appendText result " AND " else result in
                   compileWhereValue this (getValue props columnName) result
                     (pinParentTable this parentTable) columnName)
                0 (sortedKeys props) (appendText result "(")
        >>> λ result, Return (appendText result ")")
    | [] => Return (appendText result "TRUE")
    end.
Proof.
  simpl. destruct (sortedKeys props) as [|k0 ks] eqn:Hks; [done|].
  f_equal. apply forEach_ext. intros j k r _.
  unfold actionFor, getValue. rewrite (getProp_map (λ _ columnValue, _)).
  destruct (getProp props k) as [v|] eqn:Hv; simpl; [|done].
  unfold compileWhereValue.
  destruct v; simpl; by rewrite ?pinParentTable_idemp.
Qed.

Lemma drop_nth_nil {A} (xs : list A) i d : drop i xs = [] → nth i xs d = d.
Proof.
  revert i. induction xs as [|x xs IH]; intros [|i]; simpl; try done. apply IH.
Qed.

Lemma drop_nth_cons {A} (xs : list A) i d x rest :
  drop i xs = x :: rest → nth i xs d = x ∧ drop (S i) xs = rest.
Proof.
  revert i. induction xs as [|x' xs IH]; intros [|i]; simpl; try done.
  - intros [= -> ->]. split; [done|]. by rewrite drop_0.
  - apply IH.
Qed.

(** A nested fragment is compiled by its own [compile]. *)
Lemma compileLiterals_forEach compileExpr expressions literals i result :
  compileExpr JUndefined = throwAlien "undefined" →
  compileLiterals compileExpr (drop i expressions) literals result
  = forEach (λ j literal result,
               compileExpr (nth j expressions JUndefined) result
               >>> λ result, Return (appendText result literal)) i literals result.
Proof.
  intros Hundef. revert i result.
  induction literals as [|lit lits IH]; intros i result.
  - by destruct (drop i expressions).
  - destruct (drop i expressions) as [|e rest] eqn:Hd; simpl.
    + by rewrite (drop_nth_nil _ _ _ Hd), Hundef.
    + destruct (drop_nth_cons _ _ JUndefined _ _ Hd) as [-> <-].
      destruct (compileExpr e result); simpl; [|done]. apply IH.
Qed.

(** A nested fragment is compiled by its own [compile]. *)
Lemma compileExpression_fragment this literals expressions pinned result parentTable
    currentColumn :
  compileExpression this (JSQLFragment literals expressions pinned) result parentTable
    currentColumn
  = compile (mkSQLFragment literals expressions pinned) result
      (pinParentTable this parentTable) currentColumn.
Proof.
  unfold compile. simpl.
  by rewrite <- (compileLiterals_forEach
    (λ e r, compileExpression pinned e r _ currentColumn) expressions).
Qed.

Lemma compileExpression_array this elements result parentTable currentColumn :
  compileExpression this (JArray elements) result parentTable currentColumn
  = forEach (λ _ e result,
               compileExpression this e result (pinParentTable this parentTable)
                 currentColumn)
            0 elements result.
Proof. done. Qed.

(** The expression under [new Parameter(...)] and the leaves, as the source
    dispatches them. *)
Lemma compileExpression_Parameter this value result parentTable currentColumn :
  compileExpression this (JParameter value) result parentTable currentColumn
  = Return {| text := text result +:+ "$" +:+ stringOfLength (S (length (values result)));
              values := values result ++ [value] |}.
Proof. simpl. unfold compileParameter. by rewrite length_app, Nat.add_1_r. Qed.

(** ** Scanning for placeholders *)

Lemma scan_app st s t :
  scan st (s +:+ t)
  = let (out1, st1) := scan st s in
    let (out2, st2) := scan st1 t in (out1 ++ out2, st2).
Proof.
  revert st. induction s as [|c s IH]; intros st;
    rewrite ?append_nil_l, ?append_cons; simpl.
  - by destruct (scan st t).
  - destruct (scanStep st c) as [o st']. rewrite IH.
    destruct (scan st' s) as [o1 st1], (scan st1 t) as [o2 st2].
    by rewrite (assoc_L (++)).
Qed.

Lemma scan_noDollar_Outside s : noDollar s = true → scan Outside s = ([], Outside).
Proof.
  induction s as [|c s IH]; simpl; [done|]. intros [Hc Hs]%andb_prop.
  unfold scanStep. destruct (digitValue c); simpl.
  - by rewrite IH.
  - destruct (Ascii.eqb c "$"); simplify_eq/=. by rewrite IH.
Qed.

Lemma scan_verbatim st s :
  verbatim s = true → st ≠ Dollar ∨ s ≠ EmptyString →
  let (out, st') := scan st s in out ++ flush st' = flush st ∧ st' ≠ Dollar.
Proof.
  unfold verbatim. intros [Hd Hl]%andb_prop Hst. destruct s as [|c s]; simpl.
  - split; [done|]. by destruct Hst.
  - simpl in Hd, Hl. apply andb_prop in Hd as [Hc Hs]. unfold scanStep.
    destruct (digitValue c); [done|]. destruct (Ascii.eqb c "$"); simplify_eq/=.
    rewrite (scan_noDollar_Outside s Hs). simpl. by rewrite !app_nil_r.
Qed.

Lemma scan_uint d acc :
  scan (Digits acc) (NilEmpty.string_of_uint d) = ([], Digits (Nat.of_uint_acc d acc)).
Proof.
  revert acc. induction d; intros acc; simpl; [done|..];
    rewrite IHd, Nat.tail_mul_spec; do 3 f_equal; lia.
Qed.

Lemma scan_stringOfLength n :
  scan Dollar (stringOfLength n) = ([], Digits n).
Proof.
  unfold stringOfLength. pose proof (DecimalNat.Unsigned.of_to n) as Hn.
  destruct (Nat.to_uint n) eqn:E.
  { simpl in Hn. subst n. discriminate E. }
  all: simpl; rewrite scan_uint; by rewrite <- Hn.
Qed.

Lemma placeholders_app_verbatim s t :
  verbatim t = true → placeholders (s +:+ t) = placeholders s.
Proof.
  intros Ht. unfold placeholders. rewrite scan_app.
  destruct (scan Outside s) as [o1 st1].
  destruct t as [|c t]; [simpl; by rewrite app_nil_r|].
  pose proof (scan_verbatim st1 (String c t) Ht) as Hv.
  destruct (scan st1 (String c t)) as [o2 st2].
  destruct Hv as [Hv _]; [by right|]. by rewrite <- (assoc_L (++)), Hv.
Qed.

Lemma placeholders_app_parameter s n :
  placeholders (s +:+ "$" +:+ stringOfLength n) = placeholders s ++ [n].
Proof.
  unfold placeholders. rewrite scan_app.
  destruct (scan Outside s) as [o1 st1].
  rewrite append_cons, append_nil_l. simpl.
  rewrite scan_stringOfLength.
  replace (scanStep st1 "$") with (flush st1, Dollar) by done.
  by rewrite app_nil_r.
Qed.

(** ** What a compilation adds to the accumulator *)

Lemma parameterValues_ColumnValues value :
  parameterValues (JColumnValues value)
  = flat_map (λ k, columnValueParameters (getValue value k)) (sortedKeys value).
Proof.
  simpl. apply flat_map_ext. intros k. unfold actionFor, getValue.
  rewrite (getProp_map (λ _ columnValue, _)). by destruct (getProp value k).
Qed.

Lemma parameterValues_Whereable proto props :
  parameterValues (JObject proto props)
  = flat_map (λ k, whereValueParameters (getValue props k)) (sortedKeys props).
Proof.
  simpl. apply flat_map_ext. intros k. unfold actionFor, getValue.
  rewrite (getProp_map (λ _ columnValue, _)). by destruct (getProp props k).
Qed.

Lemma Adds_nil r : Adds [] r r.
Proof. split; simpl; by rewrite app_nil_r. Qed.

Lemma Adds_trans vs1 vs2 r1 r2 r3 :
  Adds vs1 r1 r2 → Adds vs2 r2 r3 → Adds (vs1 ++ vs2) r1 r3.
Proof.
  intros [Hv1 Hp1] [Hv2 Hp2]. split.
  - by rewrite Hv2, Hv1, (assoc_L (++)).
  - rewrite Hp2, Hp1, Hv1, !length_app, seq_app, (assoc_L (++)).
    repeat f_equal; lia.
Qed.

Lemma Adds_appendText r s : verbatim s = true → Adds [] r (appendText r s).
Proof.
  intros Hs. split; simpl; rewrite app_nil_r; [done|].
  by apply placeholders_app_verbatim.
Qed.

Lemma Adds_compileParameter v r r' : compileParameter v r = Return r' → Adds [v] r r'.
Proof.
  unfold compileParameter. intros [= <-]. split; simpl; [done|].
  rewrite placeholders_app_parameter, length_app. simpl. do 2 f_equal. lia.
Qed.

Lemma noDollar_app s t : noDollar (s +:+ t) = noDollar s && noDollar t.
Proof.
  induction s as [|c s IH]; [done|]. rewrite append_cons. simpl.
  by rewrite IH, andb_assoc.
Qed.

Lemma verbatim_quoted_app s t :
  noDollar s = true → noDollar t = true → verbatim (quoted s +:+ t) = true.
Proof.
  intros Hs Ht. unfold verbatim, quoted, dquote.
  by rewrite !noDollar_app, Hs, Ht.
Qed.

Lemma verbatim_quoted s : noDollar s = true → verbatim (quoted s) = true.
Proof. intros Hs. rewrite <- (append_nil_r (quoted s)). by apply verbatim_quoted_app. Qed.

Lemma verbatim_startsWithQuote s :
  noDollar s = true → startsWithQuote s = true → verbatim s = true.
Proof.
  intros Hs Hq. unfold verbatim. rewrite Hs. destruct s as [|c s]; [done|].
  simpl in Hq. apply Ascii.eqb_eq in Hq as ->. done.
Qed.

Lemma verbatim_join_quoted names :
  forallb noDollar names = true → verbatim (join ", " (quoted <$> names)) = true.
Proof.
  intros Hn. destruct names as [|n names]; [done|].
  simpl in Hn. apply andb_prop in Hn as [Hn Hns].
  assert (noDollar (join ", " (quoted <$> names)) = true) as Hj.
  { clear n Hn. induction names as [|m names IH]; [done|].
    simpl in Hns. apply andb_prop in Hns as [Hm Hns].
    rewrite fmap_cons. simpl. destruct (quoted <$> names) eqn:E.
    - by rewrite <- (append_nil_r (quoted m)), noDollar_app, andb_true_r in *
        |- *; unfold quoted, dquote; rewrite !noDollar_app, Hm.
    - unfold quoted at 1. unfold dquote. rewrite !noDollar_app, Hm. simpl.
      by apply IH. }
  rewrite fmap_cons. simpl. destruct (quoted <$> names) eqn:E.
  - by apply verbatim_quoted.
  - apply verbatim_quoted_app; [done|]. by rewrite noDollar_app.
Qed.

Lemma forEach_Adds {A} (body : nat → A → SQLResultType → Completion)
    (contribution : A → list JSVal) xs :
  Forall (λ x, ∀ i r r', body i x r = Return r' → Adds (contribution x) r r') xs →
  ∀ i r r', forEach body i xs r = Return r' → Adds (flat_map contribution xs) r r'.
Proof.
  induction 1 as [|x xs Hx _ IH]; intros i r r'; simpl.
  - intros [= <-]. apply Adds_nil.
  - destruct (body i x r) as [r2|] eqn:Hb; simpl; [|done].
    intros Hrest. eapply Adds_trans; eauto.
Qed.

Lemma keyLoop_Adds (props : list (string * JSVal))
    (body : nat → string → SQLResultType → Completion)
    (contribution : JSVal → list JSVal) i r r' :
  (∀ j k v r r', getProp props k = Some v → body j k r = Return r' →
     Adds (contribution v) r r') →
  forEach body i (sortedKeys props) r = Return r' →
  Adds (flat_map (λ k, contribution (getValue props k)) (sortedKeys props)) r r'.
Proof.
  intros Hbody. apply forEach_Adds, Forall_forall. intros k Hk j r1 r2 Hr.
  apply elem_of_sortedKeys in Hk as [v Hv]. unfold getValue. rewrite Hv. simpl. eauto.
Qed.

Lemma compileLiterals_Adds compileExpr parametersOf expressions :
  Forall (λ e, ∀ r r', compileExpr e r = Return r' → Adds (parametersOf e) r r')
    expressions →
  ∀ literals r r', forallb verbatim literals = true →
    compileLiterals compileExpr expressions literals r = Return r' →
    Adds (literalParameters parametersOf expressions literals) r r'.
Proof.
  induction 1 as [|e es He _ IH]; intros [|lit lits] r r' Hl; simpl;
    try done; try (intros [= <-]; apply Adds_nil).
  simpl in Hl. apply andb_prop in Hl as [Hlit Hlits].
  destruct (compileExpr e r) as [r2|] eqn:Hc; simpl; [|done]. intros Hrest.
  eapply Adds_trans; [by eauto|].
  rewrite <- (app_nil_l (literalParameters _ _ _)).
  eapply Adds_trans; [by apply Adds_appendText|]. by apply IH.
Qed.

Lemma cleanName_pinParentTable this parentTable :
  cleanName this = true → cleanName parentTable = true →
  cleanName (pinParentTable this parentTable) = true.
Proof. unfold pinParentTable. by destruct (truthy this). Qed.

Lemma getProp_clean_key {A} (f : string * A → bool) (props : list (string * A)) k v :
  forallb f props = true → getProp props k = Some v → f (k, v) = true.
Proof.
  intros Hall Hk%getProp_Some_elem. rewrite forallb_forall in Hall.
  by apply Hall, list_elem_of_In.
Qed.

Lemma compileSelf_Adds result currentColumn r' :
  cleanName currentColumn = true → compileSelf result currentColumn = Return r' →
  Adds [] result r'.
Proof.
  unfold compileSelf. destruct currentColumn as [c|]; [|done]. simpl. intros Hc.
  destruct (negb _); [|done]. intros [= <-]. by apply Adds_appendText, verbatim_quoted.
Qed.

Lemma compileParentColumn_Adds value result parentTable r' :
  noDollar value = true → cleanName parentTable = true →
  compileParentColumn value result parentTable = Return r' → Adds [] result r'.
Proof.
  unfold compileParentColumn. destruct parentTable as [t|]; [|done]. simpl. intros Hv Ht.
  destruct (negb _); [|done]. intros [= <-].
  apply Adds_appendText, verbatim_quoted_app; [done|].
  unfold quoted, dquote. by rewrite !noDollar_app, Hv.
Qed.

(** What a successful compilation adds to the accumulator, when the strings
    it copies carry no placeholder of their own. *)
Lemma compileExpression_Adds expression :
  ∀ this result parentTable currentColumn r',
    clean expression = true → cleanName this = true →
    cleanName parentTable = true → cleanName currentColumn = true →
    compileExpression this expression result parentTable currentColumn = Return r' →
    Adds (parameterValues expression) result r'.
Proof.
  induction expression as
    [| | | | s | y | | elements IH | literals expressions pinned IH | value _
     | value | value | value _ | value IH | proto props IH] using JSVal_ind;
    intros this result pt cc r' Hclean Hthis Hpt Hcc;
    pose proof (cleanName_pinParentTable this pt Hthis Hpt) as Hpin;
    try done.
  - (* string *)
    simpl. intros [= <-]. apply Adds_appendText. simpl in Hclean.
    destruct (startsWithQuote s) eqn:Hq;
      [by apply verbatim_startsWithQuote|by apply verbatim_quoted].
  - (* symbol *)
    destruct y; simpl; try done.
    + intros [= <-]. by apply Adds_appendText.
    + by apply compileSelf_Adds.
  - (* array *)
    rewrite compileExpression_array. simpl in Hclean.
    apply forEach_Adds. rewrite Forall_forall in IH. apply Forall_forall.
    intros e He _ r1 r2. apply IH; try done.
    rewrite forallb_forall in Hclean. by apply Hclean, list_elem_of_In.
  - (* fragment *)
    simpl in Hclean. apply andb_prop in Hclean as [[Hlits Hexprs]%andb_prop Hpinned].
    simpl. intros Hc.
    rewrite <- (app_nil_l (literalParameters _ _ _)).
    eapply Adds_trans; [apply (Adds_appendText _ (nth 0 literals "undefined"))|].
    { destruct literals as [|l ls]; [done|]. simpl in Hlits. by apply andb_prop in Hlits as []. }
    eapply compileLiterals_Adds; [| |exact Hc].
    + rewrite Forall_forall in IH. apply Forall_forall. intros e He r1 r2.
      apply IH; try done.
      * rewrite forallb_forall in Hexprs. by apply Hexprs, list_elem_of_In.
      * by apply cleanName_pinParentTable.
    + destruct literals as [|l ls]; [done|]. simpl in Hlits. by apply andb_prop in Hlits as [].
  - (* Parameter *)
    simpl. apply Adds_compileParameter.
  - (* raw string *)
    simpl. intros [= <-]. by apply Adds_appendText.
  - (* ParentColumn *)
    simpl. by apply compileParentColumn_Adds.
  - (* ColumnNames *)
    simpl. unfold compileColumnNames. intros [= <-].
    by apply Adds_appendText, verbatim_join_quoted.
  - (* ColumnValues *)
    rewrite compileExpression_ColumnValues, parameterValues_ColumnValues.
    apply keyLoop_Adds. intros j k v r1 r2 Hv. simpl.
    pose proof (getProp_clean_key _ _ _ _ Hclean Hv) as Hkv.
    apply andb_prop in Hkv as [Hk Hcv].
    rewrite Forall_forall in IH.
    pose proof (IH (k, v) (getProp_Some_elem _ _ _ Hv)) as IHv. simpl in IHv.
    set (r1' := if 0 <? j then appendText r1 ", " else r1).
    assert (Adds [] r1 r1') as Hsep.
    { unfold r1'. destruct (0 <? j); [by apply Adds_appendText|apply Adds_nil]. }
    intros Hc. unfold getValue in Hc. rewrite Hv in Hc. simpl in Hc.
    rewrite <- (app_nil_l (columnValueParameters v)).
    eapply Adds_trans; [exact Hsep|]. revert Hc. generalize r1'. clear Hsep r1'.
    unfold compileColumnValue.
    destruct v as [| | | | |[]| | | | | | | | |]; intros r1' Hc;
      try (by apply (Adds_compileParameter _ _ _ Hc)).
    + simpl in Hc. injection Hc as <-. by apply Adds_appendText.
    + by apply (IHv this r1' (pinParentTable this pt) (Some k)).
  - (* Whereable *)
    rewrite compileExpression_Whereable, parameterValues_Whereable.
    destruct (sortedKeys props) as [|k0 ks] eqn:Hks.
    { intros [= <-]. by apply Adds_appendText. }
    rewrite <- Hks.
    destruct (forEach _ 0 (sortedKeys props) (appendText result "(")) as [r3|] eqn:Hloop;
      simpl; [|done].
    intros [= <-].
    rewrite <- (app_nil_l (flat_map _ _)), <- (app_nil_r (flat_map _ _)).
    eapply Adds_trans; [by apply (Adds_appendText _ "(")|].
    eapply Adds_trans; [|by apply (Adds_appendText _ ")")].
    revert Hloop. apply keyLoop_Adds. intros j k v r1 r2 Hv. simpl.
    pose proof (getProp_clean_key _ _ _ _ Hclean Hv) as Hkv.
    apply andb_prop in Hkv as [Hk Hcv].
    rewrite Forall_forall in IH.
    pose proof (IH (k, v) (getProp_Some_elem _ _ _ Hv)) as IHv. simpl in IHv.
    set (r1' := if 0 <? j then appendText r1 " AND " else r1).
    assert (Adds [] r1 r1') as Hsep.
    { unfold r1'. destruct (0 <? j); [by apply Adds_appendText|apply Adds_nil]. }
    intros Hc. unfold getValue in Hc. rewrite Hv in Hc. simpl in Hc.
    rewrite <- (app_nil_l (whereValueParameters v)).
    eapply Adds_trans; [exact Hsep|]. revert Hc. generalize r1'. clear Hsep r1'.
    assert (∀ r, Adds [] r (appendText r (quoted k +:+ " = "))) as Heq.
    { intros r. by apply Adds_appendText, verbatim_quoted_app. }
    unfold compileWhereValue.
    destruct v; intros r1' Hc;
      try (rewrite <- (app_nil_l (whereValueParameters _));
           eapply Adds_trans; [apply Heq|]; by apply (Adds_compileParameter _ _ _ Hc)).
    + (* nested fragment *)
      destruct (compileExpression this _ (appendText r1' "(") _ _) as [r4|] eqn:Hf;
        simpl in Hc; [|done]. injection Hc as <-.
      unfold whereValueParameters.
      rewrite <- (app_nil_l (parameterValues _)), <- (app_nil_r (parameterValues _)).
      eapply Adds_trans; [by apply (Adds_appendText _ "(")|].
      eapply Adds_trans; [|by apply (Adds_appendText _ ")")].
      by apply (IHv this _ (pinParentTable this pt) (Some k)).
    + (* parent column *)
      simpl in Hc. rewrite pinParentTable_idemp in Hc.
      rewrite <- (app_nil_l (whereValueParameters _)).
      eapply Adds_trans; [apply Heq|]. by eapply compileParentColumn_Adds.
Qed.

Lemma compile_compileExpression this result parentTable currentColumn :
  compile this result parentTable currentColumn
  = compileExpression None (fragmentValue this) result parentTable currentColumn.
Proof. destruct this. unfold fragmentValue. by rewrite compileExpression_fragment. Qed.

(** * The claims *)

(** ** C1: placeholders and values *)

(** C1, as stated, fails: a literal is copied into the text as it is, so a
    fragment without any parameter can yield a text with a placeholder, and
    a literal that starts with a digit renumbers the placeholder before it. *)
Lemma C1_counterexample :
  compile0 (sql ["SELECT $1"] []) = Return {| text := "SELECT $1"; values := [] |}
  ∧ parameterValues (fragmentValue (sql ["SELECT $1"] [])) = []
  ∧ placeholders "SELECT $1" = [1]
  ∧ compile0 (sql ["SELECT "; "0"] [JParameter (JString "x")])
    = Return {| text := "SELECT $10"; values := [JString "x"] |}
  ∧ placeholders "SELECT $10" = [10].
Proof. repeat split; vm_compute; reflexivity. Qed.

(** C1 (amended): for every fragment that compiles without error from an
    empty accumulator, and whose copied strings (literals, raw strings and
    names) contain no dollar sign, with no literal or raw string starting
    with a digit: if its expansion contributes N parameter values, the text
    has exactly the placeholders $1..$N in increasing order, and [values]
    is the list of these N values in the same order, so that the n-th
    placeholder is bound by [values[n-1]].  The default and self markers,
    parent column references, raw strings and identifiers, where they
    compile, push no value and add no placeholder. *)
Theorem C1_placeholders_bind_values (this : SQLFragment) (r : SQLResultType) :
  clean (fragmentValue this) = true →
  compile0 this = Return r →
  placeholders (text r) = seq 1 (length (parameterValues (fragmentValue this)))
  ∧ values r = parameterValues (fragmentValue this)
  ∧ length (values r) = length (parameterValues (fragmentValue this))
  ∧ (∀ n v, values r !! n = Some v → placeholders (text r) !! n = Some (S n))
  ∧ (∀ owner expression result parentTable currentColumn r',
       match expression with
       | JSymbol SymDefault | JSymbol SymSelf | JParentColumn _
       | JDangerousRawString _ | JString _ => True
       | _ => False
       end →
       clean expression = true → cleanName owner = true →
       cleanName parentTable = true → cleanName currentColumn = true →
       compileExpression owner expression result parentTable currentColumn = Return r' →
       values r' = values result ∧ placeholders (text r') = placeholders (text result)).
Proof.
  intros Hclean Hc. unfold compile0 in Hc. rewrite compile_compileExpression in Hc.
  apply compileExpression_Adds in Hc as [Hv Hp]; try done.
  simpl in Hv, Hp. split; [done|]. split; [done|]. split; [by rewrite Hv|]. split.
  - intros n v Hn. rewrite Hp. apply lookup_lt_Some in Hn. rewrite Hv in Hn.
    by rewrite lookup_seq_lt.
  - intros owner e result pt cc r' He ? ? ? ? Hr.
    apply compileExpression_Adds in Hr as [Hv' Hp']; try done.
    destruct e as [| | | | |[]| | | | | | | | |]; try done;
      simpl in Hv', Hp'; by rewrite app_nil_r in Hv', Hp'.
Qed.

Lemma C1_witness :
  clean (fragmentValue insertBook) = true
  ∧ compile0 insertBook
    = Return {| text := "INSERT INTO " +:+ quoted "books" +:+ " ("
                        +:+ quoted "authorId" +:+ ", " +:+ quoted "title"
                        +:+ ") VALUES ($1, $2) RETURNING $3::int AS one";
                values := [JNumber 7; JString "Emma"; JNumber 1] |}
  ∧ placeholders ("INSERT INTO " +:+ quoted "books" +:+ " ("
                  +:+ quoted "authorId" +:+ ", " +:+ quoted "title"
                  +:+ ") VALUES ($1, $2) RETURNING $3::int AS one") = [1; 2; 3]
  ∧ (compileExpression None (JDangerousRawString " OR 1=1") emptyResult None None
     = Return {| text := " OR 1=1"; values := [] |}
     ∧ values {| text := " OR 1=1"; values := [] |} = values emptyResult
     ∧ placeholders (text {| text := " OR 1=1"; values := [] |})
       = placeholders (text emptyResult)).
Proof.
  assert (compile0 insertBook
    = Return {| text := "INSERT INTO " +:+ quoted "books" +:+ " ("
                        +:+ quoted "authorId" +:+ ", " +:+ quoted "title"
                        +:+ ") VALUES ($1, $2) RETURNING $3::int AS one";
                values := [JNumber 7; JString "Emma"; JNumber 1] |}) as Hc
    by (vm_compute; reflexivity).
  pose proof (C1_placeholders_bind_values insertBook _ eq_refl Hc) as H.
  split; [vm_compute; reflexivity|]. split; [exact Hc|].
  split; [exact (proj1 H)|]. split; [reflexivity|].
  exact (proj2 (proj2 (proj2 (proj2 H))) None (JDangerousRawString " OR 1=1") emptyResult
           None None _ I eq_refl eq_refl eq_refl eq_refl eq_refl).
Defined.

(** ** C2: a mapping is a conjunction over its sorted keys *)

Lemma appendText_appendText r s t :
  appendText (appendText r s) t = appendText r (s +:+ t).
Proof. unfold appendText. simpl. by rewrite append_assoc. Qed.

Lemma quoted_spelled name :
  quoted name = String "034" (name +:+ String "034" EmptyString).
Proof. unfold quoted, dquote. by rewrite append_cons, append_nil_l. Qed.

Lemma quoted_app_spelled name rest :
  quoted name +:+ rest = String "034" (name +:+ String "034" rest).
Proof.
  rewrite quoted_spelled, append_cons, append_assoc.
  by rewrite append_cons, append_nil_l.
Qed.

Lemma compileWhereValue_conjunct this columnValue result parentTable key :
  compileWhereValue this columnValue result parentTable key
  = conjunct this key columnValue result parentTable.
Proof.
  unfold compileWhereValue, conjunct.
  destruct columnValue;
    try (rewrite compileExpression_Parameter; simpl;
         by rewrite !append_assoc, quoted_app_spelled).
  - by rewrite compileExpression_fragment.
  - simpl. unfold compileParentColumn. rewrite quoted_app_spelled.
    destruct (pinParentTable this parentTable) as [t|]; [|done].
    unfold truthy. destruct (negb (String.eqb t "")); [|done].
    rewrite appendText_appendText. do 2 f_equal.
    by rewrite !append_cons, !append_assoc, !quoted_app_spelled, quoted_spelled.
Qed.

(** C2: an empty mapping compiles to TRUE; a non-empty one to the
    conjuncts of its keys in sorted order, separated by AND and wrapped in
    parentheses, each conjunct as [conjunct] says, with the double-quote
    characters around the key, the parent table and the column written
    out; the sorted keys are the keys of the object, each once, in
    ascending order; the result does not depend on the order in which the
    properties were assigned; and {a: 1, b: 2}, in either order, compiles
    to the text that has a and b between double-quote characters, equated
    to $1 and $2 and joined by AND between parentheses, with
    values [1, 2]. *)
Theorem C2_mapping_conjunction :
  (∀ this proto result parentTable currentColumn,
     compileExpression this (JObject proto []) result parentTable currentColumn
     = Return (appendText result "TRUE"))
  ∧ (∀ this proto props result parentTable currentColumn,
       props ≠ [] →
       compileExpression this (JObject proto props) result parentTable currentColumn
       = forEach (λ i key result,
                    conjunct this key (getValue props key)
                      (if 0 <? i then appendText result " AND " else result)
                      (pinParentTable this parentTable))
                 0 (sortedKeys props) (appendText result "(")
         >>> λ result, Return (appendText result ")"))
  ∧ (∀ props : list (string * JSVal),
       StronglySorted String.le (sortedKeys props)
       ∧ NoDup (sortedKeys props)
       ∧ ∀ key, key ∈ sortedKeys props ↔ is_Some (getProp props key))
  ∧ (∀ this proto props1 props2 result parentTable currentColumn,
       (∀ key, getProp props1 key = getProp props2 key) →
       compileExpression this (JObject proto props1) result parentTable currentColumn
       = compileExpression this (JObject proto props2) result parentTable currentColumn)
  ∧ compileExpression None mappingAB emptyResult None None
    = Return {| text := "(" +:+ String "034" ("a" +:+ String "034" (" = $1 AND " +:+
                        String "034" ("b" +:+ String "034" " = $2)")));
                values := [JNumber 1; JNumber 2] |}
  ∧ compileExpression None mappingBA emptyResult None None
    = Return {| text := "(" +:+ String "034" ("a" +:+ String "034" (" = $1 AND " +:+
                        String "034" ("b" +:+ String "034" " = $2)")));
                values := [JNumber 1; JNumber 2] |}
  ∧ compileExpression None
      (JObject ObjectPrototype [("id", JParentColumn "authorId"); ("n", JNumber 1)])
      emptyResult (Some "books") None
    = Return {| text := "(" +:+ String "034" ("id" +:+ String "034" (" = " +:+
                        String "034" ("books" +:+ String "034" ("." +:+
                        String "034" ("authorId" +:+ String "034" (" AND " +:+
                        String "034" ("n" +:+ String "034" " = $1)")))))));
                values := [JNumber 1] |}.
Proof.
  split; [done|]. split; [|split; [|split; [|split; [|split]]]].
  - intros this proto props result pt cc Hne.
    rewrite compileExpression_Whereable.
    destruct (sortedKeys props) as [|k0 ks] eqn:Hks.
    { by apply sortedKeys_nil_inv in Hks. }
    f_equal. apply forEach_ext. intros j k r _. apply compileWhereValue_conjunct.
  - intros props. split; [apply sortedKeys_sorted|].
    split; [apply sortedKeys_NoDup|]. apply elem_of_sortedKeys.
  - intros this proto props1 props2 result pt cc Hsame.
    rewrite !compileExpression_Whereable.
    assert (sortedKeys props1 = sortedKeys props2) as Hkeys.
    { apply sortedKeys_same_keys. intros k. by rewrite Hsame. }
    rewrite Hkeys. destruct (sortedKeys props2); [done|].
    f_equal. apply forEach_ext. intros j k r _. unfold getValue. by rewrite Hsame.
  - vm_compute. reflexivity.
  - vm_compute. reflexivity.
  - vm_compute. reflexivity.
Qed.

Lemma C2_witness :
  ((∀ key, getProp [("b", JNumber 2); ("a", JNumber 1)] key
           = getProp [("a", JNumber 1); ("b", JNumber 2)] key)
   ∧ compileExpression None mappingBA emptyResult None None
     = compileExpression None mappingAB emptyResult None None)
  ∧ ([("b", JNumber 2); ("a", JNumber 1)] ≠ []
     ∧ compileExpression None mappingBA emptyResult None None
       = forEach (λ i key result,
                    conjunct None key (getValue [("b", JNumber 2); ("a", JNumber 1)] key)
                      (if 0 <? i then appendText result " AND " else result)
                      (pinParentTable None None))
                 0 (sortedKeys [("b", JNumber 2); ("a", JNumber 1)])
                 (appendText emptyResult "(")
         >>> λ result, Return (appendText result ")")).
Proof.
  assert (∀ key, getProp [("b", JNumber 2); ("a", JNumber 1)] key
                 = getProp [("a", JNumber 1); ("b", JNumber 2)] key) as Hsame.
  { intros key. unfold getProp.
    destruct (String.eqb_spec "a" key) as [<-|]; [reflexivity|].
    destruct (String.eqb "b" key); reflexivity. }
  split; split.
  - exact Hsame.
  - exact (proj1 (proj2 (proj2 (proj2 C2_mapping_conjunction)))
             None ObjectPrototype _ _ emptyResult None None Hsame).
  - discriminate.
  - exact (proj1 (proj2 C2_mapping_conjunction) None ObjectPrototype
             [("b", JNumber 2); ("a", JNumber 1)] emptyResult None None
             ltac:(discriminate)).
Defined.

(** ** C3: column names and column values in the same sorted order *)

Lemma compileColumnValue_columnValue this value result parentTable key :
  compileColumnValue this value result parentTable key
  = columnValue this key value result parentTable.
Proof.
  unfold compileColumnValue, columnValue.
  destruct value as [| | | | |[]| | | | | | | | |];
    try (by rewrite compileExpression_Parameter).
  - done.
  - by rewrite compileExpression_fragment.
Qed.

Lemma fmap_quoted_spelled (names : list string) :
  quoted <$> names
  = (λ name, String "034" (name +:+ String "034" EmptyString)) <$> names.
Proof. apply list_fmap_ext. intros _ name _. apply quoted_spelled. Qed.

(** C3: [ColumnNames] over an object gives its sorted keys, each between
    two double-quote characters, joined by a comma and a space;
    [ColumnValues] compiles the values in the order of the same sorted
    keys, separated by a comma and a space, each under
    [currentColumn = key]; the sorted keys are the keys of the object, each
    once, in ascending order, so objects with the same key set have the
    same sorted keys, whatever the insertion order; {b: 2, a: 1} gives a
    and b between double-quote characters, and $1, $2 with values [1, 2]. *)
Theorem C3_names_and_values_in_step :
  (∀ this (props : list (string * JSVal)) result parentTable currentColumn,
     compileExpression this (JColumnNames (inr props)) result parentTable currentColumn
     = Return (appendText result
                 (join ", " ((λ key, String "034" (key +:+ String "034" EmptyString))
                             <$> sortedKeys props))))
  ∧ (∀ this props result parentTable currentColumn,
       compileExpression this (JColumnValues props) result parentTable currentColumn
       = forEach (λ i key result,
                    columnValue this key (getValue props key)
                      (if 0 <? i then appendText result ", " else result)
                      (pinParentTable this parentTable))
                 0 (sortedKeys props) result)
  ∧ (∀ props : list (string * JSVal),
       StronglySorted String.le (sortedKeys props)
       ∧ NoDup (sortedKeys props)
       ∧ ∀ key, key ∈ sortedKeys props ↔ is_Some (getProp props key))
  ∧ (∀ props1 props2 : list (string * JSVal),
       (∀ key, is_Some (getProp props1 key) ↔ is_Some (getProp props2 key)) →
       sortedKeys props1 = sortedKeys props2)
  ∧ (∀ props1 props2 : list (string * JSVal),
       props1 ≡ₚ props2 → sortedKeys props1 = sortedKeys props2)
  ∧ sortedKeys updatableBA = ["a"; "b"]
  ∧ compileExpression None (JColumnNames (inr updatableBA)) emptyResult None None
    = Return {| text := String "034" ("a" +:+ String "034" (", " +:+
                        String "034" ("b" +:+ String "034" EmptyString)));
                values := [] |}
  ∧ compileExpression None (JColumnValues updatableBA) emptyResult None None
    = Return {| text := "$1, $2"; values := [JNumber 1; JNumber 2] |}
  ∧ compileExpression None
      (JColumnValues [("c", JNumber 3); ("b", JSymbol SymDefault); ("a", JNumber 1)])
      emptyResult None None
    = Return {| text := "$1, DEFAULT, $2"; values := [JNumber 1; JNumber 3] |}.
Proof.
  split; [|split; [|split; [|split; [|split; [|split; [|split; [|split]]]]]]].
  - intros this props result pt cc. simpl. unfold compileColumnNames. simpl.
    by rewrite fmap_quoted_spelled.
  - intros this props result pt cc. rewrite compileExpression_ColumnValues.
    apply forEach_ext. intros j k r _. apply compileColumnValue_columnValue.
  - intros props. split; [apply sortedKeys_sorted|].
    split; [apply sortedKeys_NoDup|]. apply elem_of_sortedKeys.
  - intros props1 props2. apply sortedKeys_same_keys.
  - intros props1 props2 Hperm. apply sortedKeys_same_keys. intros key.
    by rewrite !getProp_is_Some, Hperm.
  - vm_compute. reflexivity.
  - vm_compute. reflexivity.
  - vm_compute. reflexivity.
  - vm_compute. reflexivity.
Qed.

Lemma C3_witness :
  ([("b", JNumber 2); ("a", JNumber 1)] ≡ₚ [("a", JNumber 1); ("b", JNumber 2)]
   ∧ sortedKeys [("b", JNumber 2); ("a", JNumber 1)]
     = sortedKeys [("a", JNumber 1); ("b", JNumber 2)])
  ∧ ((∀ key, is_Some (getProp [("b", JNumber 2); ("a", JNumber 1)] key)
             ↔ is_Some (getProp [("a", JString "x"); ("b", JSymbol SymDefault)] key))
     ∧ sortedKeys [("b", JNumber 2); ("a", JNumber 1)]
       = sortedKeys [("a", JString "x"); ("b", JSymbol SymDefault)]).
Proof.
  assert (∀ key, is_Some (getProp [("b", JNumber 2); ("a", JNumber 1)] key)
                 ↔ is_Some (getProp [("a", JString "x"); ("b", JSymbol SymDefault)] key))
    as Hkeys.
  { intros key. unfold getProp.
    destruct (String.eqb "a" key), (String.eqb "b" key); split; eauto. }
  split; split.
  - apply perm_swap.
  - exact (proj1 (proj2 (proj2 (proj2 (proj2 C3_names_and_values_in_step))))
             [("b", JNumber 2); ("a", JNumber 1)] [("a", JNumber 1); ("b", JNumber 2)]
             (perm_swap _ _ _)).
  - exact Hkeys.
  - exact (proj1 (proj2 (proj2 (proj2 C3_names_and_values_in_step))) _ _ Hkeys).
Defined.

(** ** C4: the self and parent aliases need their context *)

(** C4, as stated, fails: the guards test truthiness, so a current column or
    a parent table that is the empty string counts as absent.  The empty
    key of a mapping makes [self] throw inside the nested fragment. *)
Lemma C4_counterexample :
  compileExpression None (JSymbol SymSelf) emptyResult None (Some "")
  = Throw selfError emptyResult
  ∧ compileExpression None (JParentColumn "id") emptyResult (Some "") None
    = Throw parentError emptyResult
  ∧ compile0 (sql [""; ""]
                [JObject ObjectPrototype
                   [("", JSQLFragment [""; " IS NULL"] [JSymbol SymSelf] None)]])
    = Throw selfError {| text := "(("; values := [] |}.
Proof. repeat split; vm_compute; reflexivity. Qed.

Lemma appendText_nil r : appendText r "" = r.
Proof. destruct r. unfold appendText. simpl. by rewrite append_nil_r. Qed.

Lemma truthy_Some s : s ≠ "" → truthy (Some s) = true.
Proof. intros Hs. simpl. by destruct (String.eqb_spec s ""). Qed.

Lemma compileExpression_self_named this result parentTable column :
  column ≠ "" →
  compileExpression this (JSymbol SymSelf) result parentTable (Some column)
  = Return (appendText result (quoted column)).
Proof. intros Hc. simpl. by destruct (String.eqb_spec column ""). Qed.

Lemma compileExpression_parent_named this col result parentTable currentColumn table :
  pinParentTable this parentTable = Some table → table ≠ "" →
  compileExpression this (JParentColumn col) result parentTable currentColumn
  = Return (appendText result (quoted table +:+ "." +:+ quoted col)).
Proof.
  intros Hpt Ht. simpl. unfold compileParentColumn.
  rewrite Hpt. by rewrite (truthy_Some table Ht).
Qed.

(** C4 (amended): [self] compiled with no current column, or with the empty
    string as current column, throws the self ContextError and leaves the
    accumulator as it was; with a non-empty current column it appends that
    name between double quotes.  A parent column reference compiled with no
    parent table, or the empty string, after pinning by the enclosing
    fragment, throws the parent ContextError; with a non-empty parent
    table, inherited or pinned on the enclosing fragment, it appends
    "parentTable"."col". *)
Theorem C4_context_errors :
  (∀ this result parentTable currentColumn,
     truthy currentColumn = false →
     compileExpression this (JSymbol SymSelf) result parentTable currentColumn
     = Throw selfError result)
  ∧ (∀ this result parentTable,
       compileExpression this (JSymbol SymSelf) result parentTable None
       = Throw selfError result)
  ∧ (∀ this result parentTable column,
       column ≠ "" →
       compileExpression this (JSymbol SymSelf) result parentTable (Some column)
       = Return (appendText result (quoted column)))
  ∧ (∀ this col result parentTable currentColumn,
       truthy (pinParentTable this parentTable) = false →
       compileExpression this (JParentColumn col) result parentTable currentColumn
       = Throw parentError result)
  ∧ (∀ col result currentColumn,
       compileExpression None (JParentColumn col) result None currentColumn
       = Throw parentError result)
  ∧ (∀ this col result parentTable currentColumn table,
       pinParentTable this parentTable = Some table → table ≠ "" →
       compileExpression this (JParentColumn col) result parentTable currentColumn
       = Return (appendText result (quoted table +:+ "." +:+ quoted col)))
  ∧ (∀ col result inherited currentColumn table,
       table ≠ "" →
       compile {| literals := [""; ""]; expressions := [JParentColumn col];
                  parentTable := Some table |} result inherited currentColumn
       = Return (appendText result (quoted table +:+ "." +:+ quoted col)))
  ∧ isContextError selfError ∧ isContextError parentError.
Proof.
  split; [|split; [|split; [|split; [|split; [|split; [|split; [|split]]]]]]].
  - intros this result pt [c|] Hcc; [|done]. simpl in *. by rewrite Hcc.
  - done.
  - apply compileExpression_self_named.
  - intros this col result pt cc Hpt. simpl. unfold compileParentColumn.
    destruct (pinParentTable this pt) as [t|]; [|done]. by rewrite Hpt.
  - done.
  - apply compileExpression_parent_named.
  - intros col result inherited cc t Ht. unfold compile. simpl.
    unfold pinParentTable, compileParentColumn. rewrite !(truthy_Some t Ht). simpl.
    by rewrite !appendText_nil.
  - by left.
  - by right.
Qed.

Lemma C4_witness :
  (truthy (Some "") = false
   ∧ compileExpression None (JSymbol SymSelf) emptyResult None (Some "")
     = Throw selfError emptyResult)
  ∧ ("id" ≠ ""
     ∧ compileExpression None (JSymbol SymSelf) emptyResult None (Some "id")
       = Return (appendText emptyResult (quoted "id")))
  ∧ (truthy (pinParentTable (Some "") None) = false
     ∧ compileExpression (Some "") (JParentColumn "id") emptyResult None None
       = Throw parentError emptyResult)
  ∧ (pinParentTable None (Some "authors") = Some "authors" ∧ "authors" ≠ ""
     ∧ compileExpression None (JParentColumn "id") emptyResult (Some "authors") None
       = Return (appendText emptyResult (quoted "authors" +:+ "." +:+ quoted "id")))
  ∧ ("authors" ≠ ""
     ∧ compile {| literals := [""; ""]; expressions := [JParentColumn "id"];
                  parentTable := Some "authors" |} emptyResult None None
       = Return (appendText emptyResult (quoted "authors" +:+ "." +:+ quoted "id"))).
Proof.
  pose proof C4_context_errors as (H1 & _ & H3 & H4 & _ & H6 & H7 & _).
  split; [split; [reflexivity|]|split; [split; [discriminate|]|
    split; [split; [reflexivity|]|split; [split; [reflexivity|split; [discriminate|]]|
    split; [discriminate|]]]]].
  - exact (H1 None emptyResult None (Some "") eq_refl).
  - exact (H3 None emptyResult None "id" ltac:(discriminate)).
  - exact (H4 (Some "") "id" emptyResult None None eq_refl).
  - exact (H6 None "id" emptyResult (Some "authors") None "authors" eq_refl
             ltac:(discriminate)).
  - exact (H7 "id" emptyResult None None "authors" ltac:(discriminate)).
Defined.

(** ** C5: what the last branch rejects *)

(** C5, as stated, fails: every object that no earlier branch takes reaches
    the branch for a [Whereable], whatever its prototype, so a [Date] or a
    [Map], which have no own enumerable keys, compile to TRUE without any
    error; [null], whose [typeof] is also 'object', makes [Object.keys]
    throw a [TypeError]. *)
Lemma C5_counterexample :
  compileExpression None (JObject (OtherPrototype "Date") []) emptyResult None None
  = Return {| text := "TRUE"; values := [] |}
  ∧ compileExpression None JNull emptyResult None None
    = Throw (TypeError "Cannot convert undefined or null to object") emptyResult.
Proof. split; reflexivity. Qed.

(** C5 (amended): [undefined], a boolean, a number and a function are
    rejected with the error whose message carries the string conversion of
    the value, and the accumulator is left as it was: for a safe integer
    the conversion is its decimal numeral, with a minus sign when it is
    negative, and for any other number it is the conversion the number is
    given by, such as 1e+21, 0.5 or NaN; every other object that is not an
    array or an instance of a class of the module is compiled as a mapping
    over its own keys, whatever its prototype. *)
Theorem C5_alien_values :
  (∀ this result parentTable currentColumn,
     compileExpression this JUndefined result parentTable currentColumn
     = Throw (alienError "undefined") result)
  ∧ (∀ this b result parentTable currentColumn,
       compileExpression this (JBoolean b) result parentTable currentColumn
       = Throw (alienError (if b then "true" else "false")) result)
  ∧ (∀ this (z : Z) result parentTable currentColumn,
       isSafeInteger z = true →
       compileExpression this (JNumber (Integer z)) result parentTable currentColumn
       = Throw (alienError (NilZero.string_of_int (Z.to_int z))) result)
  ∧ (∀ this conversion result parentTable currentColumn,
       compileExpression this (JNumber (OtherNumber conversion)) result parentTable
         currentColumn
       = Throw (alienError conversion) result)
  ∧ (∀ this source result parentTable currentColumn,
       compileExpression this (JFunction source) result parentTable currentColumn
       = Throw (alienError source) result)
  ∧ (∀ this proto props result parentTable currentColumn,
       compileExpression this (JObject proto props) result parentTable currentColumn
       = compileExpression this (JObject ObjectPrototype props) result parentTable
           currentColumn)
  ∧ compileExpression None (JNumber 42) emptyResult None None
    = Throw (Error "Alien object while interpolating SQL: 42") emptyResult
  ∧ compileExpression None (JNumber (-7)) emptyResult None None
    = Throw (Error "Alien object while interpolating SQL: -7") emptyResult
  ∧ compileExpression None (JNumber (OtherNumber "1e+21")) emptyResult None None
    = Throw (Error "Alien object while interpolating SQL: 1e+21") emptyResult.
Proof. repeat split. Qed.

Lemma C5_witness :
  isSafeInteger 9007199254740991 = true
  ∧ compileExpression None (JNumber 9007199254740991) emptyResult None None
    = Throw (Error "Alien object while interpolating SQL: 9007199254740991")
        emptyResult.
Proof.
  split; [reflexivity|].
  exact (proj1 (proj2 (proj2 C5_alien_values)) None 9007199254740991%Z emptyResult
           None None eq_refl).
Defined.

(** ** C8: an empty array of column names *)

(** C8: [ColumnNames] wrapping the empty array compiles without error and
    leaves the accumulator as it was: no text, no placeholder, no value. *)
Theorem C8_empty_column_names this result parentTable currentColumn :
  compileExpression this (JColumnNames (inl [])) result parentTable currentColumn
  = Return result
  ∧ compileExpression None (JColumnNames (inl [])) emptyResult None None
    = Return {| text := ""; values := [] |}.
Proof.
  split; [|done]. simpl. unfold compileColumnNames. simpl. by rewrite appendText_nil.
Qed.

(** ** C9: column names are always quoted *)

Lemma sortedKeys_singleton {A} (name : string) (v : A) : sortedKeys [(name, v)] = [name].
Proof. done. Qed.

(** C9: every name of a [ColumnNames], array element or object key, is put
    between double quotes, and the names are joined by commas; there is no
    pass-through: a name that already starts with a double quote is
    wrapped again, where the same string as a bare identifier is copied as
    it is. *)
Theorem C9_column_names_always_quoted :
  (∀ this value result parentTable currentColumn,
     compileExpression this (JColumnNames value) result parentTable currentColumn
     = Return (appendText result
                 (join ", " ((λ name, dquote +:+ name +:+ dquote) <$> columnNamesOf value))))
  ∧ (∀ this name v result parentTable currentColumn,
       startsWithQuote name = true →
       compileExpression this (JString name) result parentTable currentColumn
       = Return (appendText result name)
       ∧ compileExpression this (JColumnNames (inl [name])) result parentTable
           currentColumn
         = Return (appendText result (dquote +:+ name +:+ dquote))
       ∧ compileExpression this (JColumnNames (inr [(name, v)])) result parentTable
           currentColumn
         = Return (appendText result (dquote +:+ name +:+ dquote)))
  ∧ compileExpression None (JColumnNames (inl [dquote +:+ "a" +:+ dquote; "b"]))
      emptyResult None None
    = Return {| text := dquote +:+ dquote +:+ "a" +:+ dquote +:+ dquote +:+ ", "
                        +:+ dquote +:+ "b" +:+ dquote;
                values := [] |}.
Proof.
  split; [done|]. split; [|done].
  intros this name v result pt cc Hq. split; [|split].
  - simpl. by rewrite Hq.
  - done.
  - simpl. unfold compileColumnNames, columnNamesOf. by rewrite sortedKeys_singleton.
Qed.

Lemma C9_witness :
  startsWithQuote (dquote +:+ "a" +:+ dquote) = true
  ∧ compileExpression None (JColumnNames (inl [dquote +:+ "a" +:+ dquote])) emptyResult
      None None
    = Return (appendText emptyResult (dquote +:+ (dquote +:+ "a" +:+ dquote) +:+ dquote)).
Proof.
  split; [reflexivity|].
  exact (proj1 (proj2 (proj1 (proj2 C9_column_names_always_quoted)
           None (dquote +:+ "a" +:+ dquote) JUndefined emptyResult None None eq_refl))).
Defined.

(** ** C10: quoting is plain concatenation *)

(** C10: wherever the compiler quotes a name, the text gains the
    double-quote character, the name as it is, and the double-quote
    character again, written out here as the character of code 34: for a
    bare identifier that does not start with a double quote; for every name
    of a [ColumnNames], the elements of its array or the sorted keys of its
    object, however many; for the key of every conjunct of a mapping,
    whether its value is bound as a parameter or is a parent column
    reference, as [conjunct] says; for the current column of [self]; and
    for the table and the column of a parent column reference.  Nothing is
    escaped: a double quote inside a name is copied as it is. *)
Theorem C10_quoting_is_concatenation :
  (∀ this name result parentTable currentColumn,
     startsWithQuote name = false →
     compileExpression this (JString name) result parentTable currentColumn
     = Return (appendText result (String "034" (name +:+ String "034" EmptyString))))
  ∧ (∀ this value result parentTable currentColumn,
       compileExpression this (JColumnNames value) result parentTable currentColumn
       = Return (appendText result
                   (join ", "
                      ((λ name, String "034" (name +:+ String "034" EmptyString))
                       <$> match value with
                           | inl names => names
                           | inr props => sortedKeys props
                           end))))
  ∧ (∀ this proto props result parentTable currentColumn,
       props ≠ [] →
       compileExpression this (JObject proto props) result parentTable currentColumn
       = forEach (λ i key result,
                    conjunct this key (getValue props key)
                      (if 0 <? i then appendText result " AND " else result)
                      (pinParentTable this parentTable))
                 0 (sortedKeys props) (appendText result "(")
         >>> λ result, Return (appendText result ")"))
  ∧ (∀ this column result parentTable,
       column ≠ "" →
       compileExpression this (JSymbol SymSelf) result parentTable (Some column)
       = Return (appendText result
                   (String "034" (column +:+ String "034" EmptyString))))
  ∧ (∀ this col table result parentTable currentColumn,
       pinParentTable this parentTable = Some table → table ≠ "" →
       compileExpression this (JParentColumn col) result parentTable currentColumn
       = Return (appendText result
                   (String "034" (table +:+ String "034" ("." +:+
                    String "034" (col +:+ String "034" EmptyString))))))
  ∧ compileExpression None (JString ("a" +:+ String "034" "b")) emptyResult None None
    = Return {| text := String "034" ("a" +:+ String "034" ("b" +:+
                        String "034" EmptyString));
                values := [] |}
  ∧ compileExpression None (JColumnNames (inl ["a" +:+ String "034" "b"; "c"]))
      emptyResult None None
    = Return {| text := String "034" ("a" +:+ String "034" ("b" +:+
                        String "034" (", " +:+ String "034" ("c" +:+
                        String "034" EmptyString))));
                values := [] |}
  ∧ compileExpression None
      (JObject ObjectPrototype
         [("k" +:+ String "034" "2", JParentColumn ("c" +:+ String "034" "d"));
          ("k1", JBoolean true)])
      emptyResult (Some ("t" +:+ String "034" "u")) None
    = Return {| text := "(" +:+ String "034" ("k" +:+ String "034" ("2" +:+
                        String "034" (" = " +:+
                        String "034" ("t" +:+ String "034" ("u" +:+
                        String "034" ("." +:+
                        String "034" ("c" +:+ String "034" ("d" +:+
                        String "034" (" AND " +:+
                        String "034" ("k1" +:+ String "034" " = $1)"))))))))));
                values := [JBoolean true] |}.
Proof.
  split; [|split; [|split; [|split; [|split; [|split; [|split]]]]]].
  - intros this name result pt cc Hq. simpl. by rewrite Hq, quoted_spelled.
  - intros this value result pt cc. simpl. unfold compileColumnNames.
    by rewrite fmap_quoted_spelled.
  - intros this proto props result pt cc Hne.
    rewrite compileExpression_Whereable.
    destruct (sortedKeys props) as [|k0 ks] eqn:Hks.
    { by apply sortedKeys_nil_inv in Hks. }
    f_equal. apply forEach_ext. intros j k r _. apply compileWhereValue_conjunct.
  - intros this column result pt Hc.
    by rewrite compileExpression_self_named, quoted_spelled.
  - intros this col table result pt cc Hpt Ht.
    rewrite (compileExpression_parent_named _ _ _ _ _ table) by done.
    by rewrite quoted_app_spelled, quoted_spelled.
  - vm_compute. reflexivity.
  - vm_compute. reflexivity.
  - vm_compute. reflexivity.
Qed.

Lemma C10_witness :
  (startsWithQuote ("a" +:+ String "034" "b") = false
   ∧ compileExpression None (JString ("a" +:+ String "034" "b")) emptyResult None None
     = Return (appendText emptyResult
                 (String "034" (("a" +:+ String "034" "b") +:+ String "034" EmptyString))))
  ∧ ("id" ≠ ""
     ∧ compileExpression None (JSymbol SymSelf) emptyResult None (Some "id")
       = Return (appendText emptyResult (String "034" ("id" +:+ String "034" EmptyString))))
  ∧ (pinParentTable (Some "authors") None = Some "authors" ∧ "authors" ≠ ""
     ∧ compileExpression (Some "authors") (JParentColumn "id") emptyResult None None
       = Return (appendText emptyResult
                   (String "034" ("authors" +:+ String "034" ("." +:+
                    String "034" ("id" +:+ String "034" EmptyString)))))).
Proof.
  pose proof C10_quoting_is_concatenation as (H1 & _ & _ & H4 & H5 & _).
  split; [split; [reflexivity|]|split; [split; [discriminate|]|
    split; [reflexivity|split; [discriminate|]]]].
  - exact (H1 None ("a" +:+ String "034" "b") emptyResult None None eq_refl).
  - exact (H4 None "id" emptyResult None ltac:(discriminate)).
  - exact (H5 (Some "authors") "id" "authors" emptyResult None None eq_refl
             ltac:(discriminate)).
Defined.

(** ** C6: [run] submits nothing when compilation fails *)

Lemma run_compile_throws {QueryResult RunResult : Type}
    (queryable : SQLResultType → Settled QueryResult) verbose this
    (runResultTransform : QueryResult → Settled RunResult) e r :
  compile0 this = Throw e r →
  run queryable verbose this runResultTransform = ([], Rejected e).
Proof. unfold run. by intros ->. Qed.

Lemma run_query_is_compiled {QueryResult RunResult : Type}
    (queryable : SQLResultType → Settled QueryResult) verbose this
    (runResultTransform : QueryResult → Settled RunResult) query :
  QueryCall query ∈ (run queryable verbose this runResultTransform).1 →
  compile0 this = Return query.
Proof.
  unfold run. destruct (compile0 this) as [r|e r]; simpl.
  - destruct (queryable r); simpl; intros [Hin|Hin]%elem_of_app.
    + destruct verbose; [|by apply elem_of_nil in Hin].
      apply list_elem_of_singleton in Hin. done.
    + apply list_elem_of_singleton in Hin. by injection Hin as ->.
    + destruct verbose; [|by apply elem_of_nil in Hin].
      apply list_elem_of_singleton in Hin. done.
    + apply list_elem_of_singleton in Hin. by injection Hin as ->.
  - by intros ?%elem_of_nil.
Qed.

(** C6: if compiling the fragment throws, [run] rejects with that same
    error and has no effect at all: [queryable.query] is never called; and
    any query that [run] does submit is the complete result of a
    compilation that returned.  Both kinds of compile error behave so. *)
Theorem C6_run_fails_fast :
  (∀ QueryResult RunResult (queryable : SQLResultType → Settled QueryResult) verbose
     this (runResultTransform : QueryResult → Settled RunResult) e r,
     compile0 this = Throw e r →
     run queryable verbose this runResultTransform = ([], Rejected e))
  ∧ (∀ QueryResult RunResult (queryable : SQLResultType → Settled QueryResult) verbose
       this (runResultTransform : QueryResult → Settled RunResult) query,
       QueryCall query ∈ (run queryable verbose this runResultTransform).1 →
       compile0 this = Return query)
  ∧ (∀ QueryResult RunResult (queryable : SQLResultType → Settled QueryResult) verbose
       (runResultTransform : QueryResult → Settled RunResult),
       run queryable verbose (sql ["UPDATE t SET n = "; " + 1"] [JSymbol SymSelf])
         runResultTransform
       = ([], Rejected selfError)
       ∧ run queryable verbose (sql ["SELECT "; ""] [JNumber 1]) runResultTransform
         = ([], Rejected (alienError "1"))).
Proof.
  split; [|split].
  - intros. by eapply run_compile_throws.
  - intros ? ? ? ? ? ? ?. apply run_query_is_compiled.
  - intros. split; by eapply run_compile_throws.
Qed.

Lemma C6_witness :
  (compile0 (sql ["SELECT "; ""] [JNumber 1])
   = Throw (alienError "1") {| text := "SELECT "; values := [] |}
   ∧ run (λ _, Fulfilled ()) true (sql ["SELECT "; ""] [JNumber 1]) (λ qr, Fulfilled qr)
     = ([], Rejected (alienError "1")))
  ∧ (QueryCall {| text := "SELECT 1"; values := [] |}
       ∈ (run (λ _, Fulfilled ()) true (sql ["SELECT 1"] []) (λ qr, Fulfilled qr)).1
     ∧ compile0 (sql ["SELECT 1"] []) = Return {| text := "SELECT 1"; values := [] |}).
Proof.
  assert (QueryCall {| text := "SELECT 1"; values := [] |}
            ∈ (run (λ _, Fulfilled ()) true (sql ["SELECT 1"] [])
                 (λ qr, Fulfilled qr)).1) as Hin.
  { vm_compute. apply elem_of_cons. right. apply elem_of_cons. by left. }
  split; split.
  - reflexivity.
  - exact (proj1 C6_run_fails_fast unit unit (λ _, Fulfilled ()) true
             (sql ["SELECT "; ""] [JNumber 1]) (λ qr, Fulfilled qr) (alienError "1")
             {| text := "SELECT "; values := [] |} eq_refl).
  - exact Hin.
  - exact (proj1 (proj2 C6_run_fails_fast) unit unit (λ _, Fulfilled ()) true
             (sql ["SELECT 1"] []) (λ qr, Fulfilled qr) _ Hin).
Defined.

(** * Two compilations over the store *)

Module HeapFacts.
Import Heap.
Local Open Scope heap_scope.

Section Simulation.
Variable σ0 : Store.
Hypothesis σ0_closed : closedStore σ0 = true.
Variables ra rb : loc.

Local Abbreviation Related := (Sim σ0 ra rb).
Local Abbreviation Alike := (SimM σ0 ra rb).

Lemma base_cell_closed l o : σ0 !! l = Some o → closedObj (length σ0) o = true.
Proof.
  intros Hl. unfold closedStore in σ0_closed. rewrite forallb_forall in σ0_closed.
  apply σ0_closed, list_elem_of_In, list_elem_of_lookup. eauto.
Qed.

Lemma SimM_ret : Alike ret ret.
Proof. by intros σa σb H. Qed.

Lemma SimM_raise s : Alike (raise s) (raise s).
Proof. by intros σa σb H. Qed.

Lemma SimM_seq ma mb ma' mb' :
  Alike ma mb → Alike ma' mb' → Alike (ma ;; ma') (mb ;; mb').
Proof.
  intros H1 H2 σa σb HS. unfold seqM. destruct (H1 σa σb HS) as [Ho HS'].
  destruct (ma σa) as [σa1 [sa|]], (mb σb) as [σb1 [sb|]]; simpl in *; try done.
  by apply H2.
Qed.

Lemma SimM_forEach {A} (fa fb : nat → A → M) xs i :
  (∀ j x, x ∈ xs → Alike (fa j x) (fb j x)) →
  Alike (forEachM fa i xs) (forEachM fb i xs).
Proof.
  revert i. induction xs as [|x xs IH]; intros i Hf; simpl; [apply SimM_ret|].
  apply SimM_seq; [apply Hf; left|]. apply IH. intros. apply Hf. by right.
Qed.

Lemma SimM_if (b : bool) ma mb ma' mb' :
  Alike ma mb → Alike ma' mb' →
  Alike (if b then ma else ma') (if b then mb else mb').
Proof. by destruct b. Qed.

(** Reading a cell of [σ0] gives the same object in both runs. *)
Lemma SimM_readCell l (ka kb : HObj → M) :
  l < length σ0 →
  (∀ o, σ0 !! l = Some o → Alike (ka o) (kb o)) →
  Alike (readCell l ka) (readCell l kb).
Proof.
  intros Hl Hk σa σb HS. unfold readCell.
  destruct (lookup_lt_is_Some_2 σ0 l Hl) as [o Ho].
  destruct (proj1 HS l o Ho) as [Ha Hb]. rewrite Ha, Hb. by apply Hk.
Qed.

Lemma Sim_cellOf σa σb v :
  Related σa σb → closedVal (length σ0) v = true →
  cellOf σa v = cellOf σ0 v ∧ cellOf σb v = cellOf σ0 v.
Proof.
  intros HS Hv. destruct v; try done. simpl in *. apply Nat.ltb_lt in Hv.
  destruct (lookup_lt_is_Some_2 σ0 l Hv) as [o Ho].
  destruct (proj1 HS l o Ho) as [-> ->]. by rewrite Ho.
Qed.

(** A test on the class of a value of [σ0] goes the same way in both runs. *)
Lemma SimM_withCell v (fa fb : option HObj → M) :
  closedVal (length σ0) v = true →
  (∀ c, Alike (fa c) (fb c)) →
  Alike (withCell v fa) (withCell v fb).
Proof.
  intros Hv Hf σa σb HS. unfold withCell. destruct (Sim_cellOf σa σb v HS Hv) as [Ha Hb].
  rewrite Ha, Hb. by apply Hf.
Qed.

Lemma setProp_text t lv t' :
  setProp [("text", HString t); ("values", HRef lv)] "text" (HString t')
  = [("text", HString t'); ("values", HRef lv)].
Proof. done. Qed.

Lemma SimM_appendText s : Alike (appendText ra s) (appendText rb s).
Proof.
  intros σa σb [Hbase (t & vs & lva & lvb & ? & ? & ? & ? & ? & ? & Ha & Hva & Hb & Hvb)].
  unfold appendText, readCell. rewrite Ha, Hb. unfold accumulator.
  replace (getProp [("text", HString t); ("values", HRef lva)] "text")
    with (Some (HString t)) by done.
  replace (getProp [("text", HString t); ("values", HRef lvb)] "text")
    with (Some (HString t)) by done.
  rewrite !setProp_text. simpl. split; [done|]. split.
  - intros l o Hl. pose proof (lookup_lt_Some _ _ _ Hl).
    destruct (Hbase l o Hl). rewrite !list_lookup_insert_ne by lia. done.
  - exists (t +:+ s), vs, lva, lvb. repeat split; try done.
    + apply list_lookup_insert_eq. by eapply lookup_lt_Some.
    + by rewrite list_lookup_insert_ne.
    + apply list_lookup_insert_eq. by eapply lookup_lt_Some.
    + by rewrite list_lookup_insert_ne.
Qed.

Lemma SimM_compileParameter v : Alike (compileParameter ra v) (compileParameter rb v).
Proof.
  intros σa σb HS. pose proof HS as
    [Hbase (t & vs & lva & lvb & ? & ? & ? & ? & ? & ? & Ha & Hva & Hb & Hvb)].
  unfold compileParameter, readCell. rewrite Ha, Hb. unfold accumulator.
  replace (getProp [("text", HString t); ("values", HRef lva)] "values")
    with (Some (HRef lva)) by done.
  replace (getProp [("text", HString t); ("values", HRef lvb)] "values")
    with (Some (HRef lvb)) by done.
  rewrite Hva, Hvb. apply SimM_appendText. split.
  - intros l o Hl. pose proof (lookup_lt_Some _ _ _ Hl).
    destruct (Hbase l o Hl). rewrite !list_lookup_insert_ne by lia. done.
  - exists t, (vs ++ [v]), lva, lvb. repeat split; try done.
    + by rewrite list_lookup_insert_ne.
    + apply list_lookup_insert_eq. by eapply lookup_lt_Some.
    + by rewrite list_lookup_insert_ne.
    + apply list_lookup_insert_eq. by eapply lookup_lt_Some.
Qed.

Lemma SimM_compileLiterals (fa fb : HVal → M) expressions literals :
  (∀ e, closedVal (length σ0) e = true → Alike (fa e) (fb e)) →
  forallb (closedVal (length σ0)) expressions = true →
  Alike (compileLiterals fa ra expressions literals)
       (compileLiterals fb rb expressions literals).
Proof.
  intros Hf. revert literals.
  induction expressions as [|e es IH]; intros [|lit lits] Hes; simpl;
    try apply SimM_ret.
  - by apply Hf.
  - simpl in Hes. apply andb_prop in Hes as [He Hes].
    apply SimM_seq; [by apply Hf|]. apply SimM_seq; [apply SimM_appendText|]. by apply IH.
Qed.

Lemma closedVal_getValue props k :
  forallb (λ kv : string * HVal, closedVal (length σ0) kv.2) props = true →
  closedVal (length σ0) (getValue props k) = true.
Proof.
  intros Hp. unfold getValue. destruct (getProp props k) as [v|] eqn:Hk; [|done].
  simpl. apply getProp_Some_elem in Hk. rewrite forallb_forall in Hp.
  by apply (Hp (k, v)), list_elem_of_In.
Qed.

(** Compiling a value of [σ0] into either accumulator completes alike and
    leaves the same text and values, and the objects of [σ0] as they were. *)
Lemma SimM_compileExpression fuel :
  ∀ this e parentTable currentColumn,
    closedVal (length σ0) e = true →
    Alike (compileExpression fuel this e ra parentTable currentColumn)
         (compileExpression fuel this e rb parentTable currentColumn).
Proof.
  induction fuel as [|fuel IH]; intros this e pt cc He; simpl; [apply SimM_raise|].
  destruct e as [| | | | |y| |l]; try apply SimM_raise.
  - apply SimM_appendText.
  - destruct y; try apply SimM_raise; [apply SimM_appendText|].
    unfold compileSelf. destruct cc; [|apply SimM_raise].
    apply SimM_if; [apply SimM_appendText|apply SimM_raise].
  - simpl in He. apply Nat.ltb_lt in He. apply SimM_readCell; [done|].
    intros o Ho%base_cell_closed. destruct o; simpl in Ho.
    + apply SimM_forEach. intros j x Hx. apply IH.
      rewrite forallb_forall in Ho. by apply Ho, list_elem_of_In.
    + apply andb_prop in Ho as [Ho _].
      apply SimM_seq; [apply SimM_appendText|]. apply SimM_compileLiterals; [|done].
      intros e He'. by apply IH.
    + apply SimM_compileParameter.
    + apply SimM_appendText.
    + unfold compileParentColumn. destruct (pinParentTable this pt); [|apply SimM_raise].
      apply SimM_if; [apply SimM_appendText|apply SimM_raise].
    + apply Nat.ltb_lt in Ho. unfold compileColumnNames. apply SimM_readCell; [done|].
      intros o _. destruct o; try apply SimM_raise; [|apply SimM_appendText].
      destruct (namesOf elements); [apply SimM_appendText|apply SimM_raise].
    + apply Nat.ltb_lt in Ho. apply SimM_readCell; [done|].
      intros o Hv%base_cell_closed. destruct o; try apply SimM_raise. simpl in Hv.
      apply SimM_forEach. intros j k _.
      apply SimM_seq; [apply SimM_if; [apply SimM_appendText|apply SimM_ret]|].
      pose proof (closedVal_getValue props k Hv) as Hk.
      apply SimM_withCell; [done|]. intros c.
      apply SimM_if; [by apply IH|apply SimM_compileParameter].
    + destruct (sortedKeys props) as [|k0 ks] eqn:Hks; [apply SimM_appendText|].
      apply SimM_seq; [apply SimM_appendText|].
      apply SimM_seq; [|apply SimM_appendText].
      apply SimM_forEach. intros j k _.
      apply SimM_seq; [apply SimM_if; [apply SimM_appendText|apply SimM_ret]|].
      apply SimM_readCell; [done|]. intros o' Ho'%base_cell_closed.
      set (cv := match o' with HObject _ props' => getValue props' k | _ => HUndefined end).
      assert (closedVal (length σ0) cv = true) as Hcv.
      { unfold cv. destruct o'; try done. by apply closedVal_getValue. }
      apply SimM_withCell; [done|]. intros c. apply SimM_if.
      * apply SimM_seq; [apply SimM_appendText|].
        apply SimM_seq; [by apply IH|apply SimM_appendText].
      * apply SimM_seq; [apply SimM_appendText|].
        apply SimM_if; [by apply IH|apply SimM_compileParameter].
Qed.

Lemma SimM_compile fuel this parentTable currentColumn :
  this < length σ0 →
  Alike (compile fuel this ra parentTable currentColumn)
       (compile fuel this rb parentTable currentColumn).
Proof.
  intros Hthis. unfold compile. apply SimM_readCell; [done|].
  intros o Ho%base_cell_closed. destruct o; try apply SimM_raise.
  simpl in Ho. apply andb_prop in Ho as [Ho _].
  apply SimM_seq; [apply SimM_appendText|]. apply SimM_compileLiterals; [|done].
  intros e He. by apply SimM_compileExpression.
Qed.

End Simulation.

Lemma readResult_accumulator (σ : Store) r t lv vs :
  σ !! r = Some (accumulator t lv) → σ !! lv = Some (HArray vs) →
  readResult σ r = Some (t, vs).
Proof. intros Hr Hlv. unfold readResult. rewrite Hr. simpl. by rewrite Hlv. Qed.

Lemma Sim_newResult (σ σa σb : Store) :
  (∀ l o, σ !! l = Some o → σa !! l = Some o ∧ σb !! l = Some o) →
  Sim σ (newResult σa).1 (newResult σb).1 (newResult σa).2 (newResult σb).2.
Proof.
  intros Hbase.
  assert (∀ τ : Store,
            (∀ l o, σ !! l = Some o → τ !! l = Some o) → length σ ≤ length τ) as Hlen.
  { intros τ Hτ. destruct (decide (length σ ≤ length τ)) as [|Hgt]; [done|].
    destruct (lookup_lt_is_Some_2 σ (length τ)) as [o Ho]; [lia|].
    apply Hτ, lookup_lt_Some in Ho. lia. }
  pose proof (Hlen σa (λ l o H, proj1 (Hbase l o H))).
  pose proof (Hlen σb (λ l o H, proj2 (Hbase l o H))).
  unfold newResult. simpl. split.
  - intros l o Hl. destruct (Hbase l o Hl).
    split; by apply lookup_app_l_Some.
  - exists "", [], (length σa), (length σb).
    repeat split; try lia.
    + rewrite lookup_app_r by lia. by replace (S (length σa) - length σa) with 1 by lia.
    + rewrite lookup_app_r by lia. by rewrite Nat.sub_diag.
    + rewrite lookup_app_r by lia. by replace (S (length σb) - length σb) with 1 by lia.
    + rewrite lookup_app_r by lia. by rewrite Nat.sub_diag.
Qed.

Example exampleStore_compiles :
  let (r, σ1) := newResult exampleStore in
  let (σ', o) := compile 3 1 r None None σ1 in
  o = None
  ∧ readResult σ' r
    = Some ("SELECT * FROM " +:+ quoted "users" +:+ " WHERE (" +:+ quoted "id" +:+ " = $1)",
            [HNumber 5])
  ∧ take 2 σ' = exampleStore.
Proof. vm_compute. done. Qed.

(** In a store whose objects refer only to each other, compile the
    fragment of cell [this] into a new empty accumulator, then once more,
    in the store the first run left, into another new empty accumulator,
    under the same context and with the same fuel.  Both runs complete
    alike, the two accumulators end with the same text and the same values,
    and every object that was in the store before is the same after each
    run. *)
Lemma compile_twice (σ : Store) (fuel : nat) (this : loc)
    (parentTable currentColumn : option string) :
  closedStore σ = true → this < length σ →
  let (r1, σ1) := newResult σ in
  let (σ1', o1) := compile fuel this r1 parentTable currentColumn σ1 in
  let (r2, σ2) := newResult σ1' in
  let (σ2', o2) := compile fuel this r2 parentTable currentColumn σ2 in
  o1 = o2
  ∧ is_Some (readResult σ1' r1)
  ∧ readResult σ2' r2 = readResult σ1' r1
  ∧ ∀ l o, σ !! l = Some o → σ1' !! l = Some o ∧ σ2' !! l = Some o.
Proof.
  intros Hclosed Hthis.
  destruct (newResult σ) as [r1 σ1] eqn:Hn1.
  destruct (compile fuel this r1 parentTable currentColumn σ1) as [σ1' o1] eqn:Hc1.
  destruct (newResult σ1') as [r2 σ2] eqn:Hn2.
  destruct (compile fuel this r2 parentTable currentColumn σ2) as [σ2' o2] eqn:Hc2.
  pose proof (Sim_newResult σ σ σ (λ l o H, conj H H)) as HS0.
  rewrite Hn1 in HS0. simpl in HS0.
  destruct (SimM_compile σ Hclosed r1 r1 fuel this parentTable currentColumn Hthis
              σ1 σ1 HS0) as [_ HS1].
  rewrite Hc1 in HS1. simpl in HS1.
  pose proof (Sim_newResult σ σ σ1' (λ l o H, conj H (proj1 (proj1 HS1 l o H)))) as HS2.
  rewrite Hn1, Hn2 in HS2. simpl in HS2.
  destruct (SimM_compile σ Hclosed r1 r2 fuel this parentTable currentColumn Hthis
              σ1 σ2 HS2) as [Ho HS3].
  rewrite Hc1, Hc2 in Ho, HS3. simpl in Ho, HS3.
  destruct HS3 as [Hbase (t & vs & lva & lvb & _ & _ & _ & _ & _ & _ & Ha & Hva & Hb & Hvb)].
  rewrite (readResult_accumulator _ _ _ _ _ Ha Hva),
    (readResult_accumulator _ _ _ _ _ Hb Hvb).
  repeat split; eauto; by apply Hbase.
Qed.

End HeapFacts.

(** * The two embeddings agree

    A value of the store that unfolds into a tree is compiled over the
    store, with fuel for the depth of the tree, exactly as the tree is:
    same completion, same text, and values that unfold into the same
    trees. *)

Lemma depth_elem (elements : list JSVal) e :
  e ∈ elements → depth e ≤ foldr (λ e d, depth e `max` d) 1 elements.
Proof.
  induction 1 as [|? ? ? _ IH]; simpl; [apply Nat.le_max_l|].
  etrans; [apply IH|apply Nat.le_max_r].
Qed.

Lemma depth_prop (props : list (string * JSVal)) k v :
  (k, v) ∈ props →
  depth v ≤ foldr (λ (kv : string * JSVal) d, (let (_, v) := kv in depth v) `max` d) 1 props.
Proof.
  induction props as [|[k' v'] props IH]; intros Hin; [by apply elem_of_nil in Hin|].
  apply elem_of_cons in Hin as [[= -> ->]|Hin]; simpl; [apply Nat.le_max_l|].
  etrans; [by apply IH|apply Nat.le_max_r].
Qed.

Lemma depth_pos (props : list (string * JSVal)) :
  1 ≤ foldr (λ (kv : string * JSVal) d, (let (_, v) := kv in depth v) `max` d) 1 props.
Proof.
  induction props as [|[] ? IH]; simpl; [done|]. etrans; [apply IH|apply Nat.le_max_r].
Qed.

Lemma depth_pos_list (elements : list JSVal) :
  1 ≤ foldr (λ e d, depth e `max` d) 1 elements.
Proof.
  induction elements as [|? ? IH]; simpl; [done|]. etrans; [apply IH|apply Nat.le_max_r].
Qed.

Lemma Repr_props_getProp σ props tprops k :
  Forall2 (λ kv kt, kv.1 = kt.1 ∧ Repr σ kv.2 kt.2) props tprops →
  match getProp props k, getProp tprops k with
  | Some v, Some t => Repr σ v t
  | None, None => True
  | _, _ => False
  end.
Proof.
  induction 1 as [|[k1 v] [k2 t] props tprops [Hk Hv] _ IH]; simpl in *; [done|].
  subst k2. destruct (getProp props k), (getProp tprops k); try done.
  by destruct (String.eqb k1 k).
Qed.

Lemma Repr_props_sortedKeys σ props tprops :
  Forall2 (λ kv kt, kv.1 = kt.1 ∧ Repr σ kv.2 kt.2) props tprops →
  sortedKeys props = sortedKeys tprops.
Proof.
  intros HF. apply sortedKeys_same_keys. intros k.
  pose proof (Repr_props_getProp σ props tprops k HF) as H.
  destruct (getProp props k), (getProp tprops k); try done.
Qed.

Lemma Repr_props_getValue σ props tprops k :
  Forall2 (λ kv kt, kv.1 = kt.1 ∧ Repr σ kv.2 kt.2) props tprops →
  Repr σ (Heap.getValue props k) (getValue tprops k).
Proof.
  intros HF. pose proof (Repr_props_getProp σ props tprops k HF) as H.
  unfold Heap.getValue, getValue.
  destruct (getProp props k), (getProp tprops k); try done. constructor.
Qed.

Lemma Repr_isFragment σ v t :
  Repr σ v t →
  Heap.isFragment (Heap.cellOf σ v)
  = match t with JSQLFragment _ _ _ => true | _ => false end.
Proof. intros H. inversion H; subst; simpl; try done; by rewrite H0. Qed.

Lemma Repr_isParentColumn σ v t :
  Repr σ v t →
  Heap.isParentColumn (Heap.cellOf σ v)
  = match t with JParentColumn _ => true | _ => false end.
Proof. intros H. inversion H; subst; simpl; try done; by rewrite H0. Qed.

Lemma Repr_isDefault σ v t :
  Repr σ v t →
  Heap.isDefault v = match t with JSymbol SymDefault => true | _ => false end.
Proof. intros H. inversion H; subst; simpl; done. Qed.

Section Refinement.
Variable σ0 : list Heap.HObj.
Variable r : nat.

Lemma Refines_ret : Refines σ0 r Heap.ret Return.
Proof. by intros σ res H. Qed.

Lemma Refines_throw e : Refines σ0 r (Heap.raise (Heap.SThrow e)) (Throw e).
Proof. by intros σ res H. Qed.

Lemma Refines_seq h1 h2 t1 t2 :
  Refines σ0 r h1 t1 → Refines σ0 r h2 t2 →
  Refines σ0 r (Heap.seqM h1 h2) (λ res, t1 res >>> t2).
Proof.
  intros H1 H2 σ res HA. specialize (H1 σ res HA). unfold Heap.seqM.
  destruct (t1 res) as [res1|e res1], (h1 σ) as [σ1 o1]; simpl in *;
    destruct H1 as [-> HA1]; [|done].
  by apply H2.
Qed.

Lemma Refines_ext h t t' : (∀ res, t res = t' res) → Refines σ0 r h t → Refines σ0 r h t'.
Proof. intros Ht H σ res HA. rewrite <- Ht. by apply H. Qed.

Lemma Refines_appendText s :
  Refines σ0 r (Heap.appendText r s) (λ res, Return (appendText res s)).
Proof.
  intros σ res [Hbase (lv & vs & ? & ? & ? & Hr & Hlv & Hvs)].
  unfold Heap.appendText, Heap.readCell. rewrite Hr. unfold Heap.accumulator.
  replace (getProp [("text", Heap.HString (text res)); ("values", Heap.HRef lv)] "text")
    with (Some (Heap.HString (text res))) by done.
  rewrite HeapFacts.setProp_text. simpl. split; [done|]. split.
  - intros l o Hl. pose proof (lookup_lt_Some _ _ _ Hl).
    rewrite list_lookup_insert_ne by lia. by apply Hbase.
  - exists lv, vs. repeat split; try done.
    + apply list_lookup_insert_eq. by eapply lookup_lt_Some.
    + by rewrite list_lookup_insert_ne.
Qed.

(** [h] after [result.text += s]. *)
Lemma Refines_after_appendText s h t :
  Refines σ0 r h t →
  Refines σ0 r (Heap.seqM (Heap.appendText r s) h) (λ res, t (appendText res s)).
Proof.
  intros H. apply (Refines_seq _ _ (λ res, Return (appendText res s)) t);
    [apply Refines_appendText|done].
Qed.

(** [result.text += s] after [h]. *)
Lemma Refines_then_appendText s h t :
  Refines σ0 r h t →
  Refines σ0 r (Heap.seqM h (Heap.appendText r s))
          (λ res, t res >>> λ res', Return (appendText res' s)).
Proof. intros H. apply Refines_seq; [done|apply Refines_appendText]. Qed.

(** The separator of a loop, written before every item but the first. *)
Lemma Refines_separator (i : nat) sep h t :
  Refines σ0 r h t →
  Refines σ0 r (Heap.seqM (if 0 <? i then Heap.appendText r sep else Heap.ret) h)
          (λ res, t (if 0 <? i then appendText res sep else res)).
Proof.
  intros H. destruct (0 <? i); [by apply Refines_after_appendText|].
  apply (Refines_seq _ _ Return t); [apply Refines_ret|done].
Qed.

Lemma Refines_compileParameter v t :
  Repr σ0 v t → Refines σ0 r (Heap.compileParameter r v) (compileParameter t).
Proof.
  intros Hv σ res HA.
  pose proof HA as [Hbase (lv & vs & ? & ? & ? & Hr & Hlv & Hvs)].
  unfold Heap.compileParameter, Heap.readCell, compileParameter.
  rewrite Hr. unfold Heap.accumulator.
  replace (getProp [("text", Heap.HString (text res)); ("values", Heap.HRef lv)] "values")
    with (Some (Heap.HRef lv)) by done.
  rewrite Hlv.
  rewrite !length_app, (Forall2_length _ _ _ Hvs).
  apply (Refines_appendText _ _
           {| text := text res; values := values res ++ [t] |}).
  split.
  - intros l o Hl. pose proof (lookup_lt_Some _ _ _ Hl).
    rewrite list_lookup_insert_ne by lia. by apply Hbase.
  - exists lv, (vs ++ [v]). repeat split; try done.
    + by rewrite list_lookup_insert_ne.
    + apply list_lookup_insert_eq. by eapply lookup_lt_Some.
    + apply Forall2_app; [done|]. by constructor.
Qed.

Lemma Refines_readCell l o k t :
  σ0 !! l = Some o → Refines σ0 r (k o) t → Refines σ0 r (Heap.readCell l k) t.
Proof.
  intros Hl Hk σ res HA. unfold Heap.readCell.
  rewrite (proj1 HA l o Hl). by apply Hk.
Qed.

Lemma AccRel_cellOf σ res v t :
  AccRel σ0 r σ res → Repr σ0 v t → Heap.cellOf σ v = Heap.cellOf σ0 v.
Proof.
  intros [Hbase _] Hv. inversion Hv; subst; simpl; try done;
    match goal with H : σ0 !! _ = Some _ |- _ => rewrite H; by apply Hbase end.
Qed.

Lemma Refines_withCell v tv k t :
  Repr σ0 v tv → Refines σ0 r (k (Heap.cellOf σ0 v)) t → Refines σ0 r (Heap.withCell v k) t.
Proof.
  intros Hv Hk σ res HA. unfold Heap.withCell.
  rewrite (AccRel_cellOf σ res v tv HA Hv). by apply Hk.
Qed.

Lemma Refines_forEach {A} (h : nat → A → Heap.M)
    (t : nat → A → SQLResultType → Completion) xs i :
  (∀ j x, x ∈ xs → Refines σ0 r (h j x) (t j x)) →
  Refines σ0 r (Heap.forEachM h i xs) (forEach t i xs).
Proof.
  revert i. induction xs as [|x xs IH]; intros i Hx; simpl; [apply Refines_ret|].
  apply (Refines_seq _ _ (t i x) (forEach t (S i) xs)); [apply Hx; left|].
  apply IH. intros. apply Hx. by right.
Qed.

Lemma Refines_forEach2 {A B} (h : nat → A → Heap.M)
    (t : nat → B → SQLResultType → Completion) xs ys i :
  Forall2 (λ x y, ∀ j, Refines σ0 r (h j x) (t j y)) xs ys →
  Refines σ0 r (Heap.forEachM h i xs) (forEach t i ys).
Proof.
  intros HF. revert i. induction HF as [|x y xs ys Hxy _ IH]; intros i; simpl;
    [apply Refines_ret|].
  apply (Refines_seq _ _ (t i y) (forEach t (S i) ys)); [apply Hxy|apply IH].
Qed.

Lemma Refines_compileLiterals (h : Heap.HVal → Heap.M)
    (t : JSVal → SQLResultType → Completion) es ts literals :
  Forall2 (λ e t', Refines σ0 r (h e) (t t')) es ts →
  Refines σ0 r (h Heap.HUndefined) (throwAlien "undefined") →
  Refines σ0 r (Heap.compileLiterals h r es literals) (compileLiterals t ts literals).
Proof.
  intros HF Hundef. revert literals.
  induction HF as [|e t' es ts He _ IH]; intros [|lit lits]; simpl;
    try apply Refines_ret; [done|].
  apply (Refines_seq _ _ (t t')
           (λ res, compileLiterals t ts lits (appendText res lit))); [done|].
  by apply Refines_after_appendText.
Qed.
End Refinement.

Section CompileRefines.
Variable σ0 : list Heap.HObj.
Variable r : nat.

Lemma Forall2_Repr_refines (P Q : JSVal → Prop) es ts :
  Forall2 (Repr σ0) es ts → Forall P ts → Forall Q ts →
  Forall2 (λ e t, Repr σ0 e t ∧ P t ∧ Q t) es ts.
Proof.
  induction 1 as [|e t es ts He _ IH]; intros HP HQ; [constructor|].
  apply Forall_cons in HP as [Ht HP]. apply Forall_cons in HQ as [Ht' HQ].
  constructor; [done|by apply IH].
Qed.

Ltac read_cell :=
  match goal with
  | H : σ0 !! ?l = Some _ |- Refines _ _ (Heap.readCell ?l _) _ =>
      apply (Refines_readCell _ _ _ _ _ _ H)
  end.

Ltac find_props :=
  match goal with
  | H : Forall2 (λ kv kt, kv.1 = kt.1 ∧ Repr σ0 kv.2 kt.2) _ _ |- _ =>
      pose proof H as Hprops
  end.

(** With fuel for its depth, a value that unfolds into a tree is compiled
    over the store as the tree is compiled. *)
Lemma compileExpression_refines t :
  ∀ e fuel this parentTable currentColumn,
    Repr σ0 e t → depth t ≤ fuel →
    Refines σ0 r (Heap.compileExpression fuel this e r parentTable currentColumn)
      (λ res, compileExpression this t res parentTable currentColumn).
Proof.
  induction t as
    [| | | | s | y | | elements IH | literals expressions pinned IH | value _
     | value | value | value _ | value IH | proto props IH] using JSVal_ind;
    intros e [|fuel] this pt cc He Hd; simpl in Hd; try lia;
    inversion He; subst; simpl;
    try apply Refines_throw; try apply Refines_appendText.
  - (* symbol *)
    destruct y; try apply Refines_throw; [apply Refines_appendText|].
    unfold Heap.compileSelf, compileSelf. destruct cc; [|apply Refines_throw].
    destruct (truthy (Some s)); [apply Refines_appendText|apply Refines_throw].
  - (* array *)
    read_cell. apply Refines_forEach2.
    assert (Forall (λ t, depth t ≤ fuel) elements) as Hdepth.
    { apply Forall_forall. intros t Ht%depth_elem. lia. }
    pose proof (Forall2_Repr_refines _ _ _ _ ltac:(eassumption) IH Hdepth) as HF.
    apply (Forall2_impl _ _ _ _ HF). intros x y [Hxy [Hy Hdy]] j. by apply Hy.
  - (* fragment *)
    read_cell.
    apply (Refines_after_appendText σ0 r (nth 0 literals "undefined") _
             (compileLiterals _ expressions (tail literals))).
    assert (Forall (λ t, depth t ≤ fuel) expressions) as Hdepth.
    { apply Forall_forall. intros t Ht%depth_elem. lia. }
    pose proof (Forall2_Repr_refines _ _ _ _ ltac:(eassumption) IH Hdepth) as HF.
    apply Refines_compileLiterals.
    + apply (Forall2_impl _ _ _ _ HF). intros x y [Hxy [Hy Hdy]]. by apply Hy.
    + pose proof (depth_pos_list expressions). destruct fuel; [lia|]. simpl.
      apply Refines_throw.
  - (* Parameter *)
    read_cell. by apply Refines_compileParameter.
  - (* raw string *)
    read_cell. apply Refines_appendText.
  - (* ParentColumn *)
    read_cell.
    unfold Heap.compileParentColumn, compileParentColumn.
    destruct (pinParentTable this pt) as [tb|]; [|apply Refines_throw].
    destruct (truthy (Some tb)); [apply Refines_appendText|apply Refines_throw].
  - (* ColumnNames of an array *)
    read_cell. unfold Heap.compileColumnNames.
    read_cell. match goal with H : Heap.namesOf _ = Some _ |- _ => rewrite H end.
    apply Refines_appendText.
  - (* ColumnNames of an object *)
    find_props. read_cell. unfold Heap.compileColumnNames.
    read_cell. unfold compileColumnNames, columnNamesOf.
    rewrite (Repr_props_sortedKeys _ _ _ Hprops). apply Refines_appendText.
  - (* ColumnValues *)
    find_props. read_cell. read_cell.
    eapply Refines_ext;
      [intros res; symmetry; exact (compileExpression_ColumnValues this value res pt cc)|].
    cbv beta.
    rewrite (Repr_props_sortedKeys _ _ _ Hprops). apply Refines_forEach. intros j k Hk.
    apply (Refines_separator σ0 r j ", " _
             (λ res, compileColumnValue this (getValue value k) res
                       (pinParentTable this pt) k)).
    pose proof (Repr_props_getValue _ _ _ k Hprops) as Hkv.
    apply (Refines_withCell _ _ _ _ _ _ Hkv).
    rewrite (Repr_isFragment _ _ _ Hkv), (Repr_isDefault _ _ _ Hkv).
    apply elem_of_sortedKeys in Hk as [tv Htv]. unfold getValue in *. rewrite Htv in *.
    simpl in *. rewrite Forall_forall in IH.
    pose proof (IH (k, tv) (getProp_Some_elem _ _ _ Htv)) as IHtv. simpl in IHtv.
    pose proof (depth_prop _ _ _ (getProp_Some_elem _ _ _ Htv)) as Hdtv.
    unfold compileColumnValue.
    destruct tv as [| | | | |[]| | | | | | | | |];
      try (by apply Refines_compileParameter); simpl orb; cbv iota;
      apply IHtv; try done; lia.
  - (* Whereable *)
    find_props. pose proof ltac:(eassumption) : σ0 !! _ = Some (Heap.HObject _ _) as Hcell.
    read_cell.
    eapply Refines_ext;
      [intros res; symmetry;
       exact (compileExpression_Whereable this proto props res pt cc)|].
    cbv beta.
    rewrite (Repr_props_sortedKeys _ _ _ Hprops).
    destruct (sortedKeys props) as [|k0 ks] eqn:Hks; [apply Refines_appendText|].
    rewrite <- Hks.
    apply (Refines_after_appendText σ0 r "(" _
             (λ res, forEach _ 0 (sortedKeys props) res
                     >>> λ res', Return (appendText res' ")"))).
    apply Refines_then_appendText. apply Refines_forEach. intros j k Hk.
    apply (Refines_separator σ0 r j " AND " _
             (λ res, compileWhereValue this (getValue props k) res
                       (pinParentTable this pt) k)).
    apply (Refines_readCell _ _ _ _ _ _ Hcell).
    pose proof (Repr_props_getValue _ _ _ k Hprops) as Hkv.
    apply (Refines_withCell _ _ _ _ _ _ Hkv).
    rewrite (Repr_isFragment _ _ _ Hkv), (Repr_isParentColumn _ _ _ Hkv).
    apply elem_of_sortedKeys in Hk as [tv Htv]. unfold getValue in *. rewrite Htv in *.
    simpl in *. rewrite Forall_forall in IH.
    pose proof (IH (k, tv) (getProp_Some_elem _ _ _ Htv)) as IHtv. simpl in IHtv.
    pose proof (depth_prop _ _ _ (getProp_Some_elem _ _ _ Htv)) as Hdtv.
    unfold compileWhereValue.
    destruct tv;
      try (apply (Refines_after_appendText σ0 r (quoted k +:+ " = ") _
                    (compileParameter _)); by apply Refines_compileParameter).
    + apply (Refines_after_appendText σ0 r "(" _
               (λ res, compileExpression this (JSQLFragment _ _ _) res _ _
                       >>> λ res', Return (appendText res' ")"))).
      apply Refines_then_appendText. apply IHtv; [done|lia].
    + apply (Refines_after_appendText σ0 r (quoted k +:+ " = ") _
               (λ res, compileExpression this (JParentColumn _) res _ _)).
      apply IHtv; [done|lia].
Qed.
End CompileRefines.

Lemma AccRel_newResult (σ : list Heap.HObj) :
  AccRel σ (Heap.newResult σ).1 (Heap.newResult σ).2 emptyResult.
Proof.
  unfold Heap.newResult. simpl. split.
  - intros l o Hl. by apply lookup_app_l_Some.
  - exists (length σ), []. repeat split; try lia.
    + rewrite lookup_app_r by lia. by replace (S (length σ) - length σ) with 1 by lia.
    + rewrite lookup_app_r by lia. by rewrite Nat.sub_diag.
    + constructor.
Qed.

Lemma AccRel_readResult σ0 r σ res :
  AccRel σ0 r σ res →
  ∃ vs, Heap.readResult σ r = Some (text res, vs) ∧ Forall2 (Repr σ0) vs (values res).
Proof.
  intros [_ (lv & vs & _ & _ & _ & Hr & Hlv & Hvs)]. exists vs.
  split; [by apply (HeapFacts.readResult_accumulator _ _ _ lv)|done].
Qed.

(** With fuel for its depth, the fragment of cell [this], which unfolds
    into the tree [f], is compiled into a new accumulator as [f] is
    compiled from the empty result. *)
Lemma compile_refines σ fuel this f parentTable currentColumn :
  Repr σ (Heap.HRef this) (fragmentValue f) →
  depth (fragmentValue f) ≤ S fuel →
  let (r, σ1) := Heap.newResult σ in
  let (σ', o) := Heap.compile fuel this r parentTable currentColumn σ1 in
  ∃ vs, Forall2 (Repr σ) vs
          (values match compile f emptyResult parentTable currentColumn with
                  | Return res | Throw _ res => res
                  end)
    ∧ Heap.readResult σ' r
      = Some (text match compile f emptyResult parentTable currentColumn with
                   | Return res | Throw _ res => res
                   end, vs)
    ∧ o = match compile f emptyResult parentTable currentColumn with
          | Return _ => None
          | Throw e _ => Some (Heap.SThrow e)
          end.
Proof.
  intros Hrepr Hdepth.
  pose proof (AccRel_newResult σ) as HA.
  destruct (Heap.newResult σ) as [r σ1] eqn:Hn. simpl in HA.
  pose proof (compileExpression_refines σ r _ _ (S fuel) None parentTable currentColumn
                Hrepr Hdepth σ1 emptyResult HA) as Href.
  cbv beta in Href. rewrite <- compile_compileExpression in Href.
  assert (Heap.compileExpression (S fuel) None (Heap.HRef this) r parentTable
            currentColumn σ1
          = Heap.compile fuel this r parentTable currentColumn σ1) as Heq.
  { inversion Hrepr; subst. simpl. unfold Heap.compile, Heap.readCell.
    by rewrite (proj1 HA _ _ ltac:(eassumption)). }
  rewrite Heq in Href.
  destruct (Heap.compile fuel this r parentTable currentColumn σ1) as [σ' o].
  simpl in Href.
  destruct (compile f emptyResult parentTable currentColumn) as [res|e res];
    destruct Href as [-> (vs & Hread & Hvs)%AccRel_readResult]; eauto.
Qed.

(** The store of the example unfolds into the fragment of the scenario. *)
Lemma exampleStore_Repr :
  Repr Heap.exampleStore (Heap.HRef 1) (fragmentValue selectUsers).
Proof.
  eapply Repr_fragment; [reflexivity|].
  repeat constructor. eapply Repr_object; [reflexivity|]. repeat constructor.
Qed.

(** ** C7: compiling twice *)

(** C7: compile the fragment of cell [this] into a new empty accumulator,
    then once more, in the store the first run left, into another new
    empty accumulator, under the same context.  Both runs complete alike
    (they return, or throw the same error), the two accumulators end with
    the same text and the same values, element by element, and every object
    that was in the store before, the fragment with its literals,
    expressions, pinned parent table and result transform among them, is
    the same after each run.  With fuel for its depth, a fragment that
    unfolds into a tree completes, with the text and the values that
    [compile] gives for the tree, which depend on nothing but the tree and
    the context. *)
Theorem C7_compile_twice :
  (∀ (σ : list Heap.HObj) fuel this parentTable currentColumn,
     Heap.closedStore σ = true → this < length σ →
     let (r1, σ1) := Heap.newResult σ in
     let (σ1', o1) := Heap.compile fuel this r1 parentTable currentColumn σ1 in
     let (r2, σ2) := Heap.newResult σ1' in
     let (σ2', o2) := Heap.compile fuel this r2 parentTable currentColumn σ2 in
     o1 = o2
     ∧ is_Some (Heap.readResult σ1' r1)
     ∧ Heap.readResult σ2' r2 = Heap.readResult σ1' r1
     ∧ ∀ l o, σ !! l = Some o → σ1' !! l = Some o ∧ σ2' !! l = Some o)
  ∧ (∀ (σ : list Heap.HObj) fuel this f parentTable currentColumn,
       Repr σ (Heap.HRef this) (fragmentValue f) →
       depth (fragmentValue f) ≤ S fuel →
       let (r, σ1) := Heap.newResult σ in
       let (σ', o) := Heap.compile fuel this r parentTable currentColumn σ1 in
       ∃ vs, Forall2 (Repr σ) vs
               (values match compile f emptyResult parentTable currentColumn with
                       | Return res | Throw _ res => res
                       end)
         ∧ Heap.readResult σ' r
           = Some (text match compile f emptyResult parentTable currentColumn with
                        | Return res | Throw _ res => res
                        end, vs)
         ∧ o = match compile f emptyResult parentTable currentColumn with
               | Return _ => None
               | Throw e _ => Some (Heap.SThrow e)
               end).
Proof.
  split.
  - intros. by apply HeapFacts.compile_twice.
  - intros. by apply compile_refines.
Qed.

Lemma C7_witness :
  (Heap.closedStore Heap.exampleStore = true
   ∧ 1 < length Heap.exampleStore
   ∧ let (r1, σ1) := Heap.newResult Heap.exampleStore in
     let (σ1', o1) := Heap.compile 3 1 r1 None None σ1 in
     let (r2, σ2) := Heap.newResult σ1' in
     let (σ2', o2) := Heap.compile 3 1 r2 None None σ2 in
     o1 = o2
     ∧ is_Some (Heap.readResult σ1' r1)
     ∧ Heap.readResult σ2' r2 = Heap.readResult σ1' r1
     ∧ ∀ l o, Heap.exampleStore !! l = Some o → σ1' !! l = Some o ∧ σ2' !! l = Some o)
  ∧ (depth (fragmentValue selectUsers) ≤ 4
     ∧ let (r, σ1) := Heap.newResult Heap.exampleStore in
       let (σ', o) := Heap.compile 3 1 r None None σ1 in
       ∃ vs, Forall2 (Repr Heap.exampleStore) vs
               (values match compile selectUsers emptyResult None None with
                       | Return res | Throw _ res => res
                       end)
         ∧ Heap.readResult σ' r
           = Some (text match compile selectUsers emptyResult None None with
                        | Return res | Throw _ res => res
                        end, vs)
         ∧ o = match compile selectUsers emptyResult None None with
               | Return _ => None
               | Throw e _ => Some (Heap.SThrow e)
               end).
Proof.
  split.
  - split; [reflexivity|]. split; [vm_compute; lia|].
    exact (proj1 C7_compile_twice Heap.exampleStore 3 1 None None eq_refl
             ltac:(vm_compute; lia)).
  - split; [vm_compute; lia|].
    exact (proj2 C7_compile_twice Heap.exampleStore 3 1 selectUsers None None
             exampleStore_Repr ltac:(vm_compute; lia)).
Defined.

(** * Further properties of the compiler *)

(** ** The accumulator only grows *)

Lemma Grows_ret r : Grows [] r (Return r).
Proof.
  split; simpl; [|by rewrite app_nil_r]. exists "". by rewrite append_nil_r.
Qed.

Lemma Grows_throw vs e r : Grows vs r (Throw e r).
Proof.
  split; simpl.
  - exists "". by rewrite append_nil_r.
  - exists []. split; [apply prefix_nil|by rewrite app_nil_r].
Qed.

Lemma Grows_seq vs1 vs2 r c k :
  Grows vs1 r c → (∀ r1, c = Return r1 → Grows vs2 r1 (k r1)) →
  Grows (vs1 ++ vs2) r (c >>> k).
Proof.
  intros [[s1 Ht1] Hv1] Hk. destruct c as [r1|e r1]; simpl in *.
  - destruct (Hk r1 eq_refl) as [[s2 Ht2] Hv2]. split.
    + exists (s1 +:+ s2). by rewrite Ht2, Ht1, append_assoc.
    + destruct (k r1) as [r2|e r2].
      * by rewrite Hv2, Hv1, app_assoc.
      * destruct Hv2 as (vs' & Hp & ->). exists (vs1 ++ vs'). split.
        -- by apply prefix_app.
        -- by rewrite Hv1, app_assoc.
  - split; [by exists s1|]. destruct Hv1 as (vs' & Hp & ->). exists vs'. split; [|done].
    by apply prefix_app_r.
Qed.

Lemma Grows_appendText r s : Grows [] r (Return (appendText r s)).
Proof. split; simpl; [by exists s|by rewrite app_nil_r]. Qed.

Lemma Grows_from_appendText vs r s c : Grows vs (appendText r s) c → Grows vs r c.
Proof.
  intros H. change c with (Return (appendText r s) >>> λ _, c).
  change vs with ([] ++ vs). apply Grows_seq; [apply Grows_appendText|].
  by intros r1 [= <-].
Qed.

Lemma Grows_then_appendText vs r s c :
  Grows vs r c → Grows vs r (c >>> λ r', Return (appendText r' s)).
Proof.
  intros H. rewrite <- (app_nil_r vs). apply Grows_seq; [done|].
  intros. apply Grows_appendText.
Qed.

Lemma Grows_compileParameter v r : Grows [v] r (compileParameter v r).
Proof.
  split; simpl; [|done].
  by exists ("$" +:+ stringOfLength (length (values r ++ [v]))).
Qed.

Lemma forEach_Grows {A} (body : nat → A → SQLResultType → Completion)
    (contribution : A → list JSVal) xs :
  Forall (λ x, ∀ i r, Grows (contribution x) r (body i x r)) xs →
  ∀ i r, Grows (flat_map contribution xs) r (forEach body i xs r).
Proof.
  induction 1 as [|x xs Hx _ IH]; intros i r; simpl.
  - apply Grows_ret.
  - apply Grows_seq; [apply Hx|]. intros. apply IH.
Qed.

Lemma compileLiterals_Grows compileExpr parametersOf expressions :
  Forall (λ e, ∀ r, Grows (parametersOf e) r (compileExpr e r)) expressions →
  ∀ literals r,
    Grows (literalParameters parametersOf expressions literals) r
      (compileLiterals compileExpr expressions literals r).
Proof.
  induction 1 as [|e es He _ IH]; intros [|lit lits] r; simpl;
    try apply Grows_ret; try apply Grows_throw.
  apply Grows_seq; [apply He|]. intros r1 _. eapply Grows_from_appendText, IH.
Qed.

(** Whatever the expression, the context and the outcome: the text only
    gains a suffix, and the values pushed are those of [parameterValues],
    all of them on return and the first few on a throw. *)
Lemma compileExpression_Grows expression :
  ∀ this result parentTable currentColumn,
    Grows (parameterValues expression) result
      (compileExpression this expression result parentTable currentColumn).
Proof.
  induction expression as
    [| | | | s | y | | elements IH | literals expressions pinned IH | value _
     | value | value | value _ | value IH | proto props IH] using JSVal_ind;
    intros this result pt cc;
    try apply Grows_throw; try apply Grows_appendText.
  - (* symbol *)
    destruct y; simpl; try apply Grows_throw; try apply Grows_appendText.
    unfold compileSelf. destruct cc as [c|]; [|apply Grows_throw].
    destruct (truthy _); [apply Grows_appendText|apply Grows_throw].
  - (* array *)
    rewrite compileExpression_array. apply forEach_Grows.
    eapply Forall_impl; [exact IH|]. intros e He _ r. apply He.
  - (* fragment *)
    simpl. eapply Grows_from_appendText, compileLiterals_Grows.
    eapply Forall_impl; [exact IH|]. intros e He r. apply He.
  - (* Parameter *)
    apply Grows_compileParameter.
  - (* ParentColumn *)
    simpl. unfold compileParentColumn. destruct (pinParentTable this pt); [|apply Grows_throw].
    destruct (truthy _); [apply Grows_appendText|apply Grows_throw].
  - (* ColumnValues *)
    rewrite compileExpression_ColumnValues, parameterValues_ColumnValues.
    apply forEach_Grows, Forall_forall. intros k Hk i r.
    apply elem_of_sortedKeys in Hk as [v Hv]. unfold getValue. rewrite Hv. simpl.
    rewrite Forall_forall in IH.
    pose proof (IH (k, v) (getProp_Some_elem _ _ _ Hv)) as IHv. simpl in IHv.
    assert (∀ c, Grows (columnValueParameters v)
                   (if 0 <? i then appendText r ", " else r) c →
                 Grows (columnValueParameters v) r c) as Hsep.
    { destruct (0 <? i); [eapply Grows_from_appendText|done]. }
    apply Hsep. unfold compileColumnValue.
    destruct v as [| | | | |[]| | | | | | | | |];
      try apply Grows_compileParameter; try apply IHv.
  - (* Whereable *)
    rewrite compileExpression_Whereable, parameterValues_Whereable.
    destruct (sortedKeys props) as [|k0 ks] eqn:Hks; [apply Grows_appendText|].
    rewrite <- Hks. apply Grows_then_appendText. eapply Grows_from_appendText.
    apply forEach_Grows, Forall_forall. intros k Hk i r.
    apply elem_of_sortedKeys in Hk as [v Hv]. unfold getValue. rewrite Hv. simpl.
    rewrite Forall_forall in IH.
    pose proof (IH (k, v) (getProp_Some_elem _ _ _ Hv)) as IHv. simpl in IHv.
    assert (∀ c, Grows (whereValueParameters v)
                   (if 0 <? i then appendText r " AND " else r) c →
                 Grows (whereValueParameters v) r c) as Hsep.
    { destruct (0 <? i); [eapply Grows_from_appendText|done]. }
    apply Hsep. unfold compileWhereValue.
    destruct v; try (eapply Grows_from_appendText, Grows_compileParameter).
    + apply Grows_then_appendText. eapply Grows_from_appendText, IHv.
    + eapply Grows_from_appendText. simpl. unfold compileParentColumn.
      destruct (pinParentTable this _); [|apply Grows_throw].
      destruct (truthy _); [apply Grows_appendText|apply Grows_throw].
Qed.

(** ** What compiling an expression reaches *)

Lemma elem_of_take_inv {A} n (xs : list A) x : x ∈ take n xs → x ∈ xs.
Proof. intros H. rewrite <- (take_drop n xs). apply elem_of_app. by left. Qed.

Lemma reaches_self p e : p e = true → reaches p e = true.
Proof. intros H. destruct e; simpl; by rewrite H. Qed.

Lemma reachesLiterals_elem q missing expressions literals e :
  e ∈ take (length literals) expressions → q e = true →
  reachesLiterals q missing expressions literals = true.
Proof.
  revert literals. induction expressions as [|e' es IH]; intros [|lit lits]; simpl;
    try by intros ?%elem_of_nil.
  intros [->|He]%elem_of_cons Hq; [by rewrite Hq|].
  rewrite (IH lits); [apply orb_true_r|done..].
Qed.

Lemma reachesLiterals_missing q expressions literals :
  length expressions < length literals →
  reachesLiterals q true expressions literals = true.
Proof.
  revert literals. induction expressions as [|e es IH]; intros [|lit lits]; simpl;
    intros H; try done; try lia.
  rewrite IH; [apply orb_true_r|lia].
Qed.

Lemma reaches_expression p literals expressions pinned e :
  e ∈ take (length (tail literals)) expressions → reaches p e = true →
  reaches p (JSQLFragment literals expressions pinned) = true.
Proof.
  intros He Hp. simpl. erewrite reachesLiterals_elem; [apply orb_true_r|done..].
Qed.

Lemma reaches_element p elements e :
  e ∈ elements → reaches p e = true → reaches p (JArray elements) = true.
Proof.
  intros He Hp. simpl. apply orb_true_iff. right. apply existsb_exists.
  exists e. by rewrite <- list_elem_of_In.
Qed.

Lemma reaches_columnValue p value k v :
  (k, v) ∈ value → plainColumnValue v = false → reaches p v = true →
  reaches p (JColumnValues value) = true.
Proof.
  intros He Hv Hp. simpl. apply orb_true_iff. right. apply existsb_exists.
  exists (k, v). rewrite <- list_elem_of_In. split; [done|].
  by destruct v as [| | | | |[]| | | | | | | | |].
Qed.

Lemma reaches_whereValue p proto props k v :
  (k, v) ∈ props → plainWhereValue v = false → reaches p v = true →
  reaches p (JObject proto props) = true.
Proof.
  intros He Hv Hp. simpl. apply orb_true_iff. right. apply existsb_exists.
  exists (k, v). rewrite <- list_elem_of_In. split; [done|]. by destruct v.
Qed.

Lemma Blames_lift err e e' :
  (∀ p, reaches p e = true → reaches p e' = true) → Blames err e → Blames err e'.
Proof. intros H [[-> ?]|[[-> ?]|[? ?]]]; unfold Blames; auto 6. Qed.

Lemma Blames_alien description e :
  isAlien e = true → Blames (alienError description) e.
Proof.
  intros H. right. right. split; [left; by exists description|by apply reaches_self].
Qed.

Lemma Blames_TypeError message e : isAlien e = true → Blames (TypeError message) e.
Proof.
  intros H. right. right. split; [right; by exists message|by apply reaches_self].
Qed.

(** ** The loops, when they throw *)

Lemma forEach_throws {A} (body : nat → A → SQLResultType → Completion) xs :
  ∀ i r err r', forEach body i xs r = Throw err r' →
    ∃ x j r1, x ∈ xs ∧ body j x r1 = Throw err r'.
Proof.
  induction xs as [|x xs IH]; intros i r err r'; simpl; [done|].
  destruct (body i x r) as [r1|err1 r1] eqn:Hb; simpl.
  - intros (x' & j & r2 & Hx & Hj)%IH. exists x', j, r2. split; [by right|done].
  - intros [= -> ->]. exists x, i, r. split; [by left|done].
Qed.

Lemma compileLiterals_throws compileExpr expressions :
  ∀ literals r err r',
    compileLiterals compileExpr expressions literals r = Throw err r' →
    (∃ e r1, e ∈ take (length literals) expressions ∧ compileExpr e r1 = Throw err r') ∨
    (err = alienError "undefined" ∧ length expressions < length literals).
Proof.
  induction expressions as [|e es IH]; intros [|lit lits] r err r'; simpl; try done.
  - intros [= <- _]. right. split; [done|lia].
  - destruct (compileExpr e r) as [r1|err1 r1] eqn:Hc; simpl.
    + intros [(e' & r2 & He' & Hc')|[-> Hlen]]%IH.
      * left. exists e', r2. split; [by right|done].
      * right. split; [done|lia].
    + intros [= -> ->]. left. exists e, r. split; [by left|done].
Qed.

Lemma compileLiterals_ext f g expressions :
  ∀ literals r,
    (∀ e r, e ∈ take (length literals) expressions → f e r = g e r) →
    compileLiterals f expressions literals r = compileLiterals g expressions literals r.
Proof.
  induction expressions as [|e es IH]; intros [|lit lits] r H; simpl; try done.
  rewrite (H e r) by (by left). destruct (g e r); simpl; [|done].
  apply IH. intros e' r' He'. apply H. by right.
Qed.

(** ** Every error has its cause *)

Lemma compileExpression_Blames expression :
  ∀ this result parentTable currentColumn err r',
    compileExpression this expression result parentTable currentColumn = Throw err r' →
    Blames err expression.
Proof.
  induction expression as
    [| | | | s | y | | elements IH | literals expressions pinned IH | value _
     | value | value | value _ | value IH | proto props IH] using JSVal_ind;
    intros this result pt cc err r'; simpl;
    try (intros [= <- _]; by (apply Blames_alien || apply Blames_TypeError));
    try done.
  - (* symbol *)
    destruct y; simpl; try done;
      try (intros [= <- _]; by apply Blames_TypeError).
    unfold compileSelf. destruct cc as [c|]; [destruct (truthy _); [done|]|];
      intros [= <- _]; by left.
  - (* array *)
    intros (e & j & r1 & He & Hc)%forEach_throws.
    rewrite Forall_forall in IH.
    eapply Blames_lift; [|by eapply IH]. intros p. by apply reaches_element.
  - (* fragment *)
    intros [(e & r1 & He & Hc)|[-> Hlen]]%compileLiterals_throws.
    + rewrite Forall_forall in IH.
      eapply Blames_lift; [|eapply IH; [|exact Hc]].
      * intros p. by apply reaches_expression.
      * by eapply elem_of_take_inv.
    + right. right. split; [left; by eexists|]. simpl.
      by rewrite reachesLiterals_missing.
  - (* ParentColumn *)
    unfold compileParentColumn. destruct (pinParentTable this pt);
      [destruct (truthy _); [done|]|]; intros [= <- _]; right; by left.
  - (* ColumnValues *)
    pose proof (compileExpression_ColumnValues this value result pt cc) as E.
    simpl in E. rewrite E. clear E.
    intros (k & j & r1 & [v Hv]%elem_of_sortedKeys & Hc)%forEach_throws.
    unfold getValue in Hc. rewrite Hv in Hc. simpl in Hc.
    apply getProp_Some_elem in Hv. rewrite Forall_forall in IH.
    pose proof (IH (k, v) Hv) as IHv. simpl in IHv.
    destruct (plainColumnValue v) eqn:Hplain.
    + by destruct v as [| | | | |[]| | | | | | | | |].
    + eapply Blames_lift; [intros p; by apply (reaches_columnValue p value k v)|].
      destruct v as [| | | | |[]| | | | | | | | |]; try done;
        by eapply (IHv this _ _ (Some k)).
  - (* Whereable *)
    pose proof (compileExpression_Whereable this proto props result pt cc) as E.
    simpl in E. rewrite E. clear E.
    destruct (sortedKeys props) as [|k0 ks] eqn:Hks; [done|]. rewrite <- Hks.
    destruct (forEach _ _ _ _) as [r1|err1 r1] eqn:Hloop; simpl; [done|].
    intros [= -> ->].
    apply forEach_throws in Hloop
      as (k & j & r2 & [v Hv]%elem_of_sortedKeys & Hc).
    unfold getValue in Hc. rewrite Hv in Hc. simpl in Hc.
    apply getProp_Some_elem in Hv. rewrite Forall_forall in IH.
    pose proof (IH (k, v) Hv) as IHv. simpl in IHv.
    destruct (plainWhereValue v) eqn:Hplain.
    + by destruct v.
    + eapply Blames_lift; [intros p; by apply (reaches_whereValue p proto props k v)|].
      destruct v; try done.
      * unfold compileWhereValue in Hc.
        destruct (compileExpression this _ _ _ _) as [r3|err3 r3] eqn:Hf;
          simpl in Hc; [done|]. injection Hc as -> ->. by eapply (IHv this _ _ (Some k)).
      * by eapply (IHv this _ _ (Some k)).
Qed.

(** ** The context of a compilation *)

Lemma reaches_false_lift p e e' :
  (reaches p e = true → reaches p e' = true) → reaches p e' = false →
  reaches p e = false.
Proof. intros H H'. destruct (reaches p e); [|done]. by rewrite H in H'. Qed.

(** The fragment a method is called on matters through its pinned parent
    table only, and pinning a table is the same as inheriting it. *)
Lemma compileExpression_this expression :
  ∀ this result parentTable currentColumn,
    compileExpression this expression result parentTable currentColumn
    = compileExpression None expression result (pinParentTable this parentTable)
        currentColumn.
Proof.
  induction expression as
    [| | | | s | y | | elements IH | literals expressions pinned IH | value _
     | value | value | value _ | value IH | proto props IH] using JSVal_ind;
    intros this result pt cc; try done.
  - (* array *)
    rewrite !compileExpression_array. apply forEach_ext. intros _ e r He.
    rewrite Forall_forall in IH. by rewrite (IH e He this), pinParentTable_idemp.
  - (* ColumnValues *)
    rewrite !compileExpression_ColumnValues. apply forEach_ext.
    intros j k r [v Hv]%elem_of_sortedKeys.
    unfold getValue. rewrite Hv. simpl.
    rewrite Forall_forall in IH.
    pose proof (IH (k, v) (getProp_Some_elem _ _ _ Hv)) as IHv. simpl in IHv.
    unfold compileColumnValue.
    destruct v as [| | | | |[]| | | | | | | | |]; try done.
    by rewrite (IHv this), pinParentTable_idemp.
  - (* Whereable *)
    rewrite !compileExpression_Whereable.
    destruct (sortedKeys props) as [|k0 ks] eqn:Hks; [done|]. rewrite <- Hks.
    f_equal. apply forEach_ext.
    intros j k r [v Hv]%elem_of_sortedKeys.
    unfold getValue. rewrite Hv. simpl.
    rewrite Forall_forall in IH.
    pose proof (IH (k, v) (getProp_Some_elem _ _ _ Hv)) as IHv. simpl in IHv.
    unfold compileWhereValue.
    destruct v; try done.
    + by rewrite (IHv this), pinParentTable_idemp.
    + simpl. by rewrite pinParentTable_idemp.
Qed.


(** ** Sequencing *)

Lemma andThen_Return c : c >>> Return = c.
Proof. by destruct c. Qed.

Lemma andThen_assoc c k1 k2 : c >>> k1 >>> k2 = c >>> λ r, k1 r >>> k2.
Proof. by destruct c. Qed.

Lemma andThen_ext c k1 k2 : (∀ r, k1 r = k2 r) → c >>> k1 = c >>> k2.
Proof. intros H. destruct c; simpl; [apply H|done]. Qed.

Lemma forEach_app {A} (body : nat → A → SQLResultType → Completion) xs ys :
  ∀ i r, forEach body i (xs ++ ys) r
         = forEach body i xs r >>> forEach body (i + length xs) ys.
Proof.
  induction xs as [|x xs IH]; intros i r; simpl.
  - by rewrite Nat.add_0_r.
  - rewrite andThen_assoc. apply andThen_ext. intros r1.
    by rewrite IH, Nat.add_succ_r.
Qed.

Lemma forEach_index {A} (body : A → SQLResultType → Completion) xs :
  ∀ i j r, forEach (λ _, body) i xs r = forEach (λ _, body) j xs r.
Proof.
  induction xs as [|x xs IH]; intros i j r; simpl; [done|].
  apply andThen_ext. intros r1. apply IH.
Qed.

(** ** Arrays *)

Lemma compileExpression_array_app this xs ys result parentTable currentColumn :
  compileExpression this (JArray (xs ++ ys)) result parentTable currentColumn
  = compileExpression this (JArray xs) result parentTable currentColumn
    >>> λ result, compileExpression this (JArray ys) result parentTable currentColumn.
Proof.
  rewrite compileExpression_array, forEach_app. rewrite <- compileExpression_array.
  apply andThen_ext. intros r. rewrite compileExpression_array. apply forEach_index.
Qed.

Lemma compileExpression_array_one this e result parentTable currentColumn :
  compileExpression this (JArray [e]) result parentTable currentColumn
  = compileExpression this e result parentTable currentColumn.
Proof.
  rewrite compileExpression_array. simpl.
  by rewrite andThen_Return, compileExpression_pinned.
Qed.

(** ** The loop over the literals *)

Lemma compileLiterals_take compileExpr expressions :
  ∀ literals r,
    compileLiterals compileExpr expressions literals r
    = compileLiterals compileExpr (take (length literals) expressions) literals r.
Proof.
  induction expressions as [|e es IH]; intros [|lit lits] r; simpl; try done.
  apply andThen_ext. intros r1. apply IH.
Qed.

Lemma compileLiterals_returns compileExpr expressions :
  ∀ literals r r',
    compileLiterals compileExpr expressions literals r = Return r' →
    length literals ≤ length expressions.
Proof.
  induction expressions as [|e es IH]; intros [|lit lits] r r'; simpl;
    try done; try lia.
  destruct (compileExpr e r) as [r1|]; simpl; [|done]. intros H%IH. lia.
Qed.

Lemma compileLiterals_empty compileExpr expressions :
  ∀ r, compileLiterals compileExpr expressions (replicate (length expressions) "") r
       = forEach (λ _, compileExpr) 0 expressions r.
Proof.
  induction expressions as [|e es IH]; intros r; simpl; [done|].
  apply andThen_ext. intros r1. rewrite appendText_nil, IH. apply forEach_index.
Qed.

Lemma literalParameters_all parametersOf expressions :
  ∀ literals, length literals = length expressions →
    literalParameters parametersOf expressions literals
    = flat_map parametersOf expressions.
Proof.
  induction expressions as [|e es IH]; intros [|lit lits] Hlen; simpl in *; try done.
  rewrite IH; [done|lia].
Qed.

(** ** The loop over an object of plain values *)

Lemma join_cons sep x xs : join sep (x :: xs) = x +:+ join sep ("" :: xs).
Proof.
  destruct xs as [|y ys]; simpl; [by rewrite append_nil_r|by rewrite append_nil_l].
Qed.

Lemma bindLoop (props : list (string * JSVal)) (sep : string) (item : string → string)
    (body : nat → string → SQLResultType → Completion) names :
  (∀ i k r, k ∈ names →
     body i k r
     = compileParameter (getValue props k)
         (appendText (if 0 <? i then appendText r sep else r) (item k))) →
  ∀ i r,
    forEach body i names r
    = Return {| text := text r +:+
                  (if 0 <? i
                   then join sep ("" :: numbered item (length (values r)) names)
                   else join sep (numbered item (length (values r)) names));
                values := values r ++ (getValue props <$> names) |}.
Proof.
  induction names as [|k ks IH]; intros Hbody i r.
  - simpl. destruct (0 <? i); simpl; rewrite append_nil_r, app_nil_r; by destruct r.
  - simpl forEach. rewrite Hbody by (by left). simpl andThen.
    rewrite IH by (intros; apply Hbody; by right). simpl "<?".
    cbn [numbered fmap list_fmap values text appendText].
    rewrite length_app. simpl length. rewrite Nat.add_1_r.
    f_equal. f_equal.
    + destruct (0 <? i) eqn:Hi.
      * cbn [appendText text]. rewrite !append_assoc. f_equal.
        change (join sep ("" :: ?x :: ?xs)) with ("" +:+ sep +:+ join sep (x :: xs)).
        by rewrite append_nil_l, (join_cons sep (_ +:+ _)), !append_assoc.
      * by rewrite (join_cons sep (_ +:+ _)), !append_assoc.
    + destruct (0 <? i); simpl; by rewrite <- app_assoc.
Qed.

(** ** X1, X2: what a compilation does to the accumulator *)

Lemma Grows_extends vs r c :
  Grows vs r c →
  (∃ s, text (resultOf c) = text r +:+ s) ∧ ∃ vs', values (resultOf c) = values r ++ vs'.
Proof.
  intros [Ht Hv]. split; [done|]. destruct c as [r'|e r']; simpl in *.
  - by exists vs.
  - destruct Hv as (vs' & _ & Hv). by exists vs'.
Qed.

(** X1: [compileExpression] and [compile] only ever append.  Whatever the
    expression, the fragment and the context, and whether the call returns
    or throws, the text it leaves is the text it was given followed by a
    suffix, and the values it leaves are the values it was given followed
    by further values: nothing that was in the accumulator is rewritten or
    dropped. *)
Theorem X1_accumulator_only_grows this expression (fragment : SQLFragment) result
    inherited currentColumn :
  ((∃ s, text (resultOf (compileExpression this expression result inherited
                           currentColumn)) = text result +:+ s)
   ∧ ∃ vs, values (resultOf (compileExpression this expression result inherited
                               currentColumn)) = values result ++ vs)
  ∧ ((∃ s, text (resultOf (compile fragment result inherited currentColumn))
           = text result +:+ s)
     ∧ ∃ vs, values (resultOf (compile fragment result inherited currentColumn))
             = values result ++ vs).
Proof.
  split.
  - eapply Grows_extends, compileExpression_Grows.
  - rewrite compile_compileExpression. eapply Grows_extends, compileExpression_Grows.
Qed.

(** X2: the values a compilation pushes are those of [parameterValues], in
    that order, whatever strings the expression carries and whatever the
    context: all of them when it returns, the first few of them when it
    throws. *)
Theorem X2_values_in_order this expression result inherited currentColumn :
  match compileExpression this expression result inherited currentColumn with
  | Return r' => values r' = values result ++ parameterValues expression
  | Throw _ r' =>
      ∃ vs, vs `prefix_of` parameterValues expression ∧ values r' = values result ++ vs
  end.
Proof.
  destruct (compileExpression_Grows expression this result inherited currentColumn)
    as [_ Hv].
  by destruct (compileExpression _ _ _ _ _).
Qed.

(** ** X3: fragments built by [sql] *)

(** X3: a fragment built by the tag [sql] from a template, which has one
    more literal than it has interpolated expressions, binds the parameters
    of every one of its expressions when it compiles; and when it throws,
    the error has its cause in one of the expressions, never in the
    fragment itself. *)
Theorem X3_sql_template literals expressions result inherited currentColumn :
  length literals = S (length expressions) →
  match compile (sql literals expressions) result inherited currentColumn with
  | Return r' => values r' = values result ++ flat_map parameterValues expressions
  | Throw e _ => ∃ expression, expression ∈ expressions ∧ Blames e expression
  end.
Proof.
  intros Hlen. rewrite compile_compileExpression. unfold sql, fragmentValue. simpl.
  assert (length (tail literals) = length expressions) as Htail.
  { destruct literals; simpl in *; lia. }
  destruct (compileLiterals _ _ _ _) as [r'|e r'] eqn:Hc.
  - pose proof (compileExpression_Grows (JSQLFragment literals expressions None)
                  None result inherited currentColumn) as [_ Hv].
    simpl in Hv. rewrite Hc in Hv.
    by rewrite literalParameters_all in Hv.
  - apply compileLiterals_throws in Hc as [(x & r1 & Hx & Hthrow)|[_ Hshort]]; [|lia].
    exists x. split; [by eapply elem_of_take_inv|].
    by eapply compileExpression_Blames.
Qed.

Lemma X3_witness :
  length ["INSERT INTO "; " ("; ") VALUES ("; ") RETURNING "; ""]
  = S (length [JString "books";
               cols (inr [("title", JString "Emma"); ("authorId", JNumber 7)]);
               vals [("title", JString "Emma"); ("authorId", JNumber 7)];
               JArray [param (JNumber 1); raw "::int AS one"]])
  ∧ match compile insertBook emptyResult None None with
    | Return r' => values r' = [JNumber 7; JString "Emma"; JNumber 1]
    | Throw e _ => ∃ expression, expression ∈ expressions insertBook ∧ Blames e expression
    end.
Proof.
  split; [reflexivity|].
  exact (X3_sql_template (literals insertBook) (expressions insertBook) emptyResult
           None None eq_refl).
Defined.

(** ** X4: placeholders continue the numbering *)

(** X4: compiling into an accumulator that already holds values continues
    the numbering.  When the strings an expression carries hold no
    placeholder of their own, the placeholders of the text it was given stay
    as they were, and those it adds are numbered from the number of values
    already there plus one, one for each value it binds.  Nested fragments
    and fragments compiled one after the other thus share one numbering. *)
Theorem X4_numbering_continues this expression result inherited currentColumn r' :
  clean expression = true → cleanName this = true →
  cleanName inherited = true → cleanName currentColumn = true →
  compileExpression this expression result inherited currentColumn = Return r' →
  placeholders (text r')
  = placeholders (text result)
    ++ seq (S (length (values result))) (length (parameterValues expression)).
Proof.
  intros Hclean Hthis Hpt Hcc Hc.
  by destruct (compileExpression_Adds expression this result inherited currentColumn r').
Qed.

Lemma X4_witness :
  (clean mappingAB = true ∧ cleanName None = true)
  ∧ compileExpression None mappingAB {| text := "x = $1 AND "; values := [JNull] |}
      None None
    = Return {| text := "x = $1 AND (" +:+ quoted "a" +:+ " = $2 AND "
                        +:+ quoted "b" +:+ " = $3)";
                values := [JNull; JNumber 1; JNumber 2] |}
  ∧ placeholders ("x = $1 AND (" +:+ quoted "a" +:+ " = $2 AND "
                  +:+ quoted "b" +:+ " = $3)")
    = placeholders "x = $1 AND " ++ [2; 3].
Proof.
  split; [split; reflexivity|]. split; [reflexivity|].
  exact (X4_numbering_continues None mappingAB
           {| text := "x = $1 AND "; values := [JNull] |} None None _
           eq_refl eq_refl eq_refl eq_refl eq_refl).
Defined.

(** ** X5: arrays *)

Lemma compileExpression_array_concat this xss :
  ∀ result inherited currentColumn,
    compileExpression this (JArray (JArray <$> xss)) result inherited currentColumn
    = compileExpression this (JArray (concat xss)) result inherited currentColumn.
Proof.
  induction xss as [|xs xss IH]; intros result pt cc; [done|].
  rewrite fmap_cons. change (JArray xs :: ?l) with ([JArray xs] ++ l).
  simpl concat. rewrite !compileExpression_array_app, compileExpression_array_one.
  apply andThen_ext. intros r. apply IH.
Qed.

(** X5: an array is compiled as the sequence of its elements.  The empty
    array leaves the accumulator as it is; an array of one element compiles
    as the element; an array that is the concatenation of two compiles as
    the first and then, unless that threw, the second; and arrays inside an
    array compile as the one flat array of all their elements. *)
Theorem X5_array_is_sequence this result inherited currentColumn :
  compileExpression this (JArray []) result inherited currentColumn = Return result
  ∧ (∀ e, compileExpression this (JArray [e]) result inherited currentColumn
          = compileExpression this e result inherited currentColumn)
  ∧ (∀ xs ys,
       compileExpression this (JArray (xs ++ ys)) result inherited currentColumn
       = compileExpression this (JArray xs) result inherited currentColumn
         >>> λ result, compileExpression this (JArray ys) result inherited currentColumn)
  ∧ (∀ xss,
       compileExpression this (JArray (JArray <$> xss)) result inherited currentColumn
       = compileExpression this (JArray (concat xss)) result inherited currentColumn).
Proof.
  split; [done|]. split; [|split].
  - intros e. apply compileExpression_array_one.
  - intros xs ys. apply compileExpression_array_app.
  - intros xss. apply compileExpression_array_concat.
Qed.

(** ** X6, X7: the pinned parent table *)

Lemma compile_unpinned (fragment : SQLFragment) result inherited currentColumn :
  compile fragment result inherited currentColumn
  = compile (sql (literals fragment) (expressions fragment)) result
      (pinParentTable (parentTable fragment) inherited) currentColumn.
Proof.
  rewrite !compile_compileExpression. unfold sql, fragmentValue. simpl.
  apply compileLiterals_ext. intros e r _.
  by rewrite compileExpression_this, pinParentTable_idemp.
Qed.

(** X6: the fragment a method is called on matters through its pinned
    parent table only, and pinning a table is the same as inheriting it:
    [compileExpression] on a fragment that pins the table compiles as on one
    that pins none and is handed the table that [pinParentTable] chooses,
    and so does [compile].  A pinned empty string counts as no pin. *)
Theorem X6_pinning_is_inheriting this expression (fragment : SQLFragment) result
    inherited currentColumn :
  compileExpression this expression result inherited currentColumn
  = compileExpression None expression result (pinParentTable this inherited)
      currentColumn
  ∧ compile fragment result inherited currentColumn
    = compile (sql (literals fragment) (expressions fragment)) result
        (pinParentTable (parentTable fragment) inherited) currentColumn
  ∧ compile (mkSQLFragment (literals fragment) (expressions fragment) (Some ""))
      result inherited currentColumn
    = compile (sql (literals fragment) (expressions fragment)) result inherited
        currentColumn.
Proof.
  split; [apply compileExpression_this|]. split; [apply compile_unpinned|].
  by rewrite compile_unpinned.
Qed.

(** X7: a pinned parent table that is not the empty string hides the
    inherited one, however deep the expression: under such a pin an
    expression compiles the same whatever table is handed down, and so does
    the fragment that pins it. *)
Theorem X7_pin_hides_inherited this expression (fragment : SQLFragment) result
    inherited inherited' currentColumn :
  truthy this = true → truthy (parentTable fragment) = true →
  compileExpression this expression result inherited currentColumn
  = compileExpression this expression result inherited' currentColumn
  ∧ compile fragment result inherited currentColumn
    = compile fragment result inherited' currentColumn.
Proof.
  intros Hthis Hpinned. split.
  - rewrite (compileExpression_this _ this _ inherited),
      (compileExpression_this _ this _ inherited').
    unfold pinParentTable. by rewrite Hthis.
  - rewrite (compile_unpinned _ _ inherited), (compile_unpinned _ _ inherited').
    unfold pinParentTable. by rewrite Hpinned.
Qed.

Lemma X7_witness :
  (truthy (Some "authors") = true
   ∧ truthy (parentTable (mkSQLFragment [""; ""] [parent "id"] (Some "authors"))) = true)
  ∧ compileExpression (Some "authors") (JArray [parent "id"]) emptyResult
      (Some "books") None
    = compileExpression (Some "authors") (JArray [parent "id"]) emptyResult None None
  ∧ compile (mkSQLFragment [""; ""] [parent "id"] (Some "authors")) emptyResult
      (Some "books") None
    = Return {| text := quoted "authors" +:+ "." +:+ quoted "id"; values := [] |}.
Proof.
  split; [split; reflexivity|].
  exact (X7_pin_hides_inherited (Some "authors") (JArray [parent "id"])
           (mkSQLFragment [""; ""] [parent "id"] (Some "authors")) emptyResult
           (Some "books") None None eq_refl eq_refl).
Defined.

(** ** X8, X9: expressions that do not depend on the context *)

(** X8: an expression whose compilation reaches no [self] compiles the same
    under every current column, so it can be used as the value of any key
    of a [ColumnValues] or [Whereable] object, or outside of one. *)
Theorem X8_no_self_no_column expression this result inherited currentColumn
    currentColumn' :
  reaches isSelf expression = false →
  compileExpression this expression result inherited currentColumn
  = compileExpression this expression result inherited currentColumn'.
Proof.
  revert this result inherited currentColumn currentColumn'.
  induction expression as
    [| | | | s | y | | elements IH | literals expressions pinned IH | value _
     | value | value | value _ | value IH | proto props IH] using JSVal_ind;
    intros this result pt cc cc' Hno; try done.
  - (* symbol *)
    by destruct y.
  - (* array *)
    rewrite !compileExpression_array. apply forEach_ext. intros _ e r He.
    rewrite Forall_forall in IH. apply IH; [done|].
    eapply reaches_false_lift; [|exact Hno]. by apply reaches_element.
  - (* fragment *)
    simpl. apply compileLiterals_ext. intros e r He.
    rewrite Forall_forall in IH. apply IH; [by eapply elem_of_take_inv|].
    eapply reaches_false_lift; [|exact Hno]. by apply reaches_expression.
Qed.

Lemma X8_witness :
  reaches isSelf (fragmentValue insertBook) = false
  ∧ compileExpression None (fragmentValue insertBook) emptyResult None (Some "title")
    = compileExpression None (fragmentValue insertBook) emptyResult None None.
Proof.
  split; [reflexivity|].
  exact (X8_no_self_no_column (fragmentValue insertBook) None emptyResult None
           (Some "title") None eq_refl).
Defined.

(** X9: an expression whose compilation reaches no [ParentColumn] compiles
    the same whatever the parent table, pinned by the fragment the method is
    called on or handed down: only [parent(...)] reads the parent table. *)
Theorem X9_no_parent_no_table expression this this' result inherited inherited'
    currentColumn :
  reaches isParent expression = false →
  compileExpression this expression result inherited currentColumn
  = compileExpression this' expression result inherited' currentColumn.
Proof.
  revert this this' result inherited inherited' currentColumn.
  induction expression as
    [| | | | s | y | | elements IH | literals expressions pinned IH | value _
     | value | value | value _ | value IH | proto props IH] using JSVal_ind;
    intros this this' result pt pt' cc Hno; try done.
  - (* array *)
    rewrite !compileExpression_array. apply forEach_ext. intros _ e r He.
    rewrite Forall_forall in IH. apply IH; [done|].
    eapply reaches_false_lift; [|exact Hno]. by apply reaches_element.
  - (* fragment *)
    simpl. apply compileLiterals_ext. intros e r He.
    rewrite Forall_forall in IH. apply IH; [by eapply elem_of_take_inv|].
    eapply reaches_false_lift; [|exact Hno]. by apply reaches_expression.
  - (* ColumnValues *)
    rewrite !compileExpression_ColumnValues. apply forEach_ext.
    intros j k r [v Hv]%elem_of_sortedKeys.
    unfold getValue. rewrite Hv. simpl.
    apply getProp_Some_elem in Hv. rewrite Forall_forall in IH.
    pose proof (IH (k, v) Hv) as IHv. simpl in IHv.
    unfold compileColumnValue.
    destruct v as [| | | | |[]| | | | | | | | |]; try done.
    apply IHv. eapply reaches_false_lift; [|exact Hno].
    by apply (reaches_columnValue _ value k).
  - (* Whereable *)
    rewrite !compileExpression_Whereable.
    destruct (sortedKeys props) as [|k0 ks] eqn:Hks; [done|]. rewrite <- Hks.
    f_equal. apply forEach_ext.
    intros j k r [v Hv]%elem_of_sortedKeys.
    unfold getValue. rewrite Hv. simpl.
    apply getProp_Some_elem in Hv. rewrite Forall_forall in IH.
    pose proof (IH (k, v) Hv) as IHv. simpl in IHv.
    unfold compileWhereValue.
    destruct v; try done.
    + f_equal. apply IHv. eapply reaches_false_lift; [|exact Hno].
      by apply (reaches_whereValue _ proto props k).
    + pose proof (reaches_whereValue isParent proto props k (JParentColumn value)
                    Hv eq_refl eq_refl) as Hyes.
      by rewrite Hyes in Hno.
Qed.

Lemma X9_witness :
  reaches isParent (JArray [JSymbol SymSelf; mappingAB]) = false
  ∧ compileExpression (Some "authors") (JArray [JSymbol SymSelf; mappingAB])
      emptyResult None (Some "id")
    = compileExpression None (JArray [JSymbol SymSelf; mappingAB]) emptyResult
        (Some "books") (Some "id").
Proof.
  split; [reflexivity|].
  exact (X9_no_parent_no_table (JArray [JSymbol SymSelf; mappingAB]) (Some "authors")
           None emptyResult None (Some "books") (Some "id") eq_refl).
Defined.

(** ** X10, X11: the errors of the compiler and their causes *)

(** X10: every error that [compileExpression] throws has its cause among
    the expressions that the compilation reaches.  It is the first context
    error and a [self] is reached, or the second and a [ParentColumn] is
    reached, or an error of the last branch (the alien object error, or the
    [TypeError] of a failed conversion) and a value that no branch takes is
    reached, a missing expression of a fragment being [undefined].  The
    compiler throws nothing else. *)
Theorem X10_errors_have_causes this expression result inherited currentColumn e r' :
  compileExpression this expression result inherited currentColumn = Throw e r' →
  Blames e expression.
Proof. apply compileExpression_Blames. Qed.

Lemma X10_witness :
  compileExpression None selfInAndOut emptyResult None None
  = Throw selfError {| text := "$1lower(" +:+ quoted "a" +:+ ")";
                       values := [JNumber 1] |}
  ∧ Blames selfError selfInAndOut.
Proof.
  split; [reflexivity|].
  exact (X10_errors_have_causes None selfInAndOut emptyResult None None selfError
           {| text := "$1lower(" +:+ quoted "a" +:+ ")"; values := [JNumber 1] |}
           eq_refl).
Defined.

(** X11: an expression whose compilation reaches no [self], no
    [ParentColumn] and no value that no branch takes compiles: in every
    context and from every accumulator, [compileExpression] returns. *)
Theorem X11_compiles_without_cause this expression result inherited currentColumn :
  reaches isSelf expression = false → reaches isParent expression = false →
  reaches isAlien expression = false →
  ∃ r', compileExpression this expression result inherited currentColumn = Return r'.
Proof.
  intros Hself Hparent Halien.
  destruct (compileExpression this expression result inherited currentColumn)
    as [r'|e r'] eqn:Hc; [by exists r'|].
  apply compileExpression_Blames in Hc as [[_ H]|[[_ H]|[_ H]]]; congruence.
Qed.

Lemma X11_witness :
  (reaches isSelf (fragmentValue insertBook) = false
   ∧ reaches isParent (fragmentValue insertBook) = false
   ∧ reaches isAlien (fragmentValue insertBook) = false)
  ∧ ∃ r', compileExpression (Some "authors") (fragmentValue insertBook)
            {| text := "WITH x AS ("; values := [JNull] |} None (Some "id")
          = Return r'.
Proof.
  split; [repeat split|].
  exact (X11_compiles_without_cause (Some "authors") (fragmentValue insertBook)
           {| text := "WITH x AS ("; values := [JNull] |} None (Some "id")
           eq_refl eq_refl eq_refl).
Defined.

(** ** X12: literals that are all empty *)

(** X12: interpolating expressions with nothing between them is putting them
    in an array: a fragment built by [sql] whose literals are all the empty
    string compiles as the array of its expressions.  With one expression,
    [compile] on the fragment is [compileExpression] on the expression. *)
Theorem X12_empty_literals this expressions expression pinned result inherited
    currentColumn :
  compileExpression this
    (fragmentValue (sql (replicate (S (length expressions)) "") expressions))
    result inherited currentColumn
  = compileExpression this (JArray expressions) result inherited currentColumn
  ∧ compile (mkSQLFragment [""; ""] [expression] pinned) result inherited currentColumn
    = compileExpression pinned expression result inherited currentColumn.
Proof.
  split.
  - rewrite compileExpression_array.
    transitivity
      (forEach (λ _ e r, compileExpression None e r (pinParentTable this inherited)
                           currentColumn) 0 expressions result).
    + unfold sql, fragmentValue. simpl.
      by rewrite appendText_nil, compileLiterals_empty.
    + apply forEach_ext. intros _ e r _.
      by rewrite (compileExpression_this e this), pinParentTable_idemp.
  - unfold compile. simpl.
    rewrite appendText_nil, andThen_Return, compileExpression_pinned.
    destruct (compileExpression _ _ _ _ _); simpl; [|done]. by rewrite appendText_nil.
Qed.

(** ** X13, X14: literals and expressions that disagree in number *)

(** X13: the loop of [compile] goes by the literals.  A fragment without any
    literal appends the string conversion of [undefined] and compiles none
    of its expressions; and the expressions beyond the last literal but one
    are never compiled, whatever they are. *)
Theorem X13_literals_drive_the_loop literals expressions pinned result inherited
    currentColumn :
  compile (mkSQLFragment [] expressions pinned) result inherited currentColumn
  = Return (appendText result "undefined")
  ∧ compile (mkSQLFragment literals expressions pinned) result inherited currentColumn
    = compile (mkSQLFragment literals (take (length literals - 1) expressions) pinned)
        result inherited currentColumn.
Proof.
  split; [done|]. rewrite !compile_compileExpression. unfold fragmentValue. simpl.
  rewrite compileLiterals_take. f_equal. f_equal.
  destruct literals; simpl; [done|]. by rewrite Nat.sub_0_r.
Qed.

(** X14: a fragment with too few expressions never compiles.  When [compile]
    returns, the fragment has at least as many expressions as it has
    literals after the first. *)
Theorem X14_too_few_expressions (fragment : SQLFragment) result inherited
    currentColumn r' :
  compile fragment result inherited currentColumn = Return r' →
  length (literals fragment) ≤ S (length (expressions fragment)).
Proof.
  rewrite compile_compileExpression. unfold fragmentValue. simpl.
  intros H%compileLiterals_returns. destruct (literals fragment); simpl in *; lia.
Qed.

Lemma X14_witness :
  compile selectUsers emptyResult None None
  = Return {| text := "SELECT * FROM " +:+ quoted "users" +:+ " WHERE ("
                      +:+ quoted "id" +:+ " = $1)";
              values := [JNumber 5] |}
  ∧ length (literals selectUsers) ≤ S (length (expressions selectUsers)).
Proof.
  split; [reflexivity|].
  exact (X14_too_few_expressions selectUsers emptyResult None None _ eq_refl).
Defined.

(** ** X15: quoting an identifier twice *)

(** X15: quoting an identifier is idempotent.  The text a string compiles
    to, given as a string again, compiles to itself: a string that starts
    with a double quote is copied, and a string that does not is put
    between double quotes, after which it starts with one. *)
Theorem X15_identifier_idempotent this s result inherited currentColumn :
  startsWithQuote (if startsWithQuote s then s else quoted s) = true
  ∧ compileExpression this (JString (if startsWithQuote s then s else quoted s))
      result inherited currentColumn
    = compileExpression this (JString s) result inherited currentColumn.
Proof.
  assert (startsWithQuote (if startsWithQuote s then s else quoted s) = true) as H.
  { destruct (startsWithQuote s) eqn:Hs; [done|].
    unfold quoted, dquote. by rewrite append_cons. }
  split; [done|]. simpl. by rewrite H.
Qed.

(** ** X16, X17: objects whose values are all bound as parameters *)

(** X16: a [ColumnValues] object none of whose values is a fragment or
    [Default] always compiles, to one placeholder for each of its sorted
    keys, separated by a comma and a space and numbered from the number of
    values already bound plus one; and it pushes the values of the keys in
    that same order, the order in which [ColumnNames] lists the keys. *)
Theorem X16_plain_column_values this props result inherited currentColumn :
  forallb (λ kv : string * JSVal, plainColumnValue kv.2) props = true →
  compileExpression this (vals props) result inherited currentColumn
  = Return {| text := text result
                      +:+ join ", " (numbered (λ _, "") (length (values result))
                                       (sortedKeys props));
              values := values result ++ (getValue props <$> sortedKeys props) |}
  ∧ compileExpression this (cols (inr props)) result inherited currentColumn
    = Return (appendText result (join ", " (quoted <$> sortedKeys props))).
Proof.
  intros Hplain. split; [|done]. unfold vals.
  rewrite compileExpression_ColumnValues.
  rewrite (bindLoop props ", " (λ _, "")); [done|].
  intros i k r [v Hv]%elem_of_sortedKeys. rewrite appendText_nil.
  pose proof (getProp_clean_key _ _ _ _ Hplain Hv) as Hkv. simpl in Hkv.
  unfold getValue. rewrite Hv. simpl.
  by destruct v as [| | | | |[]| | | | | | | | |].
Qed.

Lemma X16_witness :
  forallb (λ kv : string * JSVal, plainColumnValue kv.2) updatableBA = true
  ∧ compileExpression None (vals updatableBA) {| text := "($1, "; values := [JNull] |}
      None None
    = Return {| text := "($1, $2, $3"; values := [JNull; JNumber 1; JNumber 2] |}
  ∧ compileExpression None (cols (inr updatableBA))
      {| text := "($1, "; values := [JNull] |} None None
    = Return {| text := "($1, " +:+ quoted "a" +:+ ", " +:+ quoted "b";
                values := [JNull] |}.
Proof.
  split; [reflexivity|].
  exact (X16_plain_column_values None updatableBA
           {| text := "($1, "; values := [JNull] |} None None eq_refl).
Defined.

(** X17: a mapping with at least one key, none of whose values is a
    fragment or a [ParentColumn], always compiles, to the conjunction
    between parentheses of one equality for each of its sorted keys: the
    quoted key, an equals sign, and a placeholder numbered from the number
    of values already bound plus one; and it pushes the values of the keys
    in that order. *)
Theorem X17_plain_mapping this proto props result inherited currentColumn :
  forallb (λ kv : string * JSVal, plainWhereValue kv.2) props = true → props ≠ [] →
  compileExpression this (JObject proto props) result inherited currentColumn
  = Return {| text := text result +:+ "("
                      +:+ join " AND " (numbered (λ k, quoted k +:+ " = ")
                                          (length (values result)) (sortedKeys props))
                      +:+ ")";
              values := values result ++ (getValue props <$> sortedKeys props) |}.
Proof.
  intros Hplain Hprops. rewrite compileExpression_Whereable.
  destruct (sortedKeys props) as [|k0 ks] eqn:Hks.
  { by apply sortedKeys_nil_inv in Hks. }
  rewrite <- Hks.
  rewrite (bindLoop props " AND " (λ k, quoted k +:+ " = ")).
  - simpl. unfold appendText. simpl. by rewrite !append_assoc.
  - intros i k r [v Hv]%elem_of_sortedKeys.
    pose proof (getProp_clean_key _ _ _ _ Hplain Hv) as Hkv. simpl in Hkv.
    unfold getValue. rewrite Hv. simpl. by destruct v.
Qed.

Lemma X17_witness :
  (forallb (λ kv : string * JSVal, plainWhereValue kv.2)
     [("b", JNumber 2); ("a", JNumber 1)] = true
   ∧ [("b", JNumber 2); ("a", JNumber 1)] ≠ [])
  ∧ compileExpression None mappingBA {| text := "x = $1 AND "; values := [JNull] |}
      None None
    = Return {| text := "x = $1 AND (" +:+ quoted "a" +:+ " = $2 AND "
                        +:+ quoted "b" +:+ " = $3)";
                values := [JNull; JNumber 1; JNumber 2] |}.
Proof.
  assert ([("b", JNumber 2); ("a", JNumber 1)] ≠ @nil (string * JSVal)) as Hne
    by discriminate.
  split; [split; [reflexivity|exact Hne]|].
  exact (X17_plain_mapping None ObjectPrototype [("b", JNumber 2); ("a", JNumber 1)]
           {| text := "x = $1 AND "; values := [JNull] |} None None eq_refl Hne).
Defined.

(** ** X18, X19: [run] *)

(** X18: how [run] settles, and what it has done by then.  It fulfils with
    a value exactly when the fragment compiles, [queryable.query] fulfils
    for the compiled query, and [runResultTransform] returns that value for
    what the query fulfilled with.  It rejects with an error exactly when
    the compiler threw it, or [queryable.query] rejected the compiled query
    with it, or [runResultTransform] threw it.  When the transform throws,
    the query has already been submitted: the rejection comes after the one
    call of [queryable.query]. *)
Theorem X18_run_outcomes {QueryResult RunResult : Type}
    (queryable : SQLResultType → Settled QueryResult) verbose this
    (runResultTransform : QueryResult → Settled RunResult) :
  (∀ v, (run queryable verbose this runResultTransform).2 = Fulfilled v
        ↔ ∃ query qr, compile0 this = Return query ∧ queryable query = Fulfilled qr
                      ∧ runResultTransform qr = Fulfilled v)
  ∧ (∀ e, (run queryable verbose this runResultTransform).2 = Rejected e
          ↔ (∃ r, compile0 this = Throw e r)
            ∨ (∃ query, compile0 this = Return query ∧ queryable query = Rejected e)
            ∨ ∃ query qr, compile0 this = Return query ∧ queryable query = Fulfilled qr
                          ∧ runResultTransform qr = Rejected e)
  ∧ (∀ query qr e,
       compile0 this = Return query → queryable query = Fulfilled qr →
       runResultTransform qr = Rejected e →
       run queryable verbose this runResultTransform
       = ((if verbose then [ConsoleLog query] else []) ++ [QueryCall query],
          Rejected e)).
Proof.
  unfold run. split; [|split].
  - intros v. destruct (compile0 this) as [query|e r]; simpl.
    + destruct (queryable query) as [qr|e] eqn:Hq; simpl.
      * split; [by eauto|]. intros (query' & qr' & [= <-] & Hq' & Ht).
        rewrite Hq in Hq'. by injection Hq' as <-.
      * split; [done|]. intros (query' & qr' & [= <-] & Hq' & _). congruence.
    + split; [done|]. by intros (? & ? & ? & _).
  - intros e. destruct (compile0 this) as [query|e' r]; simpl.
    + destruct (queryable query) as [qr|e'] eqn:Hq; simpl.
      * split; [by eauto 7|].
        intros [[r [=]]|[(query' & [= <-] & Hq')|(query' & qr' & [= <-] & Hq' & Ht)]];
          [congruence|]. rewrite Hq in Hq'. by injection Hq' as <-.
      * split; [intros [= <-]; by eauto 6|].
        intros [[r [=]]|[(query' & [= <-] & Hq')|(query' & qr' & [= <-] & Hq' & _)]];
          congruence.
    + split; [intros [= <-]; by eauto|].
      intros [[r' [= <- _]]|[(? & [=] & _)|(? & ? & [=] & _)]]. done.
  - intros query qr e -> -> ->. done.
Qed.

Lemma X18_witness :
  compile0 (sql ["SELECT 1"] []) = Return {| text := "SELECT 1"; values := [] |}
  ∧ run (λ _, Fulfilled ()) false (sql ["SELECT 1"] [])
      (λ _ : unit, @Rejected unit (TypeError "Cannot read properties of undefined"))
    = ([QueryCall {| text := "SELECT 1"; values := [] |}],
       Rejected (TypeError "Cannot read properties of undefined")).
Proof.
  split; [reflexivity|].
  exact (proj2 (proj2 (X18_run_outcomes (λ _, Fulfilled ()) false
                         (sql ["SELECT 1"] [])
                         (λ _ : unit,
                            @Rejected unit
                              (TypeError "Cannot read properties of undefined"))))
           {| text := "SELECT 1"; values := [] |} () _ eq_refl eq_refl eq_refl).
Defined.

(** X19: [run] calls [queryable.query] at most once, with the compiled
    query and after the log if there is one; and the verbose setting changes
    nothing but the log: without the lines printed, the effects are those of
    a run that is not verbose, and the promise settles the same. *)
Theorem X19_verbose_only_logs {QueryResult RunResult : Type}
    (queryable : SQLResultType → Settled QueryResult) verbose this
    (runResultTransform : QueryResult → Settled RunResult) :
  filter (λ e, isQueryCall e = true) (run queryable verbose this runResultTransform).1
  = (run queryable false this runResultTransform).1
  ∧ (run queryable verbose this runResultTransform).2
    = (run queryable false this runResultTransform).2
  ∧ (run queryable false this runResultTransform).1
    = match compile0 this with
      | Return query => [QueryCall query]
      | Throw _ _ => []
      end.
Proof.
  unfold run. destruct (compile0 this) as [query|e r]; [|done].
  destruct (queryable query), verbose; done.
Qed.

(** ** Compiling with other values *)

Lemma sameText_appendText r r' s :
  sameText r r' → sameText (appendText r s) (appendText r' s).
Proof. intros [Ht Hv]. split; simpl; [by rewrite Ht|done]. Qed.

Lemma sameOutcome_seq c c' k k' :
  sameOutcome c c' → (∀ r r', sameText r r' → sameOutcome (k r) (k' r')) →
  sameOutcome (c >>> k) (c' >>> k').
Proof. destruct c, c'; simpl; try done. intros H Hk. by apply Hk. Qed.

Lemma sameOutcome_compileParameter v v' r r' :
  sameText r r' → sameOutcome (compileParameter v r) (compileParameter v' r').
Proof.
  intros [Ht Hv]. split; simpl; [|by rewrite !length_app, Hv].
  by rewrite Ht, !length_app, Hv.
Qed.

Lemma forEach_sameOutcome {A} (body body' : nat → A → SQLResultType → Completion)
    (f : A → A) xs :
  Forall (λ x, ∀ i r r', sameText r r' →
                sameOutcome (body i x r) (body' i (f x) r')) xs →
  ∀ i r r', sameText r r' →
    sameOutcome (forEach body i xs r) (forEach body' i (f <$> xs) r').
Proof.
  induction 1 as [|x xs Hx _ IH]; intros i r r' Hr; simpl; [done|].
  apply sameOutcome_seq; [by apply Hx|]. intros. by apply IH.
Qed.

Lemma compileLiterals_sameOutcome compileExpr compileExpr' (f : JSVal → JSVal)
    expressions :
  Forall (λ e, ∀ r r', sameText r r' →
                sameOutcome (compileExpr e r) (compileExpr' (f e) r')) expressions →
  ∀ literals r r', sameText r r' →
    sameOutcome (compileLiterals compileExpr expressions literals r)
      (compileLiterals compileExpr' (map f expressions) literals r').
Proof.
  induction 1 as [|e es He _ IH]; intros [|lit lits] r r' Hr; simpl; try done.
  apply sameOutcome_seq; [by apply He|]. intros. by apply IH, sameText_appendText.
Qed.

Lemma sortedKeys_map {A B} (f : string → A → B) (props : list (string * A)) :
  sortedKeys (map (λ kv : string * A, let (k, v) := kv in (k, f k v)) props)
  = sortedKeys props.
Proof.
  apply sortedKeys_same_keys. intros k. rewrite getProp_map.
  by rewrite fmap_is_Some.
Qed.

Lemma compileExpression_blankValues expression :
  ∀ this r r' parentTable currentColumn,
    sameText r r' →
    sameOutcome (compileExpression this expression r parentTable currentColumn)
      (compileExpression this (blankValues expression) r' parentTable currentColumn).
Proof.
  induction expression as
    [| | | | s | y | | elements IH | literals expressions pinned IH | value _
     | value | value | value _ | value IH | proto props IH] using JSVal_ind;
    intros this r r' pt cc Hr;
    try (simpl; by auto using sameText_appendText).
  - (* symbol *)
    destruct y; simpl; auto using sameText_appendText.
    unfold compileSelf. destruct cc as [c|]; [|done].
    destruct (truthy _); simpl; auto using sameText_appendText.
  - (* array *)
    simpl blankValues. rewrite !compileExpression_array.
    apply (forEach_sameOutcome _ _ blankValues); [|done].
    eapply Forall_impl; [exact IH|]. intros e He _ r1 r1' Hr1. by apply He.
  - (* fragment *)
    simpl. apply (compileLiterals_sameOutcome _ _ blankValues).
    + eapply Forall_impl; [exact IH|]. intros e He r1 r1' Hr1. by apply He.
    + by apply sameText_appendText.
  - (* Parameter *)
    by apply sameOutcome_compileParameter.
  - (* ParentColumn *)
    simpl. unfold compileParentColumn. destruct (pinParentTable this pt); [|done].
    destruct (truthy _); simpl; auto using sameText_appendText.
  - (* ColumnValues *)
    simpl blankValues. rewrite !compileExpression_ColumnValues.
    rewrite (sortedKeys_map (λ _ v, match v with
                                    | JSQLFragment _ _ _ => blankValues v
                                    | JSymbol SymDefault => v
                                    | _ => JNull
                                    end)).
    rewrite <- (list_fmap_id (sortedKeys value)) at 2.
    apply (forEach_sameOutcome _ _ id); [|done].
    apply Forall_forall. intros k [v Hv]%elem_of_sortedKeys i r1 r1' Hr1. simpl.
    unfold getValue.
    rewrite (getProp_map (λ _ v, match v with
                                 | JSQLFragment _ _ _ => blankValues v
                                 | JSymbol SymDefault => v
                                 | _ => JNull
                                 end)), Hv. simpl.
    rewrite Forall_forall in IH.
    pose proof (IH (k, v) (getProp_Some_elem _ _ _ Hv)) as IHv. simpl in IHv.
    assert (sameText (if 0 <? i then appendText r1 ", " else r1)
              (if 0 <? i then appendText r1' ", " else r1')) as Hsep.
    { destruct (0 <? i); auto using sameText_appendText. }
    unfold compileColumnValue.
    destruct v as [| | | | |[]| | | | | | | | |];
      try (by apply sameOutcome_compileParameter).
    + simpl. by apply sameText_appendText.
    + by apply IHv.
  - (* Whereable *)
    simpl blankValues. rewrite !compileExpression_Whereable.
    rewrite (sortedKeys_map (λ _ v, match v with
                                    | JSQLFragment _ _ _ => blankValues v
                                    | JParentColumn _ => v
                                    | _ => JNull
                                    end)).
    destruct (sortedKeys props) as [|k0 ks] eqn:Hks; [by apply sameText_appendText|].
    rewrite <- Hks.
    apply sameOutcome_seq; [|intros; by apply sameText_appendText].
    rewrite <- (list_fmap_id (sortedKeys props)) at 2.
    apply (forEach_sameOutcome _ _ id); [|by apply sameText_appendText].
    apply Forall_forall. intros k [v Hv]%elem_of_sortedKeys i r1 r1' Hr1. simpl.
    unfold getValue.
    rewrite (getProp_map (λ _ v, match v with
                                 | JSQLFragment _ _ _ => blankValues v
                                 | JParentColumn _ => v
                                 | _ => JNull
                                 end)), Hv. simpl.
    rewrite Forall_forall in IH.
    pose proof (IH (k, v) (getProp_Some_elem _ _ _ Hv)) as IHv. simpl in IHv.
    assert (sameText (if 0 <? i then appendText r1 " AND " else r1)
              (if 0 <? i then appendText r1' " AND " else r1')) as Hsep.
    { destruct (0 <? i); auto using sameText_appendText. }
    unfold compileWhereValue.
    destruct v;
      try (by apply sameOutcome_compileParameter, sameText_appendText).
    + apply sameOutcome_seq; [|intros; by apply sameText_appendText].
      by apply IHv, sameText_appendText.
    + by apply (IHv this), sameText_appendText.
Qed.

Lemma sameText_sym r r' : sameText r r' → sameText r' r.
Proof. intros [Ht Hv]. by split. Qed.

Lemma sameText_trans r1 r2 r3 : sameText r1 r2 → sameText r2 r3 → sameText r1 r3.
Proof. intros [Ht Hv] [Ht' Hv']. split; congruence. Qed.

Lemma sameOutcome_sym c c' : sameOutcome c c' → sameOutcome c' c.
Proof.
  destruct c, c'; simpl; try done; [apply sameText_sym|].
  intros [-> H]. split; [done|by apply sameText_sym].
Qed.

Lemma sameOutcome_trans c1 c2 c3 :
  sameOutcome c1 c2 → sameOutcome c2 c3 → sameOutcome c1 c3.
Proof.
  destruct c1, c2, c3; simpl; try done; [apply sameText_trans|].
  intros [-> H1] [-> H2]. split; [done|by eapply sameText_trans].
Qed.

(** ** X24: the text does not depend on the values bound *)

(** X24: the text of a query does not depend on any value it binds.  Two
    expressions that differ only in the values they bind, the values of
    their parameters and the values of their [ColumnValues] and [Whereable]
    objects that are not compiled themselves, compile alike from
    accumulators with the same text and as many values: both return or
    both throw the same error, and they leave the same text and as many
    values.  A bound value reaches the database in [values] only. *)
Theorem X24_text_ignores_values this expression expression' result result' inherited
    currentColumn :
  blankValues expression = blankValues expression' → sameText result result' →
  sameOutcome (compileExpression this expression result inherited currentColumn)
    (compileExpression this expression' result' inherited currentColumn).
Proof.
  intros Hblank Hresult.
  eapply sameOutcome_trans;
    [by apply compileExpression_blankValues|].
  rewrite Hblank. apply sameOutcome_sym, compileExpression_blankValues. by split.
Qed.

Lemma X24_witness :
  (blankValues (JArray [JString "users"; mappingAB; param (JNumber 7)])
   = blankValues (JArray [JString "users";
                          JObject ObjectPrototype
                            [("a", JString "x' OR 1=1 --"); ("b", JSymbol SymSelf)];
                          param (JString "$9")])
   ∧ sameText emptyResult emptyResult)
  ∧ sameOutcome
      (Return {| text := quoted "users" +:+ "(" +:+ quoted "a" +:+ " = $1 AND "
                         +:+ quoted "b" +:+ " = $2)$3";
                 values := [JNumber 1; JNumber 2; JNumber 7] |})
      (Return {| text := quoted "users" +:+ "(" +:+ quoted "a" +:+ " = $1 AND "
                         +:+ quoted "b" +:+ " = $2)$3";
                 values := [JString "x' OR 1=1 --"; JSymbol SymSelf; JString "$9"] |}).
Proof.
  assert (sameText emptyResult emptyResult) as Hsame by (split; reflexivity).
  split; [split; [reflexivity|exact Hsame]|].
  exact (X24_text_ignores_values None
           (JArray [JString "users"; mappingAB; param (JNumber 7)])
           (JArray [JString "users";
                    JObject ObjectPrototype
                      [("a", JString "x' OR 1=1 --"); ("b", JSymbol SymSelf)];
                    param (JString "$9")])
           emptyResult emptyResult None None eq_refl Hsame).
Defined.

(** * The generator *)

(** ** Spreading one object over another *)

Lemma getProp_app {A} (props1 props2 : list (string * A)) k :
  getProp (props1 ++ props2) k
  = match getProp props2 k with
    | Some v => Some v
    | None => getProp props1 k
    end.
Proof.
  induction props1 as [|[k' v] props1 IH]; simpl.
  - by destruct (getProp props2 k).
  - rewrite IH. by destruct (getProp props2 k), (getProp props1 k).
Qed.

Lemma defaultConfig_no_db : getProp Generate.defaultConfig "db" = None.
Proof. reflexivity. Qed.

Lemma finalConfig_db config :
  getValue (Generate.defaultConfig ++ config) "db" = getValue config "db".
Proof.
  unfold getValue. rewrite getProp_app, defaultConfig_no_db.
  by destruct (getProp config "db").
Qed.

Lemma finaliseConfig_cases config :
  match Generate.finaliseConfig config with
  | inr finalConfig =>
      finalConfig = Generate.defaultConfig ++ config
      ∧ ∃ db n, getProp config "db" = Some db ∧ Generate.falsy db = false
                ∧ Generate.keyCount db = Some (S n)
  | inl e =>
      e = Generate.noConnectionDetails
      ∧ (getProp config "db" = None
         ∨ ∃ db, getProp config "db" = Some db
                 ∧ (Generate.falsy db = true ∨ Generate.keyCount db = Some 0))
  end.
Proof.
  unfold Generate.finaliseConfig. rewrite finalConfig_db. unfold getValue.
  destruct (getProp config "db") as [db|] eqn:Hdb; simpl; [|by auto].
  destruct (Generate.falsy db) eqn:Hfalsy; [by eauto 6|].
  destruct (Generate.keyCount db) as [[|n]|] eqn:Hcount; simpl.
  - by eauto 6.
  - by eauto 6.
  - by destruct db.
Qed.

(** ** X20, X21: [finaliseConfig] *)

(** X20: [finaliseConfig] returns when, and only when, the configuration
    has a [db] that is truthy and has at least one own key, and then it
    returns the defaults with the configuration spread over them.
    Otherwise it throws the one error that connection details are needed:
    when [db] is missing, when it is falsy, and when it has no key, as the
    empty object has.  The defaults never supply a [db]. *)
Theorem X20_finaliseConfig_needs_db config :
  match Generate.finaliseConfig config with
  | inr finalConfig =>
      finalConfig = Generate.defaultConfig ++ config
      ∧ ∃ db n, getProp config "db" = Some db ∧ Generate.falsy db = false
                ∧ Generate.keyCount db = Some (S n)
  | inl e =>
      e = Generate.noConnectionDetails
      ∧ (getProp config "db" = None
         ∨ ∃ db, getProp config "db" = Some db
                 ∧ (Generate.falsy db = true ∨ Generate.keyCount db = Some 0))
  end.
Proof. apply finaliseConfig_cases. Qed.

(** X21: in the configuration that [finaliseConfig] returns, an option has
    the value the given configuration assigns to it, be it [undefined], and
    the default only when the given configuration does not have the key;
    its keys are those of the given configuration and the six defaults; and
    finalising it once more returns a configuration with the same value for
    every key. *)
Theorem X21_finaliseConfig_overlays config finalConfig :
  Generate.finaliseConfig config = inr finalConfig →
  (∀ k, getProp finalConfig k
        = match getProp config k with
          | Some v => Some v
          | None => getProp Generate.defaultConfig k
          end)
  ∧ (∀ k, k ∈ sortedKeys finalConfig
          ↔ k ∈ sortedKeys config ∨ k ∈ sortedKeys Generate.defaultConfig)
  ∧ ∃ finalConfig', Generate.finaliseConfig finalConfig = inr finalConfig'
                    ∧ ∀ k, getProp finalConfig' k = getProp finalConfig k.
Proof.
  intros Hfinal.
  pose proof (finaliseConfig_cases config) as H. rewrite Hfinal in H.
  destruct H as (-> & db & n & Hdb & Hfalsy & Hcount).
  split; [intros k; apply getProp_app|]. split.
  - intros k. rewrite !elem_of_sortedKeys, getProp_app.
    destruct (getProp config k); split; intros H; eauto.
    + destruct H as [[? [=]]|H]; done.
  - exists (Generate.defaultConfig ++ Generate.defaultConfig ++ config). split.
    + unfold Generate.finaliseConfig. rewrite !finalConfig_db. unfold getValue.
      rewrite Hdb. simpl. rewrite Hfalsy, Hcount. done.
    + intros k. rewrite !getProp_app.
      by destruct (getProp config k), (getProp Generate.defaultConfig k).
Qed.

Lemma X21_witness :
  Generate.finaliseConfig
    [("db", JObject ObjectPrototype [("host", JString "localhost")]);
     ("outDir", JUndefined)]
  = inr (Generate.defaultConfig
         ++ [("db", JObject ObjectPrototype [("host", JString "localhost")]);
             ("outDir", JUndefined)])
  ∧ getProp (Generate.defaultConfig
             ++ [("db", JObject ObjectPrototype [("host", JString "localhost")]);
                 ("outDir", JUndefined)]) "outDir"
    = Some JUndefined
  ∧ getProp (Generate.defaultConfig
             ++ [("db", JObject ObjectPrototype [("host", JString "localhost")]);
                 ("outDir", JUndefined)]) "srcMode"
    = Some (JString "copy").
Proof.
  split; [reflexivity|].
  pose proof (proj1 (X21_finaliseConfig_overlays
                       [("db", JObject ObjectPrototype [("host", JString "localhost")]);
                        ("outDir", JUndefined)] _ eq_refl)) as H.
  split; [exact (H "outDir")|exact (H "srcMode")].
Defined.

(** ** The tables of a schema *)

Lemma indexOfFrom_range xs x :
  ∀ i, (0 ≤ i)%Z →
    (Generate.indexOfFrom i xs x = -1)%Z ∧ x ∉ xs
    ∨ (i ≤ Generate.indexOfFrom i xs x)%Z ∧ x ∈ xs.
Proof.
  induction xs as [|y xs IH]; intros i Hi; simpl.
  - left. split; [done|]. by intros ?%elem_of_nil.
  - destruct (String.eqb y x) eqn:Hy.
    + apply String.eqb_eq in Hy as ->. right. split; [lia|by left].
    + apply String.eqb_neq in Hy.
      destruct (IH (i + 1)%Z) as [[-> Hx]|[Hle Hx]]; [lia|..].
      * left. split; [done|]. by intros [->|?]%elem_of_cons.
      * right. split; [lia|by right].
Qed.

Lemma indexOf_negative xs x : (Generate.indexOf xs x <? 0)%Z = true ↔ x ∉ xs.
Proof.
  unfold Generate.indexOf. rewrite Z.ltb_lt.
  destruct (indexOfFrom_range xs x 0%Z) as [[-> Hx]|[Hle Hx]]; [lia|..]; split;
    try done; lia.
Qed.

Lemma elem_of_tables include excluded tablesInSchema table :
  table ∈ Generate.tables include (Generate.Names excluded) tablesInSchema
  ↔ table ∈ match include with
            | Generate.Star => tablesInSchema
            | Generate.Names included => included
            end
    ∧ table ∉ excluded.
Proof.
  unfold Generate.tables.
  by rewrite list_elem_of_In, filter_In, <- list_elem_of_In, indexOf_negative.
Qed.

Lemma filter_indexOf_app excluded excluded' candidates :
  List.filter (λ table, (Generate.indexOf (excluded ++ excluded') table <? 0)%Z)
    candidates
  = List.filter (λ table, (Generate.indexOf excluded' table <? 0)%Z)
      (List.filter (λ table, (Generate.indexOf excluded table <? 0)%Z) candidates).
Proof.
  induction candidates as [|t ts IH]; simpl; [done|].
  destruct (Generate.indexOf excluded t <? 0)%Z eqn:H1; simpl.
  - destruct (Generate.indexOf excluded' t <? 0)%Z eqn:H2.
    + assert ((Generate.indexOf (excluded ++ excluded') t <? 0)%Z = true) as ->.
      { apply indexOf_negative. apply indexOf_negative in H1, H2.
        by intros [?|?]%elem_of_app. }
      by rewrite IH.
    + destruct (Generate.indexOf (excluded ++ excluded') t <? 0)%Z eqn:H3; [|done].
      apply indexOf_negative in H3. apply Z.ltb_ge in H2.
      destruct (indexOfFrom_range excluded' t 0%Z) as [[E _]|[_ Hin]]; [lia|..].
      * unfold Generate.indexOf in H2. lia.
      * exfalso. apply H3, elem_of_app. by right.
  - destruct (Generate.indexOf (excluded ++ excluded') t <? 0)%Z eqn:H3; [|done].
    apply indexOf_negative in H3. apply Z.ltb_ge in H1.
    destruct (indexOfFrom_range excluded t 0%Z) as [[E _]|[_ Hin]]; [lia|..].
    + unfold Generate.indexOf in H1. lia.
    + exfalso. apply H3, elem_of_app. by left.
Qed.

Lemma filter_sublist {A} (f : A → bool) xs : sublist (List.filter f xs) xs.
Proof.
  induction xs as [|x xs IH]; simpl; [constructor|].
  destruct (f x); by constructor.
Qed.

Lemma filter_indexOf excluded candidates :
  List.filter (λ table, (Generate.indexOf excluded table <? 0)%Z) candidates
  = filter (λ table, table ∉ excluded) candidates.
Proof.
  induction candidates as [|t ts IH]; simpl; [done|].
  destruct (Generate.indexOf excluded t <? 0)%Z eqn:Ht.
  - apply indexOf_negative in Ht. by rewrite filter_cons_True, IH.
  - rewrite filter_cons_False, IH; [done|].
    intros Hin%indexOf_negative. congruence.
Qed.

(** X22: the tables that types are generated for.  An [exclude] of ['*']
    gives none, whatever [include] says.  Otherwise they are exactly the
    tables that [include] names, or those found in the schema when
    [include] is ['*'], with the excluded ones taken out and nothing else
    changed: every table that is not excluded stays where it was and as
    often as it was listed.  So none of them is excluded, nothing is lost
    when nothing is excluded, a table listed twice and not excluded comes
    out twice, and excluding what is left after a first exclusion is
    excluding both lists at once. *)
Theorem X22_tables_of_schema include excluded excluded' tablesInSchema :
  Generate.tables include Generate.Star tablesInSchema = []
  ∧ Generate.tables include (Generate.Names excluded) tablesInSchema
    = filter (λ table, table ∉ excluded)
        match include with
        | Generate.Star => tablesInSchema
        | Generate.Names included => included
        end
  ∧ (∀ table,
       table ∈ Generate.tables include (Generate.Names excluded) tablesInSchema
       ↔ table ∈ Generate.tables include (Generate.Names []) tablesInSchema
         ∧ table ∉ excluded)
  ∧ (∀ table,
       table ∉ excluded →
       length (filter (λ t, t = table)
                 (Generate.tables include (Generate.Names excluded) tablesInSchema))
       = length (filter (λ t, t = table)
                   match include with
                   | Generate.Star => tablesInSchema
                   | Generate.Names included => included
                   end))
  ∧ Generate.tables include (Generate.Names []) tablesInSchema
    = match include with
      | Generate.Star => tablesInSchema
      | Generate.Names included => included
      end
  ∧ sublist (Generate.tables include (Generate.Names excluded) tablesInSchema)
      (Generate.tables include (Generate.Names []) tablesInSchema)
  ∧ Generate.tables
      (Generate.Names (Generate.tables include (Generate.Names excluded) tablesInSchema))
      (Generate.Names excluded') tablesInSchema
    = Generate.tables include (Generate.Names (excluded ++ excluded')) tablesInSchema
  ∧ Generate.tables (Generate.Names ["users"; "users"; "tmp"]) (Generate.Names ["tmp"])
      tablesInSchema
    = ["users"; "users"].
Proof.
  assert (Generate.tables include (Generate.Names []) tablesInSchema
          = match include with
            | Generate.Star => tablesInSchema
            | Generate.Names included => included
            end) as Hall.
  { unfold Generate.tables. simpl. induction (match include with
                                               | Generate.Star => _
                                               | Generate.Names included => _
                                               end) as [|t ts IH]; simpl; [done|].
    by rewrite IH. }
  assert (Generate.tables include (Generate.Names excluded) tablesInSchema
          = filter (λ table, table ∉ excluded)
              match include with
              | Generate.Star => tablesInSchema
              | Generate.Names included => included
              end) as Hfilter.
  { unfold Generate.tables. apply filter_indexOf. }
  split; [done|]. split; [done|].
  split; [|split; [|split; [done|split; [|split; [|done]]]]].
  - intros table. by rewrite elem_of_tables, Hall.
  - intros table Hin. rewrite Hfilter, list_filter_filter. f_equal.
    apply list_filter_iff. intros t. split; [by intros [? ?]|].
    intros ->. done.
  - rewrite Hall. apply filter_sublist.
  - unfold Generate.tables. by rewrite filter_indexOf_app.
Qed.

Lemma X22_witness :
  ("users" ∉ ["tmp"])
  ∧ (length (filter (λ t, t = "users")
               (Generate.tables (Generate.Names ["users"; "users"; "tmp"])
                  (Generate.Names ["tmp"]) []))
     = 2).
Proof.
  assert ("users" ∉ ["tmp"]) as Hnot.
  { intros [=]%list_elem_of_singleton. }
  split; [exact Hnot|].
  exact (proj1 (proj2 (proj2 (proj2
           (X22_tables_of_schema (Generate.Names ["users"; "users"; "tmp"])
              ["tmp"] [] [])))) "users" Hnot).
Defined.

(** ** All the tables *)

Lemma concat_nil_iff {A} (xss : list (list A)) :
  concat xss = [] ↔ ∀ xs, xs ∈ xss → xs = [].
Proof.
  induction xss as [|xs xss IH]; simpl.
  - split; [by intros _ xs ?%elem_of_nil|done].
  - split.
    + intros [-> H]%app_eq_nil xs' [->|?]%elem_of_cons; [done|]. by apply IH.
    + intros H. rewrite (H xs) by (by left). simpl. apply IH. intros xs' ?.
      apply H. by right.
Qed.

Lemma concat_Permutation_Proper {A} (xss yss : list (list A)) :
  xss ≡ₚ yss → concat xss ≡ₚ concat yss.
Proof.
  induction 1 as [|xs xss yss _ IH|xs ys xss|xss yss zss _ IH1 _ IH2]; simpl.
  - done.
  - by rewrite IH.
  - rewrite !app_assoc. f_equiv. apply Permutation_app_comm.
  - by rewrite IH1.
Qed.

(** X23: [allTables] lists the tables of all schemas in ascending order,
    each as often as the schemas list it, and is the same in whatever order
    the schemas come; [hasTables] holds exactly when some schema has a
    table. *)
Theorem X23_allTables_sorted schemaTables :
  StronglySorted String.le (Generate.allTables schemaTables)
  ∧ Generate.allTables schemaTables ≡ₚ concat schemaTables
  ∧ (∀ schemaTables', schemaTables ≡ₚ schemaTables' →
       Generate.allTables schemaTables = Generate.allTables schemaTables')
  ∧ (Generate.hasTables schemaTables = true
     ↔ ∃ tables, tables ∈ schemaTables ∧ tables ≠ []).
Proof.
  unfold Generate.hasTables, Generate.allTables.
  split; [apply sortStrings_sorted|]. split; [apply sortStrings_perm|]. split.
  - intros schemaTables' H. by apply sortStrings_unique, concat_Permutation_Proper.
  - rewrite (Permutation_length (sortStrings_perm _)), Nat.ltb_lt. split.
    + intros Hlen.
      destruct (decide (Forall (λ tables, tables = []) schemaTables)) as [Hall|Hsome].
      * rewrite Forall_forall in Hall. apply concat_nil_iff in Hall.
        rewrite Hall in Hlen. simpl in Hlen. lia.
      * apply not_Forall_Exists, Exists_exists in Hsome; [done|]. intros tables.
        apply _.
    + intros (tables & Hin & Hne).
      destruct (concat schemaTables) eqn:Hc; simpl; [|lia].
      exfalso. apply Hne. by eapply concat_nil_iff.
Qed.
